(** * Tic-Tac-Toe decision engine: a shallow embedding and its properties

    The development follows the JavaScript sources, one module for each
    source file: the rules engine (gameLogic.js), the alpha-beta search
    (alphaBeta.js), the dataset-format feature extractor
    (featureExtractor.js), the two linear evaluators (both called mlEval.js),
    the gradient-descent trainer (modelTrainer.js) and the min-max
    normalisation of the dataset loader (datasetLoader.js).

    Numbers.  A JavaScript number is a finite number, one of the two
    infinities or NaN ([number]).  A finite number is modelled as an exact
    rational ([Qc], canonical fractions, so that equality is Leibniz
    equality): the rounding of IEEE doubles and the sign of zero are outside
    the model, and so is the overflow of a finite result to an infinity.
    The statements that depend on a result staying finite carry a bound that
    keeps it inside the range of the doubles ([MAX_VALUE]); where a rounding
    decides more than the last digits of a result (the size of the test part
    in [splitDataset]) the product is taken as the code computes it. *)

From Stdlib Require Import QArith Qcanon Qround Lia.
From stdpp Require Import base decidable option list numbers sorting relations
  strings pretty.

Local Open Scope Z_scope.

(** * Numbers *)

(** ** Numbers with the two infinities *)

Inductive num : Type := NegInfinity | Num (q : Qc) | Infinity.

Global Instance num_eq_dec : EqDecision num.
Proof. solve_decision. Defined.

(** [a <= b] *)
Definition num_leb (a b : num) : bool :=
  match a, b with
  | NegInfinity, _ => true
  | _, Infinity => true
  | Num p, Num q => bool_decide (p ≤ q)%Qc
  | _, _ => false
  end.

(** [a > b] *)
Definition num_gtb (a b : num) : bool := negb (num_leb a b).

Definition num_le (a b : num) : Prop := num_leb a b = true.
Definition num_lt (a b : num) : Prop := num_leb b a = false.

Module NumOrd.
Definition t := num.
Definition eq := @Logic.eq num.
Definition lt := num_lt.
Definition le := num_le.
End NumOrd.

Definition Math_max (a b : num) : num := if num_leb a b then b else a.
Definition Math_min (a b : num) : num := if num_leb a b then a else b.

(** [Math.max(alpha, Math.min(beta, x))]: the value [x] seen through the
    search window. *)
Definition clamp (alpha beta x : num) : num := Math_max alpha (Math_min beta x).

(** [Math.max] and [Math.min] on finite numbers. *)
Definition Qc_max (a b : Qc) : Qc := if bool_decide (a ≤ b)%Qc then b else a.
Definition Qc_min (a b : Qc) : Qc := if bool_decide (a ≤ b)%Qc then a else b.

(** ** Numbers with NaN

    The search, the linear evaluator, the trainer and the dataset loader do
    arithmetic on whatever they are given (the values of any evaluator, the
    weights of any model, whatever the arrays hold), so their numbers also
    include NaN ([None]): what an arithmetic operation gives on [undefined]
    (a read past the end of an array) and on the undefined forms of the
    infinities, and what a comparison answers [false] to.  Finite results are
    exact; the sign of a zero is not modelled (a zero divisor counts as
    +0). *)

Abbreviation number := (option num).

Definition NaN : number := None.
Definition ofQc (q : Qc) : number := Some (Num q).
Definition ofNat (n : nat) : number := Some (Num (Qc_of_Z (Z.of_nat n))).

(** The sign of a number that is not NaN: -1, 0 or 1. *)
Definition num_sign (a : num) : Z :=
  match a with
  | NegInfinity => (-1)%Z
  | Num q => if decide (q = 0)%Qc then 0%Z
             else if decide (0 < q)%Qc then 1%Z else (-1)%Z
  | Infinity => 1%Z
  end.

Definition infinityOfSign (s : Z) : number :=
  if decide (s = 0)%Z then NaN
  else if decide (0 < s)%Z then Some Infinity else Some NegInfinity.

Definition js_neg (a : number) : number :=
  match a with
  | Some NegInfinity => Some Infinity
  | Some (Num q) => Some (Num (- q)%Qc)
  | Some Infinity => Some NegInfinity
  | None => None
  end.

(** [a + b] *)
Definition js_add (a b : number) : number :=
  match a, b with
  | Some (Num p), Some (Num q) => Some (Num (p + q)%Qc)
  | Some Infinity, Some NegInfinity => NaN
  | Some NegInfinity, Some Infinity => NaN
  | Some Infinity, Some _ => Some Infinity
  | Some _, Some Infinity => Some Infinity
  | Some NegInfinity, Some _ => Some NegInfinity
  | Some _, Some NegInfinity => Some NegInfinity
  | _, _ => NaN
  end.

(** [a - b] *)
Definition js_sub (a b : number) : number := js_add a (js_neg b).

(** [a * b] *)
Definition js_mul (a b : number) : number :=
  match a, b with
  | Some (Num p), Some (Num q) => Some (Num (p * q)%Qc)
  | Some x, Some y => infinityOfSign (num_sign x * num_sign y)
  | _, _ => NaN
  end.

(** [a / b] *)
Definition js_div (a b : number) : number :=
  match a, b with
  | Some (Num p), Some (Num q) =>
      if decide (q = 0)%Qc then infinityOfSign (num_sign (Num p))
      else Some (Num (p / q)%Qc)
  | Some (Num _), Some _ => Some (Num 0%Qc)
  | Some x, Some (Num q) =>
      infinityOfSign (num_sign x * (if decide (q < 0)%Qc then -1 else 1))
  | _, _ => NaN
  end.

(** [Math.min(a, b)] and [Math.max(a, b)]: NaN when an argument is. *)
Definition js_min (a b : number) : number :=
  match a, b with
  | Some x, Some y => Some (Math_min x y)
  | _, _ => NaN
  end.

Definition js_max (a b : number) : number :=
  match a, b with
  | Some x, Some y => Some (Math_max x y)
  | _, _ => NaN
  end.

(** [a >= b] *)
Definition js_geb (a b : number) : bool :=
  match a, b with
  | Some x, Some y => num_leb y x
  | _, _ => false
  end.

(** [a === b] *)
Definition js_eqb (a b : number) : bool :=
  match a, b with
  | Some x, Some y => bool_decide (x = y)
  | _, _ => false
  end.

(** [a > b] *)
Definition js_gtb (a b : number) : bool :=
  match a, b with
  | Some x, Some y => num_gtb x y
  | _, _ => false
  end.

(** [a <= b] and [a < b] *)
Definition js_leb (a b : number) : bool := js_geb b a.

Definition js_ltb (a b : number) : bool := js_gtb b a.

(** An integer as a number. *)
Definition ofZ (z : Z) : number := ofQc (Qc_of_Z z).

(** [Number.MAX_VALUE], the largest finite double: [2^1024 - 2^971]. *)
Definition MAX_VALUE : Qc := Qc_of_Z (2 ^ 1024 - 2 ^ 971).

(** [Math.abs(a)] *)
Definition js_abs (a : number) : number :=
  match a with
  | Some (Num q) => Some (Num (if bool_decide (q < 0)%Qc then (- q)%Qc else q))
  | Some _ => Some Infinity
  | None => NaN
  end.

(** [l[i]] read as a number: NaN past the end. *)
Definition numAt (l : list number) (i : nat) : number := default NaN (l !! i).

(** [X[i]] for a row of a matrix. *)
Definition rowAt (M : list (list number)) (i : nat) : list number :=
  default [] (M !! i).

(** [l[i] = v]: inside the array the slot is overwritten, past its end the
    array grows and the slots in between read as NaN. *)
Definition arraySet (l : list number) (i : nat) (v : number) : list number :=
  if decide (i < length l)%nat then <[i := v]> l
  else l ++ replicate (i - length l) NaN ++ [v].

(** ** Arrays *)

(** [l.sort(comparefn)].  The sort of an array is stable, and an element is
    moved behind another one only when [comparefn] of the two is positive (a
    NaN counts as 0); for a comparison function that is consistent this fixes
    the result, which is computed here by insertion from the right.  For a
    comparison function that is not consistent (a difference of values with
    a NaN among them) the order of the result is left to the engine: only
    that it is a rearrangement of the array is stated of it then. *)
Fixpoint sortInsert {A} (comparefn : A -> A -> number) (x : A) (l : list A) : list A :=
  match l with
  | [] => [x]
  | y :: l' =>
      if js_gtb (comparefn x y) (ofQc 0%Qc) then y :: sortInsert comparefn x l'
      else x :: y :: l'
  end.

Definition arraySort {A} (comparefn : A -> A -> number) (l : list A) : list A :=
  foldr (sortInsert comparefn) [] l.

(** An index argument of [slice] on an array of length [len]: a negative
    index counts from the end, and the result is kept inside [0, len]. *)
Definition sliceIndex (len : nat) (i : Z) : nat :=
  if decide (i < 0) then Z.to_nat (Z.max (Z.of_nat len + i) 0)
  else Z.to_nat (Z.min i (Z.of_nat len)).

(** [l.slice(start, end)] *)
Definition slice {A} (l : list A) (start end_ : Z) : list A :=
  let k := sliceIndex (length l) start in
  let final := sliceIndex (length l) end_ in
  take (final - k) (drop k l).

(** [l.slice(start)] *)
Definition sliceFrom {A} (l : list A) (start : Z) : list A :=
  drop (sliceIndex (length l) start) l.

(** * The source files *)

(** ** gameLogic.js *)

Module GameLogic.

Inductive mark : Type := X | O.

(** A slot of the board array: [null], a mark, or an array hole / [undefined]
    (what reading past the end of the array gives, and what an assignment past
    the end leaves between the old end and the written slot). *)
Inductive cell : Type := Null | Mark (m : mark) | Undefined.

Abbreviation board := (list cell).

Global Instance mark_eq_dec : EqDecision mark.
Proof. solve_decision. Defined.

Global Instance cell_eq_dec : EqDecision cell.
Proof. solve_decision. Defined.

(** [board[i]] *)
Definition cellAt (b : board) (i : nat) : cell := default Undefined (b !! i).

Definition createEmptyBoard : board := replicate 9 Null.

(** [board.map((cell, index) => cell === null ? index : null)
         .filter(val => val !== null)] *)
Definition getLegalMoves (b : board) : list nat :=
  omap id (imap (fun index c => if decide (c = Null) then Some index else None) b).

(** [newBoard = [...board]; newBoard[position] = player].  Inside the array the
    slot is overwritten; past its end JavaScript grows the array and leaves
    holes in between. *)
Definition makeMove (b : board) (position : nat) (player : mark) : board :=
  if decide (position < length b)%nat
  then <[position := Mark player]> b
  else b ++ replicate (position - length b) Undefined ++ [Mark player].

Definition winPatterns : list (nat * nat * nat) :=
  [ (0, 1, 2); (3, 4, 5); (6, 7, 8);
    (0, 3, 6); (1, 4, 7); (2, 5, 8);
    (0, 4, 8); (2, 4, 6) ]%nat.

(** One iteration of the loop of [checkWinner]:
    [board[a] && board[a] === board[b] && board[a] === board[c]]. *)
Definition lineWinner (b : board) (p : nat * nat * nat) : option mark :=
  let '(i, j, k) := p in
  match cellAt b i with
  | Mark m =>
      if decide (cellAt b i = cellAt b j) then
        if decide (cellAt b i = cellAt b k) then Some m else None
      else None
  | _ => None
  end.

Fixpoint checkWinnerIn (pats : list (nat * nat * nat)) (b : board)
  : option (mark * (nat * nat * nat)) :=
  match pats with
  | [] => None
  | p :: rest =>
      match lineWinner b p with
      | Some m => Some (m, p)
      | None => checkWinnerIn rest b
      end
  end.

Definition checkWinner (b : board) : option (mark * (nat * nat * nat)) :=
  checkWinnerIn winPatterns b.

(** [board.every(cell => cell !== null)] *)
Definition isBoardFull (b : board) : bool :=
  forallb (fun c => if decide (c = Null) then false else true) b.

(** The [winner] field of [isTerminal]: a mark or the string ['draw']. *)
Inductive winnerTag : Type := WinnerIs (m : mark) | WinnerDraw.

Global Instance winnerTag_eq_dec : EqDecision winnerTag.
Proof. solve_decision. Defined.

Record terminalState : Type := mkTerminalState {
  terminal : bool;
  winner : option winnerTag;
  line : option (nat * nat * nat)
}.

Definition isTerminal (b : board) : terminalState :=
  match checkWinner b with
  | Some (m, l) => mkTerminalState true (Some (WinnerIs m)) (Some l)
  | None =>
      if isBoardFull b then mkTerminalState true (Some WinnerDraw) None
      else mkTerminalState false None None
  end.

Definition getOpponent (player : mark) : mark :=
  match player with X => O | _ => X end.

(** *** The symmetric feature extractor *)

(** [list.filter(v => v === c).length] *)
Definition countOf (c : cell) (l : list cell) : Z :=
  Z.of_nat (length (filter (fun v => v = c) l)).

Definition lines : list (nat * nat * nat) :=
  [ (0, 1, 2); (3, 4, 5); (6, 7, 8);
    (0, 3, 6); (1, 4, 7); (2, 5, 8);
    (0, 4, 8); (2, 4, 6) ]%nat.

Definition corners : list nat := [0; 2; 6; 8]%nat.

(** [corners.filter(i => board[i] === c).length] *)
Definition cornersOf (c : cell) (b : board) : Z :=
  Z.of_nat (length (filter (fun i => cellAt b i = c) corners)).

Record features : Type := mkFeatures {
  playerMarks : Z;
  opponentMarks : Z;
  playerTwoInRow : Z;
  opponentTwoInRow : Z;
  playerOneInRow : Z;
  opponentOneInRow : Z;
  centerControl : Z;
  playerCorners : Z;
  opponentCorners : Z
}.

(** The counters of the loop over the lines in [extractFeatures]:
    two-in-a-row and one-in-a-row, for the player and for the opponent. *)
Definition lineCounters (b : board) (player opponent : mark)
    (st : Z * Z * Z * Z) (l : nat * nat * nat) : Z * Z * Z * Z :=
  let '(playerTwo, opponentTwo, playerOne, opponentOne) := st in
  let '(i, j, k) := l in
  let lineValues := [cellAt b i; cellAt b j; cellAt b k] in
  let playerCount := countOf (Mark player) lineValues in
  let opponentCount := countOf (Mark opponent) lineValues in
  let emptyCount := countOf Null lineValues in
  let playerTwo :=
    if bool_decide (playerCount = 2 /\ emptyCount = 1)%Z then (playerTwo + 1)%Z else playerTwo in
  let opponentTwo :=
    if bool_decide (opponentCount = 2 /\ emptyCount = 1)%Z then (opponentTwo + 1)%Z else opponentTwo in
  let playerOne :=
    if bool_decide (playerCount = 1 /\ emptyCount = 2)%Z then (playerOne + 1)%Z else playerOne in
  let opponentOne :=
    if bool_decide (opponentCount = 1 /\ emptyCount = 2)%Z then (opponentOne + 1)%Z else opponentOne in
  (playerTwo, opponentTwo, playerOne, opponentOne).

Definition extractFeatures (b : board) (player : mark) : features :=
  let opponent := getOpponent player in
  let '(playerTwo, opponentTwo, playerOne, opponentOne) :=
    fold_left (lineCounters b player opponent) lines (0, 0, 0, 0)%Z in
  {| playerMarks := countOf (Mark player) b;
     opponentMarks := countOf (Mark opponent) b;
     playerTwoInRow := playerTwo;
     opponentTwoInRow := opponentTwo;
     playerOneInRow := playerOne;
     opponentOneInRow := opponentOne;
     centerControl :=
       if decide (cellAt b 4 = Mark player) then 1%Z
       else if decide (cellAt b 4 = Mark opponent) then (-1)%Z else 0%Z;
     playerCorners := cornersOf (Mark player) b;
     opponentCorners := cornersOf (Mark opponent) b |}.

(** *** Board coordinates *)

(** [{ row: Math.floor(index / 3), col: index % 3 }] on an integer index;
    [%] is the remainder that takes the sign of the dividend. *)
Definition indexToRowCol (index : Z) : Z * Z := (index / 3, Z.rem index 3).

Definition rowColToIndex (row col : Z) : Z := row * 3 + col.

End GameLogic.

Import GameLogic.

(** ** alphaBeta.js *)

Module AlphaBeta.

(** An evaluation function returns a number: NaN and the infinities
    included. *)
Definition evaluator : Type := board -> mark -> number.

(** The [for (const move of legalMoves)] loop of the maximizing branch, with
    its [break]; [child newBoard alpha] is the recursive call. *)
Fixpoint maximizeOver (child : board -> number -> number) (b : board)
    (aiPlayer : mark) (beta : number) (legalMoves : list nat)
    (maxEval alpha : number) : number :=
  match legalMoves with
  | [] => maxEval
  | move :: rest =>
      let newBoard := makeMove b move aiPlayer in
      let evaluation := child newBoard alpha in
      let maxEval := js_max maxEval evaluation in
      let alpha := js_max alpha evaluation in
      if js_leb beta alpha then maxEval
      else maximizeOver child b aiPlayer beta rest maxEval alpha
  end.

(** The loop of the minimizing branch; [child newBoard beta]. *)
Fixpoint minimizeOver (child : board -> number -> number) (b : board)
    (opponent : mark) (alpha : number) (legalMoves : list nat)
    (minEval beta : number) : number :=
  match legalMoves with
  | [] => minEval
  | move :: rest =>
      let newBoard := makeMove b move opponent in
      let evaluation := child newBoard beta in
      let minEval := js_min minEval evaluation in
      let beta := js_min beta evaluation in
      if js_leb beta alpha then minEval
      else minimizeOver child b opponent alpha rest minEval beta
  end.

(** The score of a terminal node. *)
Definition terminalScore (ts : terminalState) (aiPlayer : mark) (depth : Z) : number :=
  if decide (winner ts = Some (WinnerIs aiPlayer)) then ofQc (Qc_of_Z (100 - depth))
  else if decide (winner ts = Some (WinnerIs (getOpponent aiPlayer)))
       then ofQc (Qc_of_Z (depth - 100))
       else ofQc (Qc_of_Z 0).

(** [alphaBetaSearch], by recursion on a bound for the number of plies left.
    Every ply fills a [null] slot, so the number of [null] slots bounds the
    recursion; the branch for an exhausted bound is what the loops return on
    an empty move list. *)
Fixpoint alphaBetaFuel (fuel : nat) (b : board) (depth : Z) (alpha beta : number)
    (isMaximizing : bool) (aiPlayer : mark) (evaluateFunction : evaluator)
    (maxDepth : Z) : number :=
  let ts := isTerminal b in
  if terminal ts then terminalScore ts aiPlayer depth
  else if bool_decide (maxDepth ≤ depth) then evaluateFunction b aiPlayer
  else
    match fuel with
    | 0%nat => if isMaximizing then Some NegInfinity else Some Infinity
    | S fuel' =>
        let legalMoves := getLegalMoves b in
        if isMaximizing then
          maximizeOver
            (fun newBoard alpha' =>
               alphaBetaFuel fuel' newBoard (depth + 1) alpha' beta false
                 aiPlayer evaluateFunction maxDepth)
            b aiPlayer beta legalMoves (Some NegInfinity) alpha
        else
          minimizeOver
            (fun newBoard beta' =>
               alphaBetaFuel fuel' newBoard (depth + 1) alpha beta' true
                 aiPlayer evaluateFunction maxDepth)
            b (getOpponent aiPlayer) alpha legalMoves (Some Infinity) beta
    end.

Definition countNull (b : board) : nat :=
  length (filter (fun c => c = Null) b).

Definition alphaBetaSearch (b : board) (depth : Z) (alpha beta : number)
    (isMaximizing : bool) (aiPlayer : mark) (evaluateFunction : evaluator)
    (maxDepth : Z) : number :=
  alphaBetaFuel (countNull b) b depth alpha beta isMaximizing aiPlayer
    evaluateFunction maxDepth.

Record searchResult : Type := mkSearchResult {
  bestMove : option nat;
  bestValue : number;
  moveEvaluations : list (nat * number)
}.

(** One iteration of the root loop of [findBestMove]. *)
Definition rootStep (value : nat -> number) (st : searchResult) (move : nat)
  : searchResult :=
  let moveValue := value move in
  let evals := moveEvaluations st ++ [(move, moveValue)] in
  if js_gtb moveValue (bestValue st)
  then mkSearchResult (Some move) moveValue evals
  else mkSearchResult (bestMove st) (bestValue st) evals.

Definition rootValue (b : board) (aiPlayer : mark) (evaluateFunction : evaluator)
    (maxDepth : Z) (move : nat) : number :=
  alphaBetaSearch (makeMove b move aiPlayer) 0 (Some NegInfinity) (Some Infinity)
    false aiPlayer evaluateFunction maxDepth.

Definition findBestMove (b : board) (aiPlayer : mark)
    (evaluateFunction : evaluator) (maxDepth : Z) : searchResult :=
  fold_left (rootStep (rootValue b aiPlayer evaluateFunction maxDepth))
    (getLegalMoves b) (mkSearchResult None (Some NegInfinity) []).

(** [getAllMoveEvaluations]: the loop pushes one entry for each legal move;
    the result is sorted with [(a, b) => b.value - a.value]. *)
Definition getAllMoveEvaluations (b : board) (aiPlayer : mark)
    (evaluateFunction : evaluator) (maxDepth : Z) : list (nat * number) :=
  let legalMoves := getLegalMoves b in
  let evaluations :=
    fold_left
      (fun evaluations move =>
         let newBoard := makeMove b move aiPlayer in
         let value :=
           alphaBetaSearch newBoard 0 (Some NegInfinity) (Some Infinity) false
             aiPlayer evaluateFunction maxDepth in
         evaluations ++ [(move, value)])
      legalMoves [] in
  arraySort (fun a b => js_sub b.2 a.2) evaluations.

End AlphaBeta.

Import AlphaBeta.

(** ** featureExtractor.js: the dataset-format features *)

Module FeatureExtractor.

(** The constants [lines] and [corners] of [extractDatasetFeatures]. *)
Definition lines : list (nat * nat * nat) :=
  [ (0, 1, 2); (3, 4, 5); (6, 7, 8);
    (0, 3, 6); (1, 4, 7); (2, 5, 8);
    (0, 4, 8); (2, 4, 6) ]%nat.

Definition corners : list nat := [0; 2; 6; 8]%nat.

(** The counters of the loop over the lines in [extractDatasetFeatures]. *)
Definition almostWinCounters (b : board) (st : Z * Z) (l : nat * nat * nat) : Z * Z :=
  let '(xAlmostWin, oAlmostWin) := st in
  let '(i, j, k) := l in
  let lineValues := [cellAt b i; cellAt b j; cellAt b k] in
  let xInLine := countOf (Mark X) lineValues in
  let oInLine := countOf (Mark O) lineValues in
  let emptyInLine := countOf Null lineValues in
  let xAlmostWin :=
    if bool_decide (xInLine = 2 /\ emptyInLine = 1)%Z then (xAlmostWin + 1)%Z else xAlmostWin in
  let oAlmostWin :=
    if bool_decide (oInLine = 2 /\ emptyInLine = 1)%Z then (oAlmostWin + 1)%Z else oAlmostWin in
  (xAlmostWin, oAlmostWin).

(** [[xCount, oCount, xAlmostWin, oAlmostWin, xCenter, xCorners]]; the
    argument [player] is not used for the result. *)
Definition extractDatasetFeatures (b : board) (player : mark) : list Z :=
  let xCount := countOf (Mark X) b in
  let oCount := countOf (Mark O) b in
  let '(xAlmostWin, oAlmostWin) := fold_left (almostWinCounters b) lines (0, 0)%Z in
  let xCenter := if decide (cellAt b 4 = Mark X) then 1%Z else 0%Z in
  let xCorners := Z.of_nat (length (filter (fun i => cellAt b i = Mark X) corners)) in
  [xCount; oCount; xAlmostWin; oAlmostWin; xCenter; xCorners].

(** [features[i]] on a feature vector (all uses are on vectors of six
    components). *)
Definition feature (fs : list Z) (i : nat) : Z := default 0%Z (fs !! i).

Definition adjustFeaturesForPlayer (fs : list Z) (player : mark) : list Z :=
  match player with
  | O =>
      [ feature fs 1;
        feature fs 0;
        feature fs 3;
        feature fs 2;
        (if decide (feature fs 4 = 1)%Z then 0%Z
         else if bool_decide (feature fs 4 = 0 /\ 1 ≤ feature fs 0 + feature fs 1)%Z
              then 1%Z else 0%Z);
        feature fs 5 ]
  | X => fs
  end.

End FeatureExtractor.

Import FeatureExtractor.

(** ** Shared by the two files mlEval.js *)

(** The terminal branch of an evaluator: [win] for the player, [-win] for
    the opponent, 0 for a draw. *)
Definition terminalValue (ts : terminalState) (player : mark) (win : Z) : Qc :=
  if decide (winner ts = Some (WinnerIs player)) then Qc_of_Z win
  else if decide (winner ts = Some (WinnerIs (getOpponent player)))
       then Qc_of_Z (- win)
       else Qc_of_Z 0.

(** [Math.max(-90, Math.min(90, score))] *)
Definition clampScore (score : Qc) : Qc :=
  Qc_max (Qc_of_Z (-90)) (Qc_min (Qc_of_Z 90) score).

(** ** mlEval.js, over the dataset-format features *)

Module MlEval.

(** The active weights [MODEL_WEIGHTS], read at every call: passed in.
    [updateMLWeights] stores the weights of a trained model as they are, so
    they can be any numbers; a [null] that [JSON.parse] gives back counts as
    the 0 it is converted to in the arithmetic. *)
Record modelWeights : Type := mkModelWeights {
  bias : number;
  weights : list number
}.

(** The default value of [MODEL_WEIGHTS]. *)
Definition defaultWeights : modelWeights :=
  {| bias := ofQc (Q2Qc (1 # 2));
     weights := map ofQc
                  [ Q2Qc (5 # 2); Q2Qc (- 5 # 2); Qc_of_Z 18; Qc_of_Z (-22);
                    Qc_of_Z 6; Q2Qc (7 # 2) ] |}.

(** The array [flipped] that [mlEvaluate] builds when it scores for O. *)
Definition flipped (fs : list Z) : list Z :=
  [ feature fs 1; feature fs 0; feature fs 3; feature fs 2; feature fs 4; feature fs 5 ].

(** [for (i = 0; i < fs.length && i < ws.length; i++) score += fs[i] * ws[i]] *)
Definition weightedSum (score : number) (fs : list Z) (ws : list number) : number :=
  fold_left (fun score fw => js_add score (js_mul (ofZ fw.1) fw.2)) (zip fs ws) score.

(** [Math.max(-90, Math.min(90, score))] on any number: NaN for a NaN. *)
Definition clampNumber (score : number) : number :=
  js_max (ofZ (-90)) (js_min (ofZ 90) score).

Definition mlEvaluate (MODEL_WEIGHTS : modelWeights) (b : board) (player : mark)
  : number :=
  let ts := isTerminal b in
  if terminal ts then ofQc (terminalValue ts player 100)
  else
    let fs := extractDatasetFeatures b player in
    let score := bias MODEL_WEIGHTS in
    let score :=
      match player with
      | X => weightedSum score fs (weights MODEL_WEIGHTS)
      | O => weightedSum score (flipped fs) (weights MODEL_WEIGHTS)
      end in
    clampNumber score.

(** [addNoise]; [random] is the value of the call of [Math.random]. *)
Definition addNoise (random : Qc) (score noiseLevel : Qc) : Qc :=
  if decide (noiseLevel = 0)%Qc then score
  else
    let noise :=
      ((random - Q2Qc (1 # 2)) * Qc_of_Z 2 * noiseLevel * Qc_of_Z 20)%Qc in
    (score + noise)%Qc.

(** The result of [getMLConfig]: [{ depth, evaluator, noiseLevel }]. *)
Record mlConfig : Type := mkMlConfig {
  configDepth : Z;
  configEvaluator : board -> mark -> number;
  configNoiseLevel : Qc
}.

(** [getMLConfig]; the evaluator reads the active weights when it is
    called. *)
Definition getMLConfig (MODEL_WEIGHTS : modelWeights) (difficulty : string) : mlConfig :=
  if decide (difficulty = "easy") then
    {| configDepth := 1;
       configEvaluator := mlEvaluate MODEL_WEIGHTS;
       configNoiseLevel := Q2Qc (3 # 10) |}
  else if decide (difficulty = "normal") then
    {| configDepth := 3;
       configEvaluator := mlEvaluate MODEL_WEIGHTS;
       configNoiseLevel := 0%Qc |}
  else if decide (difficulty = "hard") then
    {| configDepth := 9;
       configEvaluator := mlEvaluate MODEL_WEIGHTS;
       configNoiseLevel := 0%Qc |}
  else
    {| configDepth := 3;
       configEvaluator := mlEvaluate MODEL_WEIGHTS;
       configNoiseLevel := 0%Qc |}.

End MlEval.

Import MlEval.

(** ** mlEval.js, over the symmetric features and a fixed weight table *)

Module MlEvalTrained.

Record weightTable : Type := mkWeightTable {
  playerMarks : Qc;
  opponentMarks : Qc;
  playerTwoInRow : Qc;
  opponentTwoInRow : Qc;
  playerOneInRow : Qc;
  opponentOneInRow : Qc;
  centerControl : Qc;
  playerCorners : Qc;
  opponentCorners : Qc;
  bias : Qc
}.

Definition TRAINED_WEIGHTS : weightTable :=
  {| playerMarks := Q2Qc (5 # 2);
     opponentMarks := Q2Qc (- 5 # 2);
     playerTwoInRow := Qc_of_Z 18;
     opponentTwoInRow := Qc_of_Z (-22);
     playerOneInRow := Q2Qc (9 # 2);
     opponentOneInRow := Q2Qc (- 9 # 2);
     centerControl := Qc_of_Z 6;
     playerCorners := Q2Qc (7 # 2);
     opponentCorners := Q2Qc (- 7 # 2);
     bias := Q2Qc (1 # 2) |}.

Definition mlEvaluate (b : board) (player : mark) : Qc :=
  let ts := isTerminal b in
  if terminal ts then terminalValue ts player 100
  else
    let fs := extractFeatures b player in
    let score := bias TRAINED_WEIGHTS in
    let score := (score + Qc_of_Z (GameLogic.playerMarks fs) * playerMarks TRAINED_WEIGHTS)%Qc in
    let score := (score + Qc_of_Z (GameLogic.opponentMarks fs) * opponentMarks TRAINED_WEIGHTS)%Qc in
    let score := (score + Qc_of_Z (GameLogic.playerTwoInRow fs) * playerTwoInRow TRAINED_WEIGHTS)%Qc in
    let score := (score + Qc_of_Z (GameLogic.opponentTwoInRow fs) * opponentTwoInRow TRAINED_WEIGHTS)%Qc in
    let score := (score + Qc_of_Z (GameLogic.playerOneInRow fs) * playerOneInRow TRAINED_WEIGHTS)%Qc in
    let score := (score + Qc_of_Z (GameLogic.opponentOneInRow fs) * opponentOneInRow TRAINED_WEIGHTS)%Qc in
    let score := (score + Qc_of_Z (GameLogic.centerControl fs) * centerControl TRAINED_WEIGHTS)%Qc in
    let score := (score + Qc_of_Z (GameLogic.playerCorners fs) * playerCorners TRAINED_WEIGHTS)%Qc in
    let score := (score + Qc_of_Z (GameLogic.opponentCorners fs) * opponentCorners TRAINED_WEIGHTS)%Qc in
    clampScore score.

(** [mlEvaluateAdvanced]: the score is built from the integer features. *)
Definition mlEvaluateAdvanced (b : board) (player : mark) : Qc :=
  let ts := isTerminal b in
  if terminal ts then terminalValue ts player 100
  else
    let fs := extractFeatures b player in
    let threatDifference :=
      GameLogic.playerTwoInRow fs - GameLogic.opponentTwoInRow fs in
    let controlDifference :=
      GameLogic.playerOneInRow fs - GameLogic.opponentOneInRow fs in
    let positionAdvantage :=
      GameLogic.centerControl fs * 6
      + (GameLogic.playerCorners fs - GameLogic.opponentCorners fs) * 3 in
    let forkPotential :=
      if bool_decide (1 < GameLogic.playerTwoInRow fs) then 20 else 0 in
    let blockingNecessity :=
      if bool_decide (1 < GameLogic.opponentTwoInRow fs) then -25 else 0 in
    let score := 0 in
    let score := score + threatDifference * 20 in
    let score := score + controlDifference * 5 in
    let score := score + positionAdvantage in
    let score := score + forkPotential in
    let score := score + blockingNecessity in
    let score :=
      score + (GameLogic.playerMarks fs - GameLogic.opponentMarks fs) * 2 in
    clampScore (Qc_of_Z score).

(** The result of [getMLConfig]: [{ depth, evaluator, noiseLevel }]. *)
Record mlConfig : Type := mkMlConfig {
  configDepth : Z;
  configEvaluator : board -> mark -> Qc;
  configNoiseLevel : Qc
}.

Definition getMLConfig (difficulty : string) : mlConfig :=
  if decide (difficulty = "easy") then
    {| configDepth := 2;
       configEvaluator := mlEvaluate;
       configNoiseLevel := Q2Qc (3 # 10) |}
  else if decide (difficulty = "normal") then
    {| configDepth := 4;
       configEvaluator := mlEvaluateAdvanced;
       configNoiseLevel := Q2Qc (1 # 10) |}
  else if decide (difficulty = "hard") then
    {| configDepth := 9;
       configEvaluator := mlEvaluateAdvanced;
       configNoiseLevel := 0%Qc |}
  else
    {| configDepth := 4;
       configEvaluator := mlEvaluate;
       configNoiseLevel := Q2Qc (1 # 10) |}.

End MlEvalTrained.

(** ** modelTrainer.js *)

Module ModelTrainer.

(** In this module [XX] is the matrix [X] of the source ([X] is a mark here)
    and [ws] its array [weights]. *)

(** [prediction = weights[0]; for j < n: prediction += weights[j+1] * x[j]] *)
Definition predictWith (ws x : list number) (n : nat) : number :=
  fold_left
    (fun prediction j => js_add prediction (js_mul (numAt ws (j + 1)) (numAt x j)))
    (seq 0 n) (numAt ws 0).

(** The body of the loop over the samples of one epoch. *)
Definition sampleStep (XX : list (list number)) (y ws : list number) (n : nat)
    (st : number * list number) (i : nat) : number * list number :=
  let '(totalLoss, gradients) := st in
  let prediction := predictWith ws (rowAt XX i) n in
  let error := js_sub prediction (numAt y i) in
  let totalLoss := js_add totalLoss (js_mul error error) in
  let gradients := <[0%nat := js_add (numAt gradients 0) error]> gradients in
  let gradients :=
    fold_left
      (fun g j =>
         <[(j + 1)%nat := js_add (numAt g (j + 1)) (js_mul error (numAt (rowAt XX i) j))]> g)
      (seq 0 n) gradients in
  (totalLoss, gradients).

(** The loop that updates the weights in place. *)
Definition updateWeights (learningRate regularization m : number)
    (gradients ws : list number) : list number :=
  fold_left
    (fun ws j =>
       let gradient := js_div (numAt gradients j) m in
       let regTerm :=
         if bool_decide (0 < j)%nat then js_mul regularization (numAt ws j)
         else ofQc 0%Qc in
       <[j := js_sub (numAt ws j) (js_mul learningRate (js_add gradient regTerm))]> ws)
    (seq 0 (length ws)) ws.

(** One epoch: the new weights and the loss. *)
Definition epochStep (XX : list (list number)) (y : list number)
    (learningRate regularization : number) (ws : list number)
  : list number * number :=
  let m := length XX in
  let n := length (rowAt XX 0) in
  let '(totalLoss, gradients) :=
    fold_left (sampleStep XX y ws n) (seq 0 m)
      (ofQc 0%Qc, replicate (n + 1) (ofQc 0%Qc)) in
  let ws := updateWeights learningRate regularization (ofNat m) gradients ws in
  (ws, js_div totalLoss (ofNat m)).

(** [calculateAccuracy] *)
Definition calculateAccuracy (XX : list (list number)) (y ws : list number) : number :=
  let correct :=
    fold_left
      (fun correct i =>
         let prediction := predictWith ws (rowAt XX i) (length (rowAt XX i)) in
         let predicted := if js_geb prediction (ofQc 0%Qc)
                          then ofQc 1%Qc else ofQc (-1)%Qc in
         if js_eqb predicted (numAt y i) then S correct else correct)
      (seq 0 (length XX)) 0%nat in
  js_mul (js_div (ofNat correct) (ofNat (length XX))) (ofNat 100).

(** The argument [options]; a field that is absent takes its default. *)
Record trainOptions : Type := mkTrainOptions {
  learningRate : option number;
  epochs : option nat;
  regularization : option number
}.

Record trainHistory : Type := mkTrainHistory {
  losses : list number;
  accuracies : list (nat * number)
}.

Record trainedModel : Type := mkTrainedModel {
  weights : list number;
  bias : number;
  featureWeights : list number;
  history : trainHistory
}.

(** The loop over the epochs, from the epoch [epoch] for [remaining] more. *)
Fixpoint trainLoop (XX : list (list number)) (y : list number)
    (learningRate regularization : number) (remaining epoch : nat)
    (ws : list number) (h : trainHistory) : list number * trainHistory :=
  match remaining with
  | 0%nat => (ws, h)
  | S remaining' =>
      let '(ws, loss) := epochStep XX y learningRate regularization ws in
      let h :=
        {| losses := losses h ++ [loss];
           accuracies :=
             if decide (epoch mod 50 = 0)%nat
             then accuracies h ++ [(epoch, calculateAccuracy XX y ws)]
             else accuracies h |} in
      trainLoop XX y learningRate regularization remaining' (S epoch) ws h
  end.

(** The initial weights: [Math.random() * 0.01] for each of the [n + 1]
    slots; [random j] is the value of the j-th call of [Math.random]. *)
Definition initialWeights (random : nat -> Qc) (n : nat) : list number :=
  map (fun j => ofQc (random j * Q2Qc (1 # 100))%Qc) (seq 0 (n + 1)).

(** [trainLinearModel]; [None] is the exception of [X[0].length] on an empty
    matrix. *)
Definition trainLinearModel (random : nat -> Qc) (XX : list (list number))
    (y : list number) (options : trainOptions) : option trainedModel :=
  let learningRate := default (ofQc (Q2Qc (1 # 100))) (learningRate options) in
  let epochs := default 1000%nat (epochs options) in
  let regularization := default (ofQc (Q2Qc (1 # 1000))) (regularization options) in
  match XX with
  | [] => None
  | first :: _ =>
      let n := length first in
      let ws := initialWeights random n in
      let '(ws, h) :=
        trainLoop XX y learningRate regularization epochs 0 ws
          (mkTrainHistory [] []) in
      Some {| weights := ws;
              bias := numAt ws 0;
              featureWeights := drop 1 ws;
              history := h |}
  end.

(** [predict] *)
Definition predict (features ws : list number) : number :=
  fold_left
    (fun score i => js_add score (js_mul (numAt ws (i + 1)) (numAt features i)))
    (seq 0 (length features)) (numAt ws 0).

(** The result of [crossValidate]. *)
Record crossValidation : Type := mkCrossValidation {
  foldAccuracies : list number;
  meanAccuracy : number;
  stdAccuracy : number
}.

(** The training and the test part of the [i]-th fold. *)
Definition foldTrain {A} (l : list A) (foldSize i : nat) : list A :=
  let testStart := Z.of_nat (i * foldSize) in
  let testEnd := Z.of_nat ((i + 1) * foldSize) in
  slice l 0 testStart ++ sliceFrom l testEnd.

Definition foldTest {A} (l : list A) (foldSize i : nat) : list A :=
  let testStart := Z.of_nat (i * foldSize) in
  let testEnd := Z.of_nat ((i + 1) * foldSize) in
  slice l testStart testEnd.

(** The body of the loop over the folds; [None] is the exception of
    [trainLinearModel] on an empty training set, which ends the call. *)
Definition foldStep (random : nat -> nat -> Qc) (XX : list (list number))
    (y : list number) (foldSize : nat) (options : trainOptions)
    (st : option (list number)) (i : nat) : option (list number) :=
  match st with
  | None => None
  | Some accuracies =>
      let trainX := foldTrain XX foldSize i in
      let trainY := foldTrain y foldSize i in
      let testX := foldTest XX foldSize i in
      let testY := foldTest y foldSize i in
      match trainLinearModel (random i) trainX trainY options with
      | None => None
      | Some model =>
          let accuracy := calculateAccuracy testX testY (weights model) in
          Some (accuracies ++ [accuracy])
      end
  end.

(** [crossValidate], for a number of folds that is a natural number.
    [random i] is the stream of the values of [Math.random] in the [i]-th
    training; [sqrt] stands for [Math.sqrt], which has no rational model.
    With no fold the loop is not entered and [foldSize] is not used. *)
Definition crossValidate (sqrt : number -> number) (random : nat -> nat -> Qc)
    (XX : list (list number)) (y : list number) (folds : nat)
    (options : trainOptions) : option crossValidation :=
  let foldSize := (length XX / folds)%nat in
  match fold_left (foldStep random XX y foldSize options) (seq 0 folds) (Some []) with
  | None => None
  | Some accuracies =>
      let meanAccuracy :=
        js_div (fold_left (fun a b => js_add a b) accuracies (ofQc 0%Qc))
               (ofNat folds) in
      let stdAccuracy :=
        sqrt
          (js_div
             (fold_left
                (fun sum acc =>
                   js_add sum (js_mul (js_sub acc meanAccuracy) (js_sub acc meanAccuracy)))
                accuracies (ofQc 0%Qc))
             (ofNat folds)) in
      Some {| foldAccuracies := accuracies;
              meanAccuracy := meanAccuracy;
              stdAccuracy := stdAccuracy |}
  end.

(** The entries of [analyzeFeatureImportance]. *)
Inductive impactSign : Type := positive | negative.

Record importance : Type := mkImportance {
  featureName : string;
  featureWeight : number;
  absWeight : number;
  impact : impactSign
}.

(** [featureNames[i] || `Feature ${i + 1}`]: the default name is taken for
    a missing name and for the empty string. *)
Definition nameOfFeature (featureNames : list string) (i : nat) : string :=
  match featureNames !! i with
  | Some name => if decide (name = "") then "Feature " +:+ pretty (i + 1)%nat else name
  | None => "Feature " +:+ pretty (i + 1)%nat
  end.

Definition analyzeFeatureImportance (ws : list number) (featureNames : list string)
  : list importance :=
  let featureWeights := sliceFrom ws 1 in
  let importances :=
    imap (fun i weight =>
            {| featureName := nameOfFeature featureNames i;
               featureWeight := weight;
               absWeight := js_abs weight;
               impact := if js_gtb weight (ofQc 0%Qc) then positive else negative |})
         featureWeights in
  arraySort (fun a b => js_sub (absWeight b) (absWeight a)) importances.

End ModelTrainer.

Import ModelTrainer.

(** ** datasetLoader.js: min-max normalisation *)

Module DatasetLoader.

(** The body of [sample.forEach((value, i) => ...)]. *)
Definition trackMinMax (st : list number * list number) (iv : nat * number)
  : list number * list number :=
  let '(mins, maxs) := st in
  let '(i, value) := iv in
  ( arraySet mins i (js_min (numAt mins i) value),
    arraySet maxs i (js_max (numAt maxs i) value) ).

(** [range === 0 ? 0 : (value - mins[i]) / range] *)
Definition normalizeValue (mins maxs : list number) (i : nat) (value : number)
  : number :=
  let range := js_sub (numAt maxs i) (numAt mins i) in
  if js_eqb range (ofQc 0%Qc) then ofQc 0%Qc
  else js_div (js_sub value (numAt mins i)) range.

(** [normalizeFeatures]; [None] is the exception of [features[0].length] on
    an empty matrix. *)
Definition normalizeFeatures (fss : list (list number))
  : option (list (list number) * list number * list number) :=
  match fss with
  | [] => None
  | first :: _ =>
      let featureCount := length first in
      let mins := replicate featureCount (Some Infinity) in
      let maxs := replicate featureCount (Some NegInfinity) in
      let '(mins, maxs) :=
        fold_left
          (fun st sample => fold_left trackMinMax (imap pair sample) st)
          fss (mins, maxs) in
      let normalized := map (fun sample => imap (normalizeValue mins maxs) sample) fss in
      Some (normalized, mins, maxs)
  end.

(** [[indices[i], indices[j]] = [indices[j], indices[i]]], for two indices
    inside the array. *)
Definition swapAt {A} (l : list A) (i j : nat) : list A :=
  match l !! i, l !! j with
  | Some a, Some b => <[j := a]> (<[i := b]> l)
  | _, _ => l
  end.

(** In [splitDataset] the integer part of a product is taken twice, with
    [Math.floor]: there the rounding of the product can change the result by
    one, so the product is not the exact one but [times x y], the product of
    two doubles as the code computes it. *)

(** The shuffle of [splitDataset]: [i] runs from [length - 1] down to 1;
    [random k] is the value of the [k]-th call of [Math.random]. *)
Definition shuffleIndices (times : Qc -> Qc -> Qc) (random : nat -> Qc)
    (totalSamples : nat) : list nat :=
  fold_left
    (fun indices i =>
       let j :=
         Z.to_nat (Qfloor (times (random (totalSamples - 1 - i)%nat)
                             (Qc_of_Z (Z.of_nat i + 1)))) in
       swapAt indices i j)
    (rev (seq 1 (totalSamples - 1)))
    (seq 0 totalSamples).

(** A train or test part: its features and its labels. *)
Record samples : Type := mkSamples {
  sampleFeatures : list (list number);
  sampleLabels : list number
}.

(** [splitDataset] on the features and the labels of the dataset, for a
    finite [testRatio]; the result is the pair of [train] and [test]. *)
Definition splitDataset (times : Qc -> Qc -> Qc) (random : nat -> Qc)
    (fss : list (list number)) (labels : list number) (testRatio : Qc)
  : samples * samples :=
  let totalSamples := length fss in
  let testSize := Qfloor (times (Qc_of_Z (Z.of_nat totalSamples)) testRatio) in
  let trainSize := Z.of_nat totalSamples - testSize in
  let indices := shuffleIndices times random totalSamples in
  let trainFeatures := map (fun i => rowAt fss i) (slice indices 0 trainSize) in
  let trainLabels := map (fun i => numAt labels i) (slice indices 0 trainSize) in
  let testFeatures := map (fun i => rowAt fss i) (sliceFrom indices trainSize) in
  let testLabels := map (fun i => numAt labels i) (sliceFrom indices trainSize) in
  ( {| sampleFeatures := trainFeatures; sampleLabels := trainLabels |},
    {| sampleFeatures := testFeatures; sampleLabels := testLabels |} ).

End DatasetLoader.

Import DatasetLoader.

(** ** gameHistory.js *)

Module GameHistory.

(** An entry of [moveHistory]: [{ player, move, board }]. *)
Record moveRecord : Type := mkMoveRecord {
  movePlayer : mark;
  movePosition : nat;
  moveBoard : list cell
}.

(** A stored sample: [{ features, label, timestamp, moves }]. *)
Record gameSample : Type := mkGameSample {
  features : list Z;
  label : Z;
  timestamp : Z;
  moves : nat
}.

(** The item of [localStorage] under [STORAGE_KEY], as [JSON.parse] reads
    it: [None] when the item is absent (or cannot be read). *)
Definition storage : Type := option (list gameSample).

Definition getGameHistory (stored : storage) : list gameSample :=
  match stored with
  | Some history => history
  | None => []
  end.

(** [saveGameToHistory]: the new content of the storage; [now] is the value
    of [Date.now()]. *)
Definition saveGameToHistory (stored : storage) (now : Z)
    (moveHistory : list moveRecord) (winner : winnerTag) : storage :=
  match winner, last moveHistory with
  | WinnerDraw, _ => stored
  | _, None => stored
  | WinnerIs w, Some finalMove =>
      let history := getGameHistory stored in
      let finalBoard := moveBoard finalMove in
      let features := extractDatasetFeatures finalBoard X in
      let label := if decide (w = X) then 1 else -1 in
      let gameSample :=
        {| features := features;
           label := label;
           timestamp := now;
           moves := length moveHistory |} in
      let history := history ++ [gameSample] in
      let history :=
        if bool_decide (500 < length history)%nat then drop 1 history else history in
      Some history
  end.

Definition clearGameHistory (stored : storage) : storage := None.

End GameHistory.

(** ** mlEval.js: the active weights and their saved copy *)

Module MlEvalStore.

(** A value held by [MODEL_WEIGHTS]: a number, or [null], which is what
    [JSON] gives back for a NaN or an infinity. *)
Inductive jsNumber : Type := JNumber (x : number) | JNull.

Record weightsObject : Type := mkWeightsObject {
  bias : jsNumber;
  weights : list jsNumber
}.

(** The variable [MODEL_WEIGHTS] and the item [ml_model] of [localStorage],
    the latter as [JSON.parse] reads it ([None]: no item). *)
Record store : Type := mkStore {
  MODEL_WEIGHTS : weightsObject;
  ml_model : option weightsObject
}.

(** [JSON.parse(JSON.stringify(v))] on a number or [null]. *)
Definition jsonNumber (v : jsNumber) : jsNumber :=
  match v with
  | JNumber (Some (Num q)) => JNumber (Some (Num q))
  | _ => JNull
  end.

Definition jsonWeights (w : weightsObject) : weightsObject :=
  {| bias := jsonNumber (bias w); weights := map jsonNumber (weights w) |}.

(** [x || 0] on a number: 0 for a NaN and for 0. *)
Definition orZero (x : number) : number :=
  match x with
  | None => ofQc 0%Qc
  | Some (Num q) => if decide (q = 0)%Qc then ofQc 0%Qc else x
  | Some _ => x
  end.

(** [updateMLWeights]; [None] is a [model] that is [null] or [undefined]. *)
Definition updateMLWeights (st : store) (model : option trainedModel) : store :=
  match model with
  | Some model =>
      if bool_decide (6 <= length (featureWeights model))%nat then
        let w :=
          {| bias := JNumber (orZero (ModelTrainer.bias model));
             weights := map JNumber (featureWeights model) |} in
        {| MODEL_WEIGHTS := w; ml_model := Some (jsonWeights w) |}
      else st
  | None => st
  end.

(** [loadSavedWeights]: the new state and the value returned. *)
Definition loadSavedWeights (st : store) : store * bool :=
  match ml_model st with
  | Some saved => ({| MODEL_WEIGHTS := saved; ml_model := ml_model st |}, true)
  | None => (st, false)
  end.

Definition getCurrentWeights (st : store) : weightsObject := MODEL_WEIGHTS st.

(** The initial value of [MODEL_WEIGHTS]. *)
Definition initialWeightsObject : weightsObject :=
  {| bias := JNumber (ofQc (Q2Qc (1 # 2)));
     weights := map (fun q => JNumber (ofQc q))
                  [ Q2Qc (5 # 2); Q2Qc (- 5 # 2); Qc_of_Z 18; Qc_of_Z (-22);
                    Qc_of_Z 6; Q2Qc (7 # 2) ] |}.

End MlEvalStore.

(** ** classicalEval.js, the evaluator by human strategy *)

Module ClassicalEvalHuman.

Definition lines : list (nat * nat * nat) :=
  [ (0, 1, 2); (3, 4, 5); (6, 7, 8);
    (0, 3, 6); (1, 4, 7); (2, 5, 8);
    (0, 4, 8); (2, 4, 6) ]%nat.

Definition corners : list nat := [0; 2; 6; 8]%nat.

Definition edges : list nat := [1; 3; 5; 7]%nat.

(** The loop over the lines for wins and threats: the score and the
    counters [canWinNow] and [mustBlockNow]. *)
Definition threatStep (b : board) (player opponent : mark)
    (st : Z * Z * Z) (l : nat * nat * nat) : Z * Z * Z :=
  let '(score, canWinNow, mustBlockNow) := st in
  let '(i, j, k) := l in
  let lineValues := [cellAt b i; cellAt b j; cellAt b k] in
  let playerCount := countOf (Mark player) lineValues in
  let opponentCount := countOf (Mark opponent) lineValues in
  let emptyCount := countOf Null lineValues in
  let '(score, canWinNow) :=
    if bool_decide (playerCount = 2 /\ emptyCount = 1)
    then (score + 500, canWinNow + 1) else (score, canWinNow) in
  let '(score, mustBlockNow) :=
    if bool_decide (opponentCount = 2 /\ emptyCount = 1)
    then (score - 600, mustBlockNow + 1) else (score, mustBlockNow) in
  let score :=
    if bool_decide (playerCount = 1 /\ emptyCount = 2) then score + 10 else score in
  let score :=
    if bool_decide (opponentCount = 1 /\ emptyCount = 2) then score - 12 else score in
  (score, canWinNow, mustBlockNow).

(** The loop over the corners: the score and the two corner counters. *)
Definition cornerStep (b : board) (player opponent : mark)
    (st : Z * Z * Z) (corner : nat) : Z * Z * Z :=
  let '(score, playerCorners, opponentCorners) := st in
  if decide (cellAt b corner = Mark player)
  then (score + 20, playerCorners + 1, opponentCorners)
  else if decide (cellAt b corner = Mark opponent)
       then (score - 20, playerCorners, opponentCorners + 1)
       else (score, playerCorners, opponentCorners).

Definition edgeStep (b : board) (player opponent : mark) (score : Z) (edge : nat) : Z :=
  if decide (cellAt b edge = Mark player) then score + 5
  else if decide (cellAt b edge = Mark opponent) then score - 5
  else score.

(** The loop over the lines for the mobility: the lines still open for the
    player and for the opponent. *)
Definition mobilityStep (b : board) (player opponent : mark)
    (st : Z * Z) (l : nat * nat * nat) : Z * Z :=
  let '(playerWinningLines, opponentWinningLines) := st in
  let '(i, j, k) := l in
  let lineValues := [cellAt b i; cellAt b j; cellAt b k] in
  let hasPlayer := bool_decide (Exists (fun v => v = Mark player) lineValues) in
  let hasOpponent := bool_decide (Exists (fun v => v = Mark opponent) lineValues) in
  let playerWinningLines :=
    if hasPlayer && negb hasOpponent then playerWinningLines + 1
    else playerWinningLines in
  let opponentWinningLines :=
    if hasOpponent && negb hasPlayer then opponentWinningLines + 1
    else opponentWinningLines in
  (playerWinningLines, opponentWinningLines).

Definition classicalEvaluate (b : board) (player : mark) : Qc :=
  let ts := isTerminal b in
  if terminal ts then terminalValue ts player 1000
  else
    let score := 0 in
    let opponent := getOpponent player in
    let '(score, canWinNow, mustBlockNow) :=
      fold_left (threatStep b player opponent) lines (score, 0, 0) in
    let score := if bool_decide (2 ≤ canWinNow) then score + 300 else score in
    let score := if bool_decide (2 ≤ mustBlockNow) then score - 400 else score in
    let score :=
      if decide (cellAt b 4 = Mark player) then score + 40
      else if decide (cellAt b 4 = Mark opponent) then score - 40
      else if decide (cellAt b 4 = Null) then score + 5
      else score in
    let '(score, playerCorners, opponentCorners) :=
      fold_left (cornerStep b player opponent) corners (score, 0, 0) in
    let score :=
      if bool_decide ((cellAt b 0 = Mark player /\ cellAt b 8 = Mark player)
                      \/ (cellAt b 2 = Mark player /\ cellAt b 6 = Mark player))
      then score + 50 else score in
    let score :=
      if bool_decide ((cellAt b 0 = Mark opponent /\ cellAt b 8 = Mark opponent)
                      \/ (cellAt b 2 = Mark opponent /\ cellAt b 6 = Mark opponent))
      then score - 60 else score in
    let score := fold_left (edgeStep b player opponent) edges score in
    let score :=
      if decide (cellAt b 4 = Mark player) then
        fold_left
          (fun score corner =>
             if decide (cellAt b corner = Mark player) then score + 15 else score)
          corners score
      else score in
    let '(playerWinningLines, opponentWinningLines) :=
      fold_left (mobilityStep b player opponent) lines (0, 0) in
    let score := score + playerWinningLines * 3 in
    let score := score - opponentWinningLines * 3 in
    Qc_of_Z score.

(** [getClassicalDepth] *)
Definition getClassicalDepth (difficulty : string) : Z :=
  if decide (difficulty = "easy") then 1
  else if decide (difficulty = "normal") then 3
  else if decide (difficulty = "hard") then 9
  else 3.

End ClassicalEvalHuman.

(** ** classicalEval.js, the evaluator by positions *)

Module ClassicalEval.

Definition lines : list (nat * nat * nat) :=
  [ (0, 1, 2); (3, 4, 5); (6, 7, 8);
    (0, 3, 6); (1, 4, 7); (2, 5, 8);
    (0, 4, 8); (2, 4, 6) ]%nat.

Definition corners : list nat := [0; 2; 6; 8]%nat.

Definition edges : list nat := [1; 3; 5; 7]%nat.

(** [if (board[i] === player) score += w; else if (board[i] === opponent)
    score -= w] *)
Definition positionStep (b : board) (player opponent : mark) (w : Z)
    (score : Z) (i : nat) : Z :=
  if decide (cellAt b i = Mark player) then score + w
  else if decide (cellAt b i = Mark opponent) then score - w
  else score.

Definition lineStep (b : board) (player opponent : mark)
    (score : Z) (l : nat * nat * nat) : Z :=
  let '(i, j, k) := l in
  let lineValues := [cellAt b i; cellAt b j; cellAt b k] in
  let playerCount := countOf (Mark player) lineValues in
  let opponentCount := countOf (Mark opponent) lineValues in
  let emptyCount := countOf Null lineValues in
  let score :=
    if bool_decide (playerCount = 2 /\ emptyCount = 1) then score + 15 else score in
  let score :=
    if bool_decide (opponentCount = 2 /\ emptyCount = 1) then score - 20 else score in
  let score :=
    if bool_decide (playerCount = 1 /\ emptyCount = 2) then score + 3 else score in
  let score :=
    if bool_decide (opponentCount = 1 /\ emptyCount = 2) then score - 3 else score in
  let score := if bool_decide (playerCount = 3) then score + 100 else score in
  let score := if bool_decide (opponentCount = 3) then score - 100 else score in
  score.

Definition threatCountStep (b : board) (player opponent : mark)
    (st : Z * Z) (l : nat * nat * nat) : Z * Z :=
  let '(playerThreats, opponentThreats) := st in
  let '(i, j, k) := l in
  let lineValues := [cellAt b i; cellAt b j; cellAt b k] in
  let playerCount := countOf (Mark player) lineValues in
  let opponentCount := countOf (Mark opponent) lineValues in
  let emptyCount := countOf Null lineValues in
  let playerThreats :=
    if bool_decide (playerCount = 2 /\ emptyCount = 1) then playerThreats + 1
    else playerThreats in
  let opponentThreats :=
    if bool_decide (opponentCount = 2 /\ emptyCount = 1) then opponentThreats + 1
    else opponentThreats in
  (playerThreats, opponentThreats).

Definition evaluateForks (b : board) (player : mark) : Z :=
  let opponent := getOpponent player in
  let '(playerThreats, opponentThreats) :=
    fold_left (threatCountStep b player opponent) lines (0, 0) in
  let forkScore := 0 in
  let forkScore := if bool_decide (2 ≤ playerThreats) then forkScore + 25 else forkScore in
  let forkScore := if bool_decide (2 ≤ opponentThreats) then forkScore - 30 else forkScore in
  forkScore.

Definition classicalEvaluate (b : board) (player : mark) : Qc :=
  let ts := isTerminal b in
  if terminal ts then terminalValue ts player 100
  else
    let score := 0 in
    let opponent := getOpponent player in
    let score := positionStep b player opponent 8 score 4%nat in
    let score := fold_left (positionStep b player opponent 4) corners score in
    let score := fold_left (positionStep b player opponent 2) edges score in
    let score := fold_left (lineStep b player opponent) lines score in
    let forkScore := evaluateForks b player in
    let score := score + forkScore in
    Qc_of_Z score.

(** [getClassicalDepth] *)
Definition getClassicalDepth (difficulty : string) : Z :=
  if decide (difficulty = "easy") then 2
  else if decide (difficulty = "normal") then 4
  else if decide (difficulty = "hard") then 9
  else 4.

End ClassicalEval.

(** ** TicTacToe.jsx: the moves of the game component *)

Module TicTacToe.

Record gameConfig : Type := mkGameConfig {
  humanPlayer : mark;
  aiPlayer : mark;
  difficulty : string;
  evaluationType : string
}.

(** The state [gameStatus]. *)
Inductive status : Type := playing | won | draw.

Global Instance status_eq_dec : EqDecision status.
Proof. solve_decision. Defined.

(** The state variables that the handlers of the moves read. *)
Record gameState : Type := mkGameState {
  stateBoard : list cell;
  currentPlayer : mark;
  gameStatus : status;
  thinking : bool
}.

(** [getEvaluationFunction] and [getSearchDepth].  The component imports
    [classicalEvaluate] and [getClassicalDepth] from classicalEval.js, of
    which there are two versions: they are arguments here.  [MODEL_WEIGHTS]
    are the active weights of mlEval.js. *)
Definition getEvaluationFunction (classicalEvaluate : evaluator)
    (MODEL_WEIGHTS : modelWeights) (config : gameConfig) : evaluator :=
  if decide (evaluationType config = "classical") then classicalEvaluate
  else mlEvaluate MODEL_WEIGHTS.

Definition getSearchDepth (getClassicalDepth : string -> Z)
    (MODEL_WEIGHTS : modelWeights) (config : gameConfig) : Z :=
  if decide (evaluationType config = "classical")
  then getClassicalDepth (difficulty config)
  else configDepth (getMLConfig MODEL_WEIGHTS (difficulty config)).

(** The board that [makeAIMove] sets: [None] when [findBestMove] returns no
    move and the board is left as it is. *)
Definition makeAIMove (classicalEvaluate : evaluator) (getClassicalDepth : string -> Z)
    (MODEL_WEIGHTS : modelWeights) (currentBoard : board) (player : mark)
    (config : gameConfig) : option (list cell) :=
  let evaluationFunc := getEvaluationFunction classicalEvaluate MODEL_WEIGHTS config in
  let depth := getSearchDepth getClassicalDepth MODEL_WEIGHTS config in
  match bestMove (findBestMove currentBoard player evaluationFunc depth) with
  | Some bestMove => Some (makeMove currentBoard bestMove player)
  | None => None
  end.

(** The board that [handleCellClick] sets: [None] when the click is
    ignored. *)
Definition handleCellClick (st : gameState) (gameConfig : gameConfig) (index : nat)
  : option (list cell) :=
  if bool_decide (gameStatus st ≠ playing) || thinking st then None
  else if decide (cellAt (stateBoard st) index ≠ Null) then None
  else if decide (currentPlayer st ≠ humanPlayer gameConfig) then None
  else Some (makeMove (stateBoard st) index (currentPlayer st)).

End TicTacToe.
(** * Reference definitions and notions of the statements *)

(** An evaluator to run the search with. *)
Definition zeroEval : evaluator := fun _ _ => ofQc (Qc_of_Z 0).

(** ** Plain minimax, without pruning

    The reference the pruned search is compared with: the same terminal
    scoring and depth cut-off, every child visited. *)

Fixpoint minimaxFuel (fuel : nat) (b : board) (depth : Z) (isMaximizing : bool)
    (aiPlayer : mark) (evaluateFunction : evaluator) (maxDepth : Z) : number :=
  let ts := isTerminal b in
  if terminal ts then terminalScore ts aiPlayer depth
  else if bool_decide (maxDepth ≤ depth) then evaluateFunction b aiPlayer
  else
    match fuel with
    | 0%nat => if isMaximizing then Some NegInfinity else Some Infinity
    | S fuel' =>
        if isMaximizing then
          fold_left
            (fun best move =>
               js_max best
                 (minimaxFuel fuel' (makeMove b move aiPlayer) (depth + 1) false
                    aiPlayer evaluateFunction maxDepth))
            (getLegalMoves b) (Some NegInfinity)
        else
          fold_left
            (fun best move =>
               js_min best
                 (minimaxFuel fuel' (makeMove b move (getOpponent aiPlayer))
                    (depth + 1) true aiPlayer evaluateFunction maxDepth))
            (getLegalMoves b) (Some Infinity)
    end.

Definition minimaxSearch (b : board) (depth : Z) (isMaximizing : bool)
    (aiPlayer : mark) (evaluateFunction : evaluator) (maxDepth : Z) : number :=
  minimaxFuel (countNull b) b depth isMaximizing aiPlayer evaluateFunction maxDepth.

Definition minimaxRootValue (b : board) (aiPlayer : mark)
    (evaluateFunction : evaluator) (maxDepth : Z) (move : nat) : number :=
  minimaxSearch (makeMove b move aiPlayer) 0 false aiPlayer evaluateFunction maxDepth.

Definition findBestMoveMinimax (b : board) (aiPlayer : mark)
    (evaluateFunction : evaluator) (maxDepth : Z) : searchResult :=
  fold_left (rootStep (minimaxRootValue b aiPlayer evaluateFunction maxDepth))
    (getLegalMoves b) (mkSearchResult None (Some NegInfinity) []).

(** The moves of a result list whose value is the best value. *)
Definition bestMoves (r : searchResult) : list nat :=
  map fst (filter (fun mv => snd mv = bestValue r) (moveEvaluations r)).

(** ** The calls of the evaluator

    The same search, returning next to its value the list of the calls
    [evaluateFunction(board, aiPlayer)] it makes, each with the depth it is
    made at, in the order they are made. *)

Definition evalCall : Type := (list cell * Z)%type.

Fixpoint maximizeOverLog (child : board -> number -> number * list evalCall) (b : board)
    (aiPlayer : mark) (beta : number) (legalMoves : list nat) (maxEval alpha : number)
    (log : list evalCall) : number * list evalCall :=
  match legalMoves with
  | [] => (maxEval, log)
  | move :: rest =>
      let newBoard := makeMove b move aiPlayer in
      let '(evaluation, calls) := child newBoard alpha in
      let maxEval := js_max maxEval evaluation in
      let alpha := js_max alpha evaluation in
      if js_leb beta alpha then (maxEval, log ++ calls)
      else maximizeOverLog child b aiPlayer beta rest maxEval alpha (log ++ calls)
  end.

Fixpoint minimizeOverLog (child : board -> number -> number * list evalCall) (b : board)
    (opponent : mark) (alpha : number) (legalMoves : list nat) (minEval beta : number)
    (log : list evalCall) : number * list evalCall :=
  match legalMoves with
  | [] => (minEval, log)
  | move :: rest =>
      let newBoard := makeMove b move opponent in
      let '(evaluation, calls) := child newBoard beta in
      let minEval := js_min minEval evaluation in
      let beta := js_min beta evaluation in
      if js_leb beta alpha then (minEval, log ++ calls)
      else minimizeOverLog child b opponent alpha rest minEval beta (log ++ calls)
  end.

Fixpoint alphaBetaLogFuel (fuel : nat) (b : board) (depth : Z) (alpha beta : number)
    (isMaximizing : bool) (aiPlayer : mark) (evaluateFunction : evaluator)
    (maxDepth : Z) : number * list evalCall :=
  let ts := isTerminal b in
  if terminal ts then (terminalScore ts aiPlayer depth, [])
  else if bool_decide (maxDepth ≤ depth)
       then (evaluateFunction b aiPlayer, [(b, depth)])
  else
    match fuel with
    | 0%nat => (if isMaximizing then Some NegInfinity else Some Infinity, [])
    | S fuel' =>
        let legalMoves := getLegalMoves b in
        if isMaximizing then
          maximizeOverLog
            (fun newBoard alpha' =>
               alphaBetaLogFuel fuel' newBoard (depth + 1) alpha' beta false
                 aiPlayer evaluateFunction maxDepth)
            b aiPlayer beta legalMoves (Some NegInfinity) alpha []
        else
          minimizeOverLog
            (fun newBoard beta' =>
               alphaBetaLogFuel fuel' newBoard (depth + 1) alpha beta' true
                 aiPlayer evaluateFunction maxDepth)
            b (getOpponent aiPlayer) alpha legalMoves (Some Infinity) beta []
    end.

Definition alphaBetaCalls (b : board) (depth : Z) (alpha beta : number)
    (isMaximizing : bool) (aiPlayer : mark) (evaluateFunction : evaluator)
    (maxDepth : Z) : list evalCall :=
  snd (alphaBetaLogFuel (countNull b) b depth alpha beta isMaximizing aiPlayer
         evaluateFunction maxDepth).

(** ** Playing a game with [findBestMove] as the policy of one side

    A position is the side to move ([true]: the searching side) and the
    board.  The searching side plays the move [findBestMove] returns (as
    [makeAIMove] does); the other side plays any legal move. *)

Definition position : Type := (bool * list cell)%type.

Inductive playStep (ai : mark) (ev : evaluator) (maxDepth : Z)
  : position -> position -> Prop :=
| play_ai b m :
    terminal (isTerminal b) = false ->
    bestMove (findBestMove b ai ev maxDepth) = Some m ->
    playStep ai ev maxDepth (true, b) (false, makeMove b m ai)
| play_opponent b m :
    terminal (isTerminal b) = false ->
    m ∈ getLegalMoves b ->
    playStep ai ev maxDepth (false, b) (true, makeMove b m (getOpponent ai)).

(** The outcome of a board is not a win of the opponent of [ai]. *)
Definition notLost (ai : mark) (b : board) : bool :=
  negb (bool_decide (winner (isTerminal b) = Some (WinnerIs (getOpponent ai)))).

(** Exhaustive exploration of the games from a position: every reply of the
    opponent, the reply of the full-depth search for the searching side. *)
Fixpoint safePlay (fuel : nat) (ai : mark) (aiToMove : bool) (b : board) : bool :=
  if terminal (isTerminal b) then notLost ai b
  else
    match fuel with
    | 0%nat => false
    | S fuel' =>
        if aiToMove then
          match bestMove (findBestMove b ai zeroEval 9) with
          | Some m => safePlay fuel' ai false (makeMove b m ai)
          | None => false
          end
        else
          forallb (fun m => safePlay fuel' ai true (makeMove b m (getOpponent ai)))
            (getLegalMoves b)
    end.

(** ** The epoch as the specification words it

    A second definition, to be compared with [epochStep]: the error of each
    sample under the current weights, the accumulated gradients, and the
    update [weight -= lr * (gradient / m + l2Lambda * weight)],
    [bias -= lr * (gradient / m)]. *)

(** The sum of [f 0], ..., [f (m - 1)], accumulated from 0 in this order. *)
Definition sumOver (m : nat) (f : nat -> number) : number :=
  fold_left (fun acc i => js_add acc (f i)) (seq 0 m) (ofQc 0%Qc).

(** The linear prediction [bias + sum_j w_j * x_j]. *)
Definition linearPrediction (b : number) (w x : list number) : number :=
  fold_left (fun acc j => js_add acc (js_mul (numAt w j) (numAt x j)))
    (seq 0 (length w)) b.

Definition sampleError (XX : list (list number)) (y : list number)
    (b : number) (w : list number) (i : nat) : number :=
  js_sub (linearPrediction b w (rowAt XX i)) (numAt y i).

Definition gdEpoch_spec (XX : list (list number)) (y : list number)
    (lr l2Lambda : number) (b : number) (w : list number)
  : number * list number :=
  let m := length XX in
  let err := sampleError XX y b w in
  let gradientBias := sumOver m err in
  let gradientWeight j := sumOver m (fun i => js_mul (err i) (numAt (rowAt XX i) j)) in
  ( js_sub b (js_mul lr (js_div gradientBias (ofNat m))),
    imap (fun j wj =>
            js_sub wj (js_mul lr (js_add (js_div (gradientWeight j) (ofNat m))
                                         (js_mul l2Lambda wj))))
         w ).

(** The same on the weight array, bias first. *)
Definition gdEpoch_array (XX : list (list number)) (y : list number)
    (lr l2Lambda : number) (ws : list number) : list number :=
  match ws with
  | [] => []
  | b :: w => let '(b', w') := gdEpoch_spec XX y lr l2Lambda b w in b' :: w'
  end.

(** The reconstruction of a value from its normalised value:
    [normalized * (maxs[j] - mins[j]) + mins[j]]. *)
Definition denormalizeValue (mins maxs : list number) (j : nat) (normalized : number)
  : number :=
  js_add (js_mul normalized (js_sub (numAt maxs j) (numAt mins j))) (numAt mins j).

(** ** Notions of the statements *)

(** A number that is neither NaN nor an infinity. *)
Definition finiteNumber (x : number) : Prop := exists q, x = ofQc q.

(** An evaluation function that returns finite numbers, as an evaluator of
    the search. *)
Definition finiteEvaluator (f : board -> mark -> Qc) : evaluator :=
  fun b p => ofQc (f b p).

(** The evaluator returns no NaN where the search for [ai] calls it: on the
    boards that are not terminal. *)
Definition neverNaN (ev : evaluator) (ai : mark) : Prop :=
  forall b, terminal (isTerminal b) = false -> ev b ai ≠ NaN.

(** The evaluator returns a finite number where the search for [ai] calls
    it. *)
Definition alwaysFinite (ev : evaluator) (ai : mark) : Prop :=
  forall b, terminal (isTerminal b) = false -> finiteNumber (ev b ai).

(** What the root loop has after the moves [l].  Either no move: then no
    value so far is greater than [-Infinity] (each is NaN or [-Infinity]).
    Or the move at a position [i] of [l]: its value is greater than
    [-Infinity], no value of [l] is greater, and no value before the
    position [i] is as great. *)
Definition bestAfter (v : nat -> number) (l : list nat) (r : searchResult) : Prop :=
  (bestMove r = None /\ bestValue r = Some NegInfinity
   /\ forall j m', l !! j = Some m' -> js_gtb (v m') (Some NegInfinity) = false)
  \/ (exists i m,
        l !! i = Some m /\ bestMove r = Some m /\ bestValue r = v m
        /\ js_gtb (v m) (Some NegInfinity) = true
        /\ (forall j m', l !! j = Some m' -> js_gtb (v m') (v m) = false)
        /\ (forall j m', l !! j = Some m' -> (j < i)%nat -> js_geb (v m') (v m) = false)).

(** The interface [applyMove] as the specification words it (a second
    definition, to be compared with [makeMove]): a new board with the cell set,
    or the error [InvalidMove] when the cell is not empty. *)
Inductive moveResult : Type := MoveOk (b : list cell) | InvalidMove.

Definition applyMove_spec (b : board) (move : nat) (m : mark) : moveResult :=
  if decide (b !! move = Some Null) then MoveOk (<[move := Mark m]> b)
  else InvalidMove.

(** The running minima and maxima of the normaliser after the values
    [items], each with its column: a column without a value still holds the
    initial infinities; a column with values holds the least and the greatest
    of them. *)
Definition tracks (featureCount : nat) (st : list number * list number)
    (items : list (nat * number)) : Prop :=
  length st.1 = featureCount /\ length st.2 = featureCount
  /\ forall j, (j < featureCount)%nat ->
       (st.1 !! j = Some (Some Infinity) /\ st.2 !! j = Some (Some NegInfinity)
        /\ forall x, (j, x) ∉ items)
       \/ (exists lo hi,
             st.1 !! j = Some (ofQc lo) /\ st.2 !! j = Some (ofQc hi)
             /\ (j, ofQc lo) ∈ items /\ (j, ofQc hi) ∈ items
             /\ forall q, (j, ofQc q) ∈ items -> (lo ≤ q)%Qc /\ (q ≤ hi)%Qc).

(** The values of a matrix, each with its column, in the order in which
    [normalizeFeatures] visits them. *)
Definition matrixItems (fss : list (list number)) : list (nat * number) :=
  concat (map (imap pair) fss).

(** The values that do not collide: the clamp range of the evaluators, and
    the win and loss scores of the search on a board of nine cells. *)
Definition scoreBands (v : number) : Prop :=
  exists q, v = ofQc q
    /\ ((Qc_of_Z (-90) ≤ q ≤ Qc_of_Z 90)%Qc
        \/ (Qc_of_Z 92 ≤ q ≤ Qc_of_Z 100)%Qc
        \/ (Qc_of_Z (-100) ≤ q ≤ Qc_of_Z (-92))%Qc).

(** The three cells of the line [p] all hold the mark [m]. *)
Definition lineComplete (b : board) (m : mark) (p : nat * nat * nat) : Prop :=
  cellAt b p.1.1 = Mark m /\ cellAt b p.1.2 = Mark m /\ cellAt b p.2 = Mark m.

(** No line of the board is complete. *)
Definition noLineComplete (b : board) : Prop :=
  forall p m, p ∈ winPatterns -> ~ lineComplete b m p.

(** The symmetric features read from the other side: the counts of the two
    sides exchanged, the sign of the center term reversed. *)
Definition swapPerspective (f : features) : features :=
  {| playerMarks := opponentMarks f;
     opponentMarks := playerMarks f;
     playerTwoInRow := opponentTwoInRow f;
     opponentTwoInRow := playerTwoInRow f;
     playerOneInRow := opponentOneInRow f;
     opponentOneInRow := playerOneInRow f;
     centerControl := - centerControl f;
     playerCorners := opponentCorners f;
     opponentCorners := playerCorners f |}.

(** The calls of the evaluator that plain minimax makes: the same terminal
    test and depth cut-off as the pruned search, every child visited, the
    calls in the order they are made. *)
Fixpoint minimaxCallsFuel (fuel : nat) (b : board) (depth : Z) (isMaximizing : bool)
    (aiPlayer : mark) (maxDepth : Z) : list evalCall :=
  let ts := isTerminal b in
  if terminal ts then []
  else if bool_decide (maxDepth ≤ depth) then [(b, depth)]
  else
    match fuel with
    | 0%nat => []
    | S fuel' =>
        let mover := if isMaximizing then aiPlayer else getOpponent aiPlayer in
        concat
          (map (fun move =>
                  minimaxCallsFuel fuel' (makeMove b move mover) (depth + 1)
                    (negb isMaximizing) aiPlayer maxDepth)
               (getLegalMoves b))
    end.

Definition minimaxCalls (b : board) (depth : Z) (isMaximizing : bool)
    (aiPlayer : mark) (maxDepth : Z) : list evalCall :=
  minimaxCallsFuel (countNull b) b depth isMaximizing aiPlayer maxDepth.

(** The order of a list sorted by a key, larger keys first, that keeps the
    order [before] of the input among equal keys. *)
Definition keyRanked {A} (key : A -> num) (before : A -> A -> Prop) (x y : A) : Prop :=
  num_lt (key y) (key x) \/ (key x = key y /\ before x y).

(** The order of the sorted list of move values: the larger value first, and
    among equal values the lower move index first. *)
Definition valueRanked (a c : nat * number) : Prop :=
  js_gtb a.2 c.2 = true \/ (a.2 = c.2 /\ (a.1 < c.1)%nat).

(** The sample [i] is classified correctly by the weights: the class of the
    prediction (1 for a prediction that is [>= 0], -1 otherwise, which
    includes a NaN) is the label of the sample. *)
Definition classifiedCorrectly (XX : list (list number)) (y ws : list number)
    (i : nat) : bool :=
  js_eqb
    (if js_geb (predict (rowAt XX i) ws) (ofQc 0%Qc) then ofQc 1%Qc else ofQc (-1)%Qc)
    (numAt y i).

(** The slots of the running minima and maxima of the normaliser beyond the
    [fc] columns of the first row read as NaN. *)
Definition beyondNaN (fc : nat) (st : list number * list number) : Prop :=
  (fc <= length st.1)%nat /\ (fc <= length st.2)%nat
  /\ (forall j, (fc <= j)%nat -> numAt st.1 j = NaN /\ numAt st.2 j = NaN).

(** A value of the weights object as the arithmetic of [mlEvaluate] takes
    it: a [null] is converted to 0. *)
Definition toNumber (v : MlEvalStore.jsNumber) : number :=
  match v with
  | MlEvalStore.JNumber x => x
  | MlEvalStore.JNull => ofQc 0%Qc
  end.

(** The weights that [mlEvaluate] computes with when [MODEL_WEIGHTS] holds
    the object [w]. *)
Definition activeWeights (w : MlEvalStore.weightsObject) : modelWeights :=
  {| MlEval.bias := toNumber (MlEvalStore.bias w);
     MlEval.weights := map toNumber (MlEvalStore.weights w) |}.

(** A training on one sample whose label is NaN (a label that could not be
    read as a number), for one epoch: every weight of the model is NaN.
    [updateMLWeights] takes the model, since it has six feature weights. *)
Definition nanLabelModel : option trainedModel :=
  trainLinearModel (fun _ => 0%Qc) [replicate 6 (ofQc 1%Qc)] [NaN]
    (mkTrainOptions None (Some 1%nat) None).

Definition nanLabelWeights : modelWeights :=
  activeWeights
    (MlEvalStore.getCurrentWeights
       (MlEvalStore.updateMLWeights
          (MlEvalStore.mkStore MlEvalStore.initialWeightsObject None)
          nanLabelModel)).

(** A finite number of magnitude at most [bound]. *)
Definition magnitudeAtMost (bound : Qc) (x : number) : Prop :=
  exists q, x = ofQc q /\ (- bound ≤ q)%Qc /\ (q ≤ bound)%Qc.

(** The bias and every weight are finite, of magnitude at most [bound]. *)
Definition weightsWithin (bound : Qc) (W : modelWeights) : Prop :=
  magnitudeAtMost bound (MlEval.bias W)
  /\ Forall (magnitudeAtMost bound) (MlEval.weights W).

(** The feature vector that the loop of [mlEvaluate] multiplies with the
    weights: [features] for X, [flipped] for O. *)
Definition scoredFeatures (b : board) (player : mark) : list Z :=
  match player with
  | X => extractDatasetFeatures b player
  | O => flipped (extractDatasetFeatures b player)
  end.

(** The sum of the components of a feature vector. *)
Definition featureTotal (fs : list Z) : Z := foldr Z.add 0 fs.

(** Saving games one after the other, from a storage. *)
Definition saveGames (stored : GameHistory.storage)
    (games : list (Z * list GameHistory.moveRecord * winnerTag)) : GameHistory.storage :=
  fold_left
    (fun st game => GameHistory.saveGameToHistory st game.1.1 game.1.2 game.2)
    games stored.

(** A stored sample is well formed: its label is 1 or -1 and it has the six
    dataset-format features. *)
Definition sampleOk (s : GameHistory.gameSample) : Prop :=
  (GameHistory.label s = 1 \/ GameHistory.label s = -1)
  /\ length (GameHistory.features s) = 6%nat.

(** All the boards of [n] cells that hold [null] or a mark. *)
Fixpoint allBoards (n : nat) : list (list cell) :=
  match n with
  | 0%nat => [[]]
  | S n' =>
      concat (map (fun b => [Null :: b; Mark X :: b; Mark O :: b]) (allBoards n'))
  end.

(** A board of marks and [null] cells, without holes. *)
Definition plainBoard (b : board) : Prop := Forall (fun c => c ≠ Undefined) b.

(** The numbers of marks are those of a game: X has as many marks as O, or
    one more. *)
Definition legalCounts (b : board) : Prop :=
  countOf (Mark X) b = countOf (Mark O) b \/ countOf (Mark X) b = countOf (Mark O) b + 1.

(** The checks that are run on every board of nine cells. *)
Definition humanScaleCheck (b : board) : bool :=
  forallb
    (fun p =>
       if terminal (isTerminal b) then true
       else if bool_decide (1 ≤ playerTwoInRow (extractFeatures b p)
                            /\ opponentTwoInRow (extractFeatures b p) = 0)
            then bool_decide (Qc_of_Z 421 ≤ ClassicalEvalHuman.classicalEvaluate b p)%Qc
            else true)
    [X; O].

Definition positionRangeCheck (b : board) : bool :=
  forallb
    (fun p =>
       if terminal (isTerminal b) then true
       else
         bool_decide (Qc_of_Z (-186) ≤ ClassicalEval.classicalEvaluate b p
                      /\ ClassicalEval.classicalEvaluate b p ≤ Qc_of_Z 146)%Qc
         && (if bool_decide (legalCounts b)
             then bool_decide (Qc_of_Z (-105) ≤ ClassicalEval.classicalEvaluate b p
                               /\ ClassicalEval.classicalEvaluate b p ≤ Qc_of_Z 85)%Qc
             else true))
    [X; O].
(** * Properties *)

(** ** The order on [num] *)

Lemma num_leb_refl a : num_leb a a = true.
Proof. destruct a; simpl; try done. apply bool_decide_eq_true. reflexivity. Qed.

Lemma num_leb_total a b : num_leb a b = true \/ num_leb b a = true.
Proof.
  destruct a, b; simpl; auto.
  rewrite !bool_decide_eq_true. apply (total Qcle).
Qed.

Lemma num_leb_trans a b c :
  num_leb a b = true -> num_leb b c = true -> num_leb a c = true.
Proof.
  destruct a, b, c; simpl; try done.
  rewrite !bool_decide_eq_true. apply Qcle_trans.
Qed.

Lemma num_leb_antisym a b :
  num_leb a b = true -> num_leb b a = true -> a = b.
Proof.
  destruct a, b; simpl; try done.
  rewrite !bool_decide_eq_true. intros H1 H2. f_equal. by apply Qcle_antisym.
Qed.

Module NumOrdFacts.
Import NumOrd.

Lemma eq_equiv : Equivalence eq.
Proof. unfold eq. split; congruence. Qed.

Lemma lt_strorder : StrictOrder lt.
Proof.
  split.
  - intros a H. unfold lt, num_lt in H. by rewrite num_leb_refl in H.
  - intros a b c H1 H2. unfold lt, num_lt in *.
    destruct (num_leb c a) eqn:E; [|done].
    destruct (num_leb_total a b) as [H|H]; [|congruence].
    rewrite (num_leb_trans _ _ _ E H) in H2. done.
Qed.

Lemma lt_compat : Proper (eq ==> eq ==> iff) lt.
Proof. unfold eq. by intros ? ? -> ? ? ->. Qed.

Lemma le_lteq x y : le x y <-> lt x y \/ eq x y.
Proof.
  unfold le, lt, eq, num_le, num_lt. split.
  - intros H. destruct (num_leb y x) eqn:E; [|by left].
    right. by apply num_leb_antisym.
  - intros [H| ->]; [|apply num_leb_refl].
    destruct (num_leb_total x y); congruence.
Qed.

Lemma lt_total x y : lt x y \/ eq x y \/ lt y x.
Proof.
  unfold lt, eq, num_lt.
  destruct (num_leb y x) eqn:E1; [|by left].
  destruct (num_leb x y) eqn:E2; [|by right; right].
  right; left. by apply num_leb_antisym.
Qed.
End NumOrdFacts.

Module NumOrdTac := OrdersTac.MakeOrderTac NumOrd NumOrdFacts.

(** Case analysis on every comparison of the goal, then the order solver. *)
Ltac num_split :=
  repeat match goal with
  | |- context [num_leb ?a ?b] =>
      let E := fresh "E" in
      destruct (num_leb a b) eqn:E;
      [ change (NumOrd.le a b) in E | change (NumOrd.lt b a) in E ]
  | H : context [num_leb ?a ?b] |- _ =>
      let E := fresh "E" in
      destruct (num_leb a b) eqn:E;
      [ change (NumOrd.le a b) in E | change (NumOrd.lt b a) in E ]
  end.

Ltac num_order :=
  unfold clamp, num_gtb, Math_max, Math_min, num_le, num_lt in *;
  change (@Logic.eq num) with NumOrd.eq in *;
  num_split; simpl in *;
  try reflexivity; try discriminate;
  try NumOrdTac.order; try (exfalso; NumOrdTac.order).

Lemma clamp_full x : clamp NegInfinity Infinity x = x.
Proof. by destruct x. Qed.

Lemma clamp_degenerate alpha beta x y :
  num_le beta alpha -> clamp alpha beta x = clamp alpha beta y.
Proof. intros H. num_order. Qed.

(** ** Alpha-beta against plain minimax *)

Lemma fold_max_ge (g : nat -> num) moves M :
  num_le M (fold_left (fun best move => Math_max best (g move)) moves M).
Proof.
  revert M. induction moves as [|mv rest IH]; intros M; simpl.
  - apply num_leb_refl.
  - specialize (IH (Math_max M (g mv))). num_order.
Qed.

Lemma fold_min_le (g : nat -> num) moves M :
  num_le (fold_left (fun best move => Math_min best (g move)) moves M) M.
Proof.
  revert M. induction moves as [|mv rest IH]; intros M; simpl.
  - apply num_leb_refl.
  - specialize (IH (Math_min M (g mv))). num_order.
Qed.

Lemma clamp_above a beta y : num_le beta y -> clamp a beta y = Math_max a beta.
Proof. intros H. num_order. Qed.

Lemma clamp_below alpha bt y : num_le y alpha -> clamp alpha bt y = alpha.
Proof. intros H. num_order. Qed.

Lemma cutoff_max a beta e g :
  clamp a beta e = clamp a beta g -> num_le beta (Math_max a e) -> num_lt a beta ->
  num_le beta e /\ num_le beta g.
Proof. intros H1 H2 H3. split; num_order. Qed.

Lemma continue_max a beta e g :
  clamp a beta e = clamp a beta g -> num_lt (Math_max a e) beta ->
  Math_max a g = Math_max a e /\ num_lt e beta /\ num_lt g beta.
Proof. intros H1 H2. repeat split; num_order. Qed.

Lemma clamp_raise a beta x r :
  num_le x r -> num_lt x beta -> clamp (Math_max a x) beta r = clamp a beta r.
Proof. intros H1 H2. num_order. Qed.

Lemma cutoff_min alpha bt e g :
  clamp alpha bt e = clamp alpha bt g -> num_le (Math_min bt e) alpha ->
  num_lt alpha bt -> num_le e alpha /\ num_le g alpha.
Proof. intros H1 H2 H3. split; num_order. Qed.

Lemma continue_min alpha bt e g :
  clamp alpha bt e = clamp alpha bt g -> num_lt alpha (Math_min bt e) ->
  Math_min bt g = Math_min bt e /\ num_lt alpha e /\ num_lt alpha g.
Proof. intros H1 H2. repeat split; num_order. Qed.

Lemma clamp_lower alpha bt x r :
  num_le r x -> num_lt alpha x -> clamp alpha (Math_min bt x) r = clamp alpha bt r.
Proof. intros H1 H2. num_order. Qed.

Lemma Math_max_l a b : num_le a (Math_max a b).
Proof. num_order. Qed.

Lemma Math_max_r a b : num_le b (Math_max a b).
Proof. num_order. Qed.

Lemma Math_min_l a b : num_le (Math_min a b) a.
Proof. num_order. Qed.

Lemma Math_min_r a b : num_le (Math_min a b) b.
Proof. num_order. Qed.

Lemma Math_max_mono a b c d : num_le a c -> num_le b d -> num_le (Math_max a b) (Math_max c d).
Proof. intros H1 H2. num_order. Qed.

Lemma Math_min_mono a b c d : num_le a c -> num_le b d -> num_le (Math_min a b) (Math_min c d).
Proof. intros H1 H2. num_order. Qed.

Lemma num_le_trans a b c : num_le a b -> num_le b c -> num_le a c.
Proof. apply num_leb_trans. Qed.

(** *** Numbers that are not NaN *)

Lemma js_max_Some a b : js_max (Some a) (Some b) = Some (Math_max a b).
Proof. reflexivity. Qed.

Lemma js_min_Some a b : js_min (Some a) (Some b) = Some (Math_min a b).
Proof. reflexivity. Qed.

Lemma js_leb_Some a b : js_leb (Some a) (Some b) = num_leb a b.
Proof. reflexivity. Qed.

Lemma js_gtb_Some a b : js_gtb (Some a) (Some b) = num_gtb a b.
Proof. reflexivity. Qed.

Lemma js_geb_Some a b : js_geb (Some a) (Some b) = num_leb b a.
Proof. reflexivity. Qed.

(** The loops of plain minimax on values that are not NaN. *)
Lemma fold_js_max_Some (g : nat -> num) (gn : nat -> number) moves :
  (forall move, move ∈ moves -> gn move = Some (g move)) ->
  forall M,
  fold_left (fun best move => js_max best (gn move)) moves (Some M)
  = Some (fold_left (fun best move => Math_max best (g move)) moves M).
Proof.
  induction moves as [|mv rest IH]; intros H M; cbn [fold_left]; [done|].
  rewrite (H mv) by apply list_elem_of_here. rewrite js_max_Some.
  apply IH. intros move Hin. apply H. by apply list_elem_of_further.
Qed.

Lemma fold_js_min_Some (g : nat -> num) (gn : nat -> number) moves :
  (forall move, move ∈ moves -> gn move = Some (g move)) ->
  forall M,
  fold_left (fun best move => js_min best (gn move)) moves (Some M)
  = Some (fold_left (fun best move => Math_min best (g move)) moves M).
Proof.
  induction moves as [|mv rest IH]; intros H M; cbn [fold_left]; [done|].
  rewrite (H mv) by apply list_elem_of_here. rewrite js_min_Some.
  apply IH. intros move Hin. apply H. by apply list_elem_of_further.
Qed.

(** The maximizing loop on values that are not NaN: seen through its window
    it computes the maximum. *)
Lemma maximizeOver_clamp child (g : nat -> num) b ai beta moves :
  (forall move a, move ∈ moves ->
     exists e, child (makeMove b move ai) (Some a) = Some e
               /\ clamp a beta e = clamp a beta (g move)) ->
  forall m a M, num_le m a -> num_le M a ->
  exists r,
    maximizeOver child b ai (Some beta) moves (Some m) (Some a) = Some r
    /\ num_le m r
    /\ clamp a beta r
       = clamp a beta (fold_left (fun best move => Math_max best (g move)) moves M).
Proof.
  induction moves as [|mv rest IH]; intros Hchild m a M Hm HM;
    cbn [maximizeOver fold_left].
  - exists m. split; [done|]. split; [apply num_leb_refl|]. clear Hchild. num_order.
  - destruct (Hchild mv a) as (e & He & Hclamp); [apply list_elem_of_here|].
    rewrite He, !js_max_Some, js_leb_Some.
    pose proof (fold_max_ge g rest (Math_max M (g mv))) as HF.
    destruct (num_leb beta (Math_max a e)) eqn:Hcut.
    + exists (Math_max m e). split; [done|]. split; [apply Math_max_l|].
      destruct (num_leb beta a) eqn:Hdeg; [by apply clamp_degenerate|].
      destruct (cutoff_max _ _ _ _ Hclamp Hcut Hdeg) as [Hbe Hbg].
      rewrite !clamp_above; [done| |].
      * eapply num_le_trans; [exact Hbg|].
        eapply num_le_trans; [apply Math_max_r|exact HF].
      * eapply num_le_trans; [exact Hbe|apply Math_max_r].
    + destruct (continue_max _ _ _ _ Hclamp Hcut) as (Hag & Hbe & Hbg).
      destruct (IH (fun move a' Hin => Hchild move a' (list_elem_of_further _ _ _ Hin))
                  (Math_max m e) (Math_max a e) (Math_max M (g mv)))
        as (r & Hr & Hge & Hrc).
      { apply Math_max_mono; [done|apply num_leb_refl]. }
      { rewrite <- Hag. apply Math_max_mono; [done|apply num_leb_refl]. }
      exists r. split; [done|]. split.
      { eapply num_le_trans; [apply Math_max_l|exact Hge]. }
      rewrite <- (clamp_raise a beta e) by
        (done || (eapply num_le_trans; [apply Math_max_r|exact Hge])).
      rewrite Hrc. rewrite <- Hag. apply clamp_raise; [|done].
      eapply num_le_trans; [apply Math_max_r|exact HF].
Qed.

(** The minimizing loop on values that are not NaN: seen through its window
    it computes the minimum. *)
Lemma minimizeOver_clamp child (g : nat -> num) b opp alpha moves :
  (forall move bt, move ∈ moves ->
     exists e, child (makeMove b move opp) (Some bt) = Some e
               /\ clamp alpha bt e = clamp alpha bt (g move)) ->
  forall m bt M, num_le bt m -> num_le bt M ->
  exists r,
    minimizeOver child b opp (Some alpha) moves (Some m) (Some bt) = Some r
    /\ num_le r m
    /\ clamp alpha bt r
       = clamp alpha bt (fold_left (fun best move => Math_min best (g move)) moves M).
Proof.
  induction moves as [|mv rest IH]; intros Hchild m bt M Hm HM;
    cbn [minimizeOver fold_left].
  - exists m. split; [done|]. split; [apply num_leb_refl|]. clear Hchild. num_order.
  - destruct (Hchild mv bt) as (e & He & Hclamp); [apply list_elem_of_here|].
    rewrite He, !js_min_Some, js_leb_Some.
    pose proof (fold_min_le g rest (Math_min M (g mv))) as HF.
    destruct (num_leb (Math_min bt e) alpha) eqn:Hcut.
    + exists (Math_min m e). split; [done|]. split; [apply Math_min_l|].
      destruct (num_leb bt alpha) eqn:Hdeg; [by apply clamp_degenerate|].
      destruct (cutoff_min _ _ _ _ Hclamp Hcut Hdeg) as [Hea Hga].
      rewrite !clamp_below; [done| |].
      * eapply num_le_trans; [exact HF|].
        eapply num_le_trans; [apply Math_min_r|exact Hga].
      * eapply num_le_trans; [apply Math_min_r|exact Hea].
    + destruct (continue_min _ _ _ _ Hclamp Hcut) as (Hbg & Hae & Hag).
      destruct (IH (fun move bt' Hin => Hchild move bt' (list_elem_of_further _ _ _ Hin))
                  (Math_min m e) (Math_min bt e) (Math_min M (g mv)))
        as (r & Hr & Hle & Hrc).
      { apply Math_min_mono; [done|apply num_leb_refl]. }
      { rewrite <- Hbg. apply Math_min_mono; [done|apply num_leb_refl]. }
      exists r. split; [done|]. split.
      { eapply num_le_trans; [exact Hle|apply Math_min_l]. }
      rewrite <- (clamp_lower alpha bt e) by
        (done || (eapply num_le_trans; [exact Hle|apply Math_min_r])).
      rewrite Hrc. rewrite <- Hbg. apply clamp_lower; [|done].
      eapply num_le_trans; [exact HF|apply Math_min_r].
Qed.

Lemma terminalScore_Some ts ai depth : exists q, terminalScore ts ai depth = Some (Num q).
Proof. unfold terminalScore. repeat case_decide; by eexists. Qed.

Section Pruning.
Context (ai : mark) (ev : evaluator) (maxDepth : Z).
Hypothesis Hev : neverNaN ev ai.

(** With an evaluator that returns no NaN, no value of the search is NaN,
    and the pruned search, seen through the window it was called with,
    returns the minimax value. *)
Lemma alphaBetaFuel_clamp fuel :
  forall b depth alpha beta isMaximizing,
  exists r g,
    alphaBetaFuel fuel b depth (Some alpha) (Some beta) isMaximizing ai ev maxDepth
    = Some r
    /\ minimaxFuel fuel b depth isMaximizing ai ev maxDepth = Some g
    /\ clamp alpha beta r = clamp alpha beta g.
Proof.
  induction fuel as [|fuel IH]; intros b depth alpha beta isMax; simpl.
  - destruct (terminal (isTerminal b)) eqn:Ht.
    { destruct (terminalScore_Some (isTerminal b) ai depth) as [q ->]. by eexists _, _. }
    case_bool_decide.
    { specialize (Hev b Ht). destruct (ev b ai) as [v|]; [|done]. by eexists _, _. }
    destruct isMax; by eexists _, _.
  - destruct (terminal (isTerminal b)) eqn:Ht.
    { destruct (terminalScore_Some (isTerminal b) ai depth) as [q ->]. by eexists _, _. }
    case_bool_decide.
    { specialize (Hev b Ht). destruct (ev b ai) as [v|]; [|done]. by eexists _, _. }
    destruct isMax.
    + set (g := fun move =>
                  default NegInfinity
                    (minimaxFuel fuel (makeMove b move ai) (depth + 1) false ai ev maxDepth)).
      assert (Hg : forall move,
                 minimaxFuel fuel (makeMove b move ai) (depth + 1) false ai ev maxDepth
                 = Some (g move)).
      { intros move. unfold g.
        destruct (IH (makeMove b move ai) (depth + 1) alpha beta false)
          as (r & g' & _ & -> & _). done. }
      destruct (maximizeOver_clamp
                  (fun newBoard alpha' =>
                     alphaBetaFuel fuel newBoard (depth + 1) alpha' (Some beta) false
                       ai ev maxDepth)
                  g b ai beta (getLegalMoves b)) with (m := NegInfinity) (a := alpha)
                  (M := NegInfinity) as (r & Hr & _ & Hc); [|done|done|].
      { intros move a _.
        destruct (IH (makeMove b move ai) (depth + 1) a beta false)
          as (r & g' & Hr & Hg' & Hc).
        exists r. split; [done|]. rewrite Hg in Hg'. by injection Hg' as <-. }
      exists r, (fold_left (fun best move => Math_max best (g move))
                   (getLegalMoves b) NegInfinity).
      split; [done|]. split; [|done].
      apply fold_js_max_Some. intros move _. apply Hg.
    + set (g := fun move =>
                  default NegInfinity
                    (minimaxFuel fuel (makeMove b move (getOpponent ai)) (depth + 1)
                       true ai ev maxDepth)).
      assert (Hg : forall move,
                 minimaxFuel fuel (makeMove b move (getOpponent ai)) (depth + 1) true
                   ai ev maxDepth
                 = Some (g move)).
      { intros move. unfold g.
        destruct (IH (makeMove b move (getOpponent ai)) (depth + 1) alpha beta true)
          as (r & g' & _ & -> & _). done. }
      destruct (minimizeOver_clamp
                  (fun newBoard beta' =>
                     alphaBetaFuel fuel newBoard (depth + 1) (Some alpha) beta' true
                       ai ev maxDepth)
                  g b (getOpponent ai) alpha (getLegalMoves b)) with (m := Infinity)
                  (bt := beta) (M := Infinity) as (r & Hr & _ & Hc).
      { intros move bt _.
        destruct (IH (makeMove b move (getOpponent ai)) (depth + 1) alpha bt true)
          as (r & g' & Hr & Hg' & Hc).
        exists r. split; [done|]. rewrite Hg in Hg'. by injection Hg' as <-. }
      { by destruct beta. }
      { by destruct beta. }
      exists r, (fold_left (fun best move => Math_min best (g move))
                   (getLegalMoves b) Infinity).
      split; [done|]. split; [|done].
      apply fold_js_min_Some. intros move _. apply Hg.
Qed.

Lemma alphaBetaSearch_minimax b depth isMaximizing :
  alphaBetaSearch b depth (Some NegInfinity) (Some Infinity) isMaximizing ai ev maxDepth
  = minimaxSearch b depth isMaximizing ai ev maxDepth.
Proof.
  unfold alphaBetaSearch, minimaxSearch.
  destruct (alphaBetaFuel_clamp (countNull b) b depth NegInfinity Infinity isMaximizing)
    as (r & g & -> & -> & Hc).
  rewrite !clamp_full in Hc. by rewrite Hc.
Qed.

End Pruning.

(** ** The rules engine *)

Lemma omap_id_Some {A} (x : A) (l : list (option A)) :
  omap id (Some x :: l) = x :: omap id l.
Proof. reflexivity. Qed.

Lemma omap_id_None {A} (l : list (option A)) : omap id (None :: l) = omap id l.
Proof. reflexivity. Qed.

Lemma legalMoves_shift k (b : board) :
  omap id (imap (fun index c => if decide (c = Null) then Some (k + index)%nat else None) b)
  = (fun i => (k + i)%nat) <$> getLegalMoves b.
Proof.
  unfold getLegalMoves. revert k.
  induction b as [|c b IH]; intros k; [done|].
  rewrite !imap_cons.
  set (T1 := imap (_ ∘ S) b). set (T2 := imap (_ ∘ S) b).
  assert (Hk : omap id T1 = (fun i => (k + i)%nat) <$> (S <$> omap id (imap
                 (fun index c0 => if decide (c0 = Null) then Some index else None) b))).
  { rewrite <- list_fmap_compose.
    transitivity ((fun i => (S k + i)%nat) <$> omap id (imap
      (fun index c0 => if decide (c0 = Null) then Some index else None) b)).
    - rewrite <- (IH (S k)). subst T1. f_equal. apply imap_ext. intros i x _. simpl.
      by replace (k + S i)%nat with (S (k + i)) by lia.
    - apply list_fmap_ext. intros _ i _. simpl. lia. }
  assert (H1 : omap id T2 = S <$> omap id (imap
                 (fun index c0 => if decide (c0 = Null) then Some index else None) b)).
  { exact (IH 1%nat). }
  clearbody T1 T2.
  destruct (decide (c = Null)).
  - rewrite !omap_id_Some, Hk, H1, fmap_cons. by rewrite Nat.add_0_r.
  - by rewrite !omap_id_None, Hk, H1.
Qed.

Lemma getLegalMoves_cons c (b : board) :
  getLegalMoves (c :: b)
  = (if decide (c = Null) then [0%nat] else []) ++ (S <$> getLegalMoves b).
Proof.
  unfold getLegalMoves at 1. rewrite imap_cons.
  set (T := imap (_ ∘ S) b).
  assert (H1 : omap id T = S <$> getLegalMoves b).
  { exact (legalMoves_shift 1 b). }
  clearbody T.
  destruct (decide (c = Null)).
  - by rewrite omap_id_Some, H1.
  - by rewrite omap_id_None, H1.
Qed.

Lemma elem_of_getLegalMoves (b : board) i :
  i ∈ getLegalMoves b <-> b !! i = Some Null.
Proof.
  revert i. induction b as [|c b IH]; intros i.
  - split; [by intros ?%elem_of_nil|done].
  - rewrite getLegalMoves_cons, elem_of_app, list_elem_of_fmap.
    destruct i as [|i]; simpl.
    + split.
      * intros [H|(j & ? & _)]; [|done].
        destruct (decide (c = Null)) as [->|]; [done|by apply elem_of_nil in H].
      * intros [= ->]. left. rewrite decide_True by done. apply list_elem_of_here.
    + rewrite <- IH. split.
      * intros [H|(j & [= ->] & Hj)]; [|done].
        destruct (decide (c = Null)); [|by apply elem_of_nil in H].
        by apply list_elem_of_singleton in H.
      * intros H. right. by exists i.
Qed.

Lemma getLegalMoves_sorted (b : board) : StronglySorted lt (getLegalMoves b).
Proof.
  induction b as [|c b IH]; [constructor|].
  rewrite getLegalMoves_cons.
  assert (HS : StronglySorted lt (S <$> getLegalMoves b)).
  { apply (StronglySorted_fmap S lt lt); [|done]. intros ???. lia. }
  destruct (decide (c = Null)); simpl; [|done].
  constructor; [done|].
  apply Forall_forall. intros j (k & -> & _)%list_elem_of_fmap. lia.
Qed.

Lemma getLegalMoves_lt_length (b : board) i :
  i ∈ getLegalMoves b -> (i < length b)%nat.
Proof. rewrite elem_of_getLegalMoves. apply lookup_lt_Some. Qed.

Lemma cellAt_makeMove_eq b i m : cellAt (makeMove b i m) i = Mark m.
Proof.
  unfold cellAt, makeMove. case_decide as Hi.
  - by rewrite list_lookup_insert_eq.
  - rewrite lookup_app_r by lia. rewrite lookup_app_r; rewrite length_replicate; [|lia].
    by replace (i - length b - (i - length b))%nat with 0%nat by lia.
Qed.

Lemma cellAt_makeMove_ne b i j m : i ≠ j -> cellAt (makeMove b i m) j = cellAt b j.
Proof.
  intros Hne. unfold cellAt, makeMove. case_decide as Hi.
  - by rewrite list_lookup_insert_ne.
  - destruct (decide (j < length b)%nat) as [Hj|Hj].
    + by rewrite lookup_app_l.
    + rewrite (lookup_ge_None_2 b j) by lia. rewrite lookup_app_r by lia.
      destruct (decide (j - length b < i - length b)%nat) as [Hlt|Hge].
      * rewrite lookup_app_l by (rewrite length_replicate; lia).
        by rewrite lookup_replicate_2.
      * rewrite lookup_app_r by (rewrite length_replicate; lia).
        rewrite length_replicate.
        rewrite lookup_ge_None_2; [done|]. simpl. lia.
Qed.

Lemma length_makeMove b i m : length (makeMove b i m) = (length b `max` S i)%nat.
Proof.
  unfold makeMove. case_decide.
  - rewrite length_insert. lia.
  - rewrite !length_app, length_replicate. simpl. lia.
Qed.

Lemma countNull_cons c (b : board) :
  countNull (c :: b) = ((if decide (c = Null) then 1 else 0) + countNull b)%nat.
Proof. unfold countNull. rewrite filter_cons. by destruct (decide (c = Null)). Qed.

Lemma countNull_insert (b : board) i m :
  b !! i = Some Null -> countNull b = S (countNull (<[i := Mark m]> b)).
Proof.
  revert i. induction b as [|c b IH]; intros i; [done|].
  destruct i as [|i]; simpl.
  - intros [= ->]. rewrite !countNull_cons.
    rewrite decide_True by done. by rewrite decide_False by done.
  - intros H. rewrite !countNull_cons. rewrite (IH i H). lia.
Qed.

Lemma countNull_makeMove (b : board) i m :
  i ∈ getLegalMoves b -> countNull b = S (countNull (makeMove b i m)).
Proof.
  intros Hi. pose proof (getLegalMoves_lt_length _ _ Hi).
  unfold makeMove. rewrite decide_True by done.
  apply countNull_insert. by apply elem_of_getLegalMoves.
Qed.

Lemma countNull_le_length (b : board) : (countNull b <= length b)%nat.
Proof. unfold countNull. apply length_filter. Qed.

Lemma isBoardFull_false (b : board) :
  isBoardFull b = false -> exists i, b !! i = Some Null.
Proof.
  induction b as [|c b IH]; simpl; [done|].
  destruct (decide (c = Null)) as [->|]; simpl.
  - intros _. by exists 0%nat.
  - intros [i Hi]%IH. by exists (S i).
Qed.

Lemma nonterminal_has_move (b : board) :
  terminal (isTerminal b) = false -> exists i, i ∈ getLegalMoves b.
Proof.
  unfold isTerminal. destruct (checkWinner b) as [[m l]|]; [done|].
  destruct (isBoardFull b) eqn:E; [done|]. intros _.
  destruct (isBoardFull_false _ E) as [i Hi]. exists i.
  by apply elem_of_getLegalMoves.
Qed.

(** ** The recursion bound of the search *)

Lemma maximizeOver_ext child1 child2 b ai beta moves :
  (forall move a, move ∈ moves ->
     child1 (makeMove b move ai) a = child2 (makeMove b move ai) a) ->
  forall m a, maximizeOver child1 b ai beta moves m a
            = maximizeOver child2 b ai beta moves m a.
Proof.
  induction moves as [|mv rest IH]; intros H m a; simpl; [done|].
  rewrite (H mv a) by apply list_elem_of_here.
  destruct (js_leb beta _); [done|].
  apply IH. intros move a' Hin. apply H. by apply list_elem_of_further.
Qed.

Lemma minimizeOver_ext child1 child2 b opp alpha moves :
  (forall move bt, move ∈ moves ->
     child1 (makeMove b move opp) bt = child2 (makeMove b move opp) bt) ->
  forall m bt, minimizeOver child1 b opp alpha moves m bt
             = minimizeOver child2 b opp alpha moves m bt.
Proof.
  induction moves as [|mv rest IH]; intros H m bt; simpl; [done|].
  rewrite (H mv bt) by apply list_elem_of_here.
  destruct (js_leb _ alpha); [done|].
  apply IH. intros move bt' Hin. apply H. by apply list_elem_of_further.
Qed.

Lemma fold_left_ext_in {A B} (f g : A -> B -> A) (l : list B) :
  (forall a x, x ∈ l -> f a x = g a x) ->
  forall a, fold_left f l a = fold_left g l a.
Proof.
  induction l as [|x l IH]; intros H a; simpl; [done|].
  rewrite (H a x) by apply list_elem_of_here.
  apply IH. intros a' y Hin. apply H. by apply list_elem_of_further.
Qed.

Section RecursionBound.
Context (ai : mark) (ev : evaluator) (maxDepth : Z).

(** Any bound that is at least the number of [null] slots gives the same
    result: the branch for an exhausted bound is never taken. *)
Lemma alphaBetaFuel_enough f1 :
  forall f2 b depth alpha beta isMaximizing,
  (countNull b <= f1)%nat -> (countNull b <= f2)%nat ->
  alphaBetaFuel f1 b depth alpha beta isMaximizing ai ev maxDepth
  = alphaBetaFuel f2 b depth alpha beta isMaximizing ai ev maxDepth.
Proof.
  induction f1 as [|f1 IH]; intros f2 b depth alpha beta isMax H1 H2.
  - destruct f2 as [|f2]; [done|]. simpl.
    destruct (terminal (isTerminal b)) eqn:Ht; [done|].
    destruct (nonterminal_has_move _ Ht) as [i Hi].
    pose proof (countNull_makeMove b i X Hi). lia.
  - destruct f2 as [|f2]; simpl.
    + destruct (terminal (isTerminal b)) eqn:Ht; [done|].
      destruct (nonterminal_has_move _ Ht) as [i Hi].
      pose proof (countNull_makeMove b i X Hi). lia.
    + destruct (terminal (isTerminal b)); [done|].
      case_bool_decide; [done|].
      destruct isMax.
      * apply maximizeOver_ext. intros move a Hin.
        pose proof (countNull_makeMove b move ai Hin). apply IH; lia.
      * apply minimizeOver_ext. intros move bt Hin.
        pose proof (countNull_makeMove b move (getOpponent ai) Hin). apply IH; lia.
Qed.

(** The recursive equation of [alphaBetaSearch], as in the source. *)
Lemma alphaBetaSearch_unfold b depth alpha beta isMaximizing :
  alphaBetaSearch b depth alpha beta isMaximizing ai ev maxDepth =
  let ts := isTerminal b in
  if terminal ts then terminalScore ts ai depth
  else if bool_decide (maxDepth ≤ depth) then ev b ai
  else if isMaximizing then
    maximizeOver
      (fun newBoard alpha' =>
         alphaBetaSearch newBoard (depth + 1) alpha' beta false ai ev maxDepth)
      b ai beta (getLegalMoves b) (Some NegInfinity) alpha
  else
    minimizeOver
      (fun newBoard beta' =>
         alphaBetaSearch newBoard (depth + 1) alpha beta' true ai ev maxDepth)
      b (getOpponent ai) alpha (getLegalMoves b) (Some Infinity) beta.
Proof.
  unfold alphaBetaSearch at 1. simpl.
  destruct (countNull b) as [|n] eqn:En; simpl.
  - destruct (terminal (isTerminal b)) eqn:Ht; [done|].
    destruct (nonterminal_has_move _ Ht) as [i Hi].
    pose proof (countNull_makeMove b i X Hi). lia.
  - destruct (terminal (isTerminal b)); [done|].
    case_bool_decide; [done|].
    destruct isMaximizing.
    + apply maximizeOver_ext. intros move a Hin.
      pose proof (countNull_makeMove b move ai Hin).
      unfold alphaBetaSearch. apply alphaBetaFuel_enough; lia.
    + apply minimizeOver_ext. intros move bt Hin.
      pose proof (countNull_makeMove b move (getOpponent ai) Hin).
      unfold alphaBetaSearch. apply alphaBetaFuel_enough; lia.
Qed.

Lemma minimaxFuel_enough f1 :
  forall f2 b depth isMaximizing,
  (countNull b <= f1)%nat -> (countNull b <= f2)%nat ->
  minimaxFuel f1 b depth isMaximizing ai ev maxDepth
  = minimaxFuel f2 b depth isMaximizing ai ev maxDepth.
Proof.
  induction f1 as [|f1 IH]; intros f2 b depth isMax H1 H2.
  - destruct f2 as [|f2]; [done|]. simpl.
    destruct (terminal (isTerminal b)) eqn:Ht; [done|].
    destruct (nonterminal_has_move _ Ht) as [i Hi].
    pose proof (countNull_makeMove b i X Hi). lia.
  - destruct f2 as [|f2]; simpl.
    + destruct (terminal (isTerminal b)) eqn:Ht; [done|].
      destruct (nonterminal_has_move _ Ht) as [i Hi].
      pose proof (countNull_makeMove b i X Hi). lia.
    + destruct (terminal (isTerminal b)); [done|].
      case_bool_decide; [done|].
      destruct isMax.
      * apply fold_left_ext_in. intros a move Hin. f_equal.
        pose proof (countNull_makeMove b move ai Hin). apply IH; lia.
      * apply fold_left_ext_in. intros a move Hin. f_equal.
        pose proof (countNull_makeMove b move (getOpponent ai) Hin). apply IH; lia.
Qed.

(** The recursive equation of the plain minimax. *)
Lemma minimaxSearch_unfold b depth isMaximizing :
  minimaxSearch b depth isMaximizing ai ev maxDepth =
  let ts := isTerminal b in
  if terminal ts then terminalScore ts ai depth
  else if bool_decide (maxDepth ≤ depth) then ev b ai
  else if isMaximizing then
    fold_left
      (fun best move =>
         js_max best
           (minimaxSearch (makeMove b move ai) (depth + 1) false ai ev maxDepth))
      (getLegalMoves b) (Some NegInfinity)
  else
    fold_left
      (fun best move =>
         js_min best
           (minimaxSearch (makeMove b move (getOpponent ai)) (depth + 1) true
              ai ev maxDepth))
      (getLegalMoves b) (Some Infinity).
Proof.
  unfold minimaxSearch at 1. simpl.
  destruct (countNull b) as [|n] eqn:En; simpl.
  - destruct (terminal (isTerminal b)) eqn:Ht; [done|].
    destruct (nonterminal_has_move _ Ht) as [i Hi].
    pose proof (countNull_makeMove b i X Hi). lia.
  - destruct (terminal (isTerminal b)); [done|].
    case_bool_decide; [done|].
    destruct isMaximizing.
    + apply fold_left_ext_in. intros a move Hin. f_equal.
      pose proof (countNull_makeMove b move ai Hin).
      unfold minimaxSearch. apply minimaxFuel_enough; lia.
    + apply fold_left_ext_in. intros a move Hin. f_equal.
      pose proof (countNull_makeMove b move (getOpponent ai) Hin).
      unfold minimaxSearch. apply minimaxFuel_enough; lia.
Qed.

End RecursionBound.

(** ** The root loop of [findBestMove] *)

Lemma rootLoop_evaluations (v : nat -> number) moves st :
  moveEvaluations (fold_left (rootStep v) moves st)
  = moveEvaluations st ++ map (fun m => (m, v m)) moves.
Proof.
  revert st. induction moves as [|mv rest IH]; intros st; simpl.
  - by rewrite app_nil_r.
  - rewrite IH. unfold rootStep. destruct (js_gtb _ _); simpl; by rewrite <- app_assoc.
Qed.

Lemma findBestMove_evaluations b ai ev maxDepth :
  moveEvaluations (findBestMove b ai ev maxDepth)
  = map (fun m => (m, rootValue b ai ev maxDepth m)) (getLegalMoves b).
Proof. unfold findBestMove. by rewrite rootLoop_evaluations. Qed.

Lemma rootValue_minimax b ai ev maxDepth move :
  neverNaN ev ai ->
  rootValue b ai ev maxDepth move = minimaxRootValue b ai ev maxDepth move.
Proof. intros Hev. by apply alphaBetaSearch_minimax. Qed.

(** C1, as the code has it.  For every board, depth limit and evaluator that
    returns no NaN on the boards it is called on, the pruned search called
    with the full window returns the value of the plain minimax search; called
    with any window of numbers it returns a number that, seen through the
    window, is the minimax value.  [findBestMove] driven by either search
    returns the same result: the same root score, the same list of move
    values, the same chosen move and the same set of moves attaining the best
    value. *)
Theorem alphaBeta_refines_minimax (b : board) (ai : mark) (ev : evaluator) (maxDepth : Z)
    (Hev : neverNaN ev ai) :
  (forall depth isMaximizing,
     alphaBetaSearch b depth (Some NegInfinity) (Some Infinity) isMaximizing ai ev maxDepth
     = minimaxSearch b depth isMaximizing ai ev maxDepth)
  /\ (forall depth alpha beta isMaximizing,
        exists r g,
          alphaBetaSearch b depth (Some alpha) (Some beta) isMaximizing ai ev maxDepth
          = Some r
          /\ minimaxSearch b depth isMaximizing ai ev maxDepth = Some g
          /\ clamp alpha beta r = clamp alpha beta g)
  /\ findBestMove b ai ev maxDepth = findBestMoveMinimax b ai ev maxDepth
  /\ bestValue (findBestMove b ai ev maxDepth)
     = bestValue (findBestMoveMinimax b ai ev maxDepth)
  /\ moveEvaluations (findBestMove b ai ev maxDepth)
     = moveEvaluations (findBestMoveMinimax b ai ev maxDepth)
  /\ bestMove (findBestMove b ai ev maxDepth)
     = bestMove (findBestMoveMinimax b ai ev maxDepth)
  /\ bestMoves (findBestMove b ai ev maxDepth)
     = bestMoves (findBestMoveMinimax b ai ev maxDepth).
Proof.
  assert (H : findBestMove b ai ev maxDepth = findBestMoveMinimax b ai ev maxDepth).
  { unfold findBestMove, findBestMoveMinimax. apply fold_left_ext_in.
    intros st move _. unfold rootStep. by rewrite rootValue_minimax. }
  split; [intros; by apply alphaBetaSearch_minimax|].
  split; [intros; by apply alphaBetaFuel_clamp|].
  by rewrite H.
Qed.

Lemma alphaBeta_refines_minimax_witness :
  neverNaN zeroEval X
  /\ findBestMove createEmptyBoard X zeroEval 2
     = findBestMoveMinimax createEmptyBoard X zeroEval 2.
Proof.
  assert (H : neverNaN zeroEval X) by (intros b _; discriminate).
  split; [exact H|].
  destruct (alphaBeta_refines_minimax createEmptyBoard X zeroEval 2 H)
    as (_ & _ & E & _).
  exact E.
Defined.

(** C1, as stated, fails for an evaluator that returns NaN: a cut-off skips
    a leaf whose value is NaN, and plain minimax folds the NaN into its
    result.  The evaluator is [mlEvaluate] with the weights of a model that
    [updateMLWeights] accepted; O is to move, the depth limit is 3.  After
    the move 1 the pruned search returns -99 and plain minimax NaN, so the
    pruned [findBestMove] chooses the move 1 and the plain one no move. *)
Lemma pruning_changes_result_for_NaN :
  let b := [Mark O; Null; Null; Null; Mark X; Null; Mark X; Null; Null] in
  let ev := mlEvaluate nanLabelWeights in
  ev createEmptyBoard O = NaN
  /\ alphaBetaSearch (makeMove b 1 O) 0 (Some NegInfinity) (Some Infinity) false O ev 3
     = ofQc (Qc_of_Z (-99))
  /\ minimaxSearch (makeMove b 1 O) 0 false O ev 3 = NaN
  /\ bestMove (findBestMove b O ev 3) = Some 1%nat
  /\ bestValue (findBestMove b O ev 3) = ofQc (Qc_of_Z (-99))
  /\ bestMove (findBestMoveMinimax b O ev 3) = None
  /\ findBestMove b O ev 3 ≠ findBestMoveMinimax b O ev 3.
Proof.
  intros b ev.
  assert (H1 : bestMove (findBestMove b O ev 3) = Some 1%nat) by (vm_compute; reflexivity).
  assert (H2 : bestMove (findBestMoveMinimax b O ev 3) = None) by (vm_compute; reflexivity).
  split; [vm_compute; reflexivity|].
  split; [vm_compute; reflexivity|].
  split; [vm_compute; reflexivity|].
  split; [exact H1|].
  split; [vm_compute; reflexivity|].
  split; [exact H2|].
  intros E. rewrite E, H2 in H1. discriminate.
Qed.

(** ** The logged search *)

Lemma maximizeOverLog_fst childL child b ai beta moves :
  (forall nb a, fst (childL nb a) = child nb a) ->
  forall m a log,
  fst (maximizeOverLog childL b ai beta moves m a log)
  = maximizeOver child b ai beta moves m a.
Proof.
  intros H. induction moves as [|mv rest IH]; intros m a log; simpl; [done|].
  rewrite <- (H (makeMove b mv ai) a).
  destruct (childL (makeMove b mv ai) a) as [e calls]; simpl.
  destruct (js_leb beta _); [done|]. apply IH.
Qed.

Lemma minimizeOverLog_fst childL child b opp alpha moves :
  (forall nb bt, fst (childL nb bt) = child nb bt) ->
  forall m bt log,
  fst (minimizeOverLog childL b opp alpha moves m bt log)
  = minimizeOver child b opp alpha moves m bt.
Proof.
  intros H. induction moves as [|mv rest IH]; intros m bt log; simpl; [done|].
  rewrite <- (H (makeMove b mv opp) bt).
  destruct (childL (makeMove b mv opp) bt) as [e calls]; simpl.
  destruct (js_leb _ alpha); [done|]. apply IH.
Qed.

Lemma maximizeOverLog_calls (P : evalCall -> Prop) childL b ai beta moves :
  (forall nb a, Forall P (snd (childL nb a))) ->
  forall m a log, Forall P log ->
  Forall P (snd (maximizeOverLog childL b ai beta moves m a log)).
Proof.
  intros H. induction moves as [|mv rest IH]; intros m a log Hlog; simpl; [done|].
  specialize (H (makeMove b mv ai) a).
  destruct (childL (makeMove b mv ai) a) as [e calls]; simpl in *.
  assert (Forall P (log ++ calls)) by by apply Forall_app.
  destruct (js_leb beta _); [done|]. by apply IH.
Qed.

Lemma minimizeOverLog_calls (P : evalCall -> Prop) childL b opp alpha moves :
  (forall nb bt, Forall P (snd (childL nb bt))) ->
  forall m bt log, Forall P log ->
  Forall P (snd (minimizeOverLog childL b opp alpha moves m bt log)).
Proof.
  intros H. induction moves as [|mv rest IH]; intros m bt log Hlog; simpl; [done|].
  specialize (H (makeMove b mv opp) bt).
  destruct (childL (makeMove b mv opp) bt) as [e calls]; simpl in *.
  assert (Forall P (log ++ calls)) by by apply Forall_app.
  destruct (js_leb _ alpha); [done|]. by apply IH.
Qed.

Section LoggedSearch.
Context (ai : mark) (ev : evaluator) (maxDepth : Z).

Lemma alphaBetaLogFuel_fst fuel :
  forall b depth alpha beta isMaximizing,
  fst (alphaBetaLogFuel fuel b depth alpha beta isMaximizing ai ev maxDepth)
  = alphaBetaFuel fuel b depth alpha beta isMaximizing ai ev maxDepth.
Proof.
  induction fuel as [|fuel IH]; intros b depth alpha beta isMax; simpl.
  - by repeat case_match.
  - destruct (terminal (isTerminal b)); [done|].
    case_bool_decide; [done|].
    destruct isMax.
    + apply maximizeOverLog_fst. intros. apply IH.
    + apply minimizeOverLog_fst. intros. apply IH.
Qed.

Lemma alphaBetaLogFuel_calls fuel :
  forall b depth alpha beta isMaximizing,
  Forall (fun c : evalCall => terminal (isTerminal c.1) = false /\ maxDepth ≤ c.2)
    (snd (alphaBetaLogFuel fuel b depth alpha beta isMaximizing ai ev maxDepth)).
Proof.
  induction fuel as [|fuel IH]; intros b depth alpha beta isMax; simpl.
  - destruct (terminal (isTerminal b)) eqn:Ht; [done|].
    case_bool_decide; [|done]. by repeat constructor.
  - destruct (terminal (isTerminal b)) eqn:Ht; [done|].
    case_bool_decide; [by repeat constructor|].
    destruct isMax.
    + apply maximizeOverLog_calls; [|done]. intros. apply IH.
    + apply minimizeOverLog_calls; [|done]. intros. apply IH.
Qed.

End LoggedSearch.

Lemma getOpponent_ne ai : getOpponent ai ≠ ai.
Proof. by destruct ai. Qed.

(** C3.  On a terminal board, at every depth and for every window, side to
    move, depth limit and evaluator, [alphaBetaSearch] returns [100 - depth]
    when the winner is [aiPlayer], [depth - 100] when the winner is its
    opponent and [0] for a draw, and makes no call of the evaluator.  In any
    search every call of the evaluator is made on a non-terminal board at a
    depth that has reached [maxDepth]. *)
Theorem terminal_scoring_before_evaluator
    (b : board) (depth : Z) (alpha beta : number) (isMaximizing : bool)
    (ai : mark) (ev : evaluator) (maxDepth : Z)
    (Hterminal : terminal (isTerminal b) = true) :
  (winner (isTerminal b) = Some (WinnerIs ai) ->
     alphaBetaSearch b depth alpha beta isMaximizing ai ev maxDepth
     = ofQc (Qc_of_Z (100 - depth)))
  /\ (winner (isTerminal b) = Some (WinnerIs (getOpponent ai)) ->
     alphaBetaSearch b depth alpha beta isMaximizing ai ev maxDepth
     = ofQc (Qc_of_Z (depth - 100)))
  /\ (winner (isTerminal b) = Some WinnerDraw ->
     alphaBetaSearch b depth alpha beta isMaximizing ai ev maxDepth
     = ofQc (Qc_of_Z 0))
  /\ alphaBetaCalls b depth alpha beta isMaximizing ai ev maxDepth = []
  /\ (forall b' depth' alpha' beta' isMaximizing',
        fst (alphaBetaLogFuel (countNull b') b' depth' alpha' beta' isMaximizing'
               ai ev maxDepth)
        = alphaBetaSearch b' depth' alpha' beta' isMaximizing' ai ev maxDepth
        /\ Forall (fun c : evalCall =>
                     terminal (isTerminal c.1) = false /\ maxDepth ≤ c.2)
             (alphaBetaCalls b' depth' alpha' beta' isMaximizing' ai ev maxDepth)).
Proof.
  assert (Hs : alphaBetaSearch b depth alpha beta isMaximizing ai ev maxDepth
               = terminalScore (isTerminal b) ai depth).
  { rewrite alphaBetaSearch_unfold. simpl. by rewrite Hterminal. }
  rewrite Hs. unfold terminalScore. repeat split.
  - intros ->. by rewrite decide_True.
  - intros ->. rewrite decide_False; [by rewrite decide_True|].
    intros [= H]. by apply getOpponent_ne in H.
  - intros ->. by rewrite !decide_False.
  - unfold alphaBetaCalls. destruct (countNull b); simpl; by rewrite Hterminal.
  - apply alphaBetaLogFuel_fst.
  - apply alphaBetaLogFuel_calls.
Qed.

Lemma terminal_scoring_before_evaluator_witness :
  let b := [Mark X; Mark X; Mark X; Mark O; Mark O; Null; Null; Null; Null] in
  terminal (isTerminal b) = true
  /\ alphaBetaSearch b 3 (Some NegInfinity) (Some Infinity) false X zeroEval 9
     = ofQc (Qc_of_Z (100 - 3)).
Proof.
  split; [reflexivity|].
  destruct (terminal_scoring_before_evaluator
              [Mark X; Mark X; Mark X; Mark O; Mark O; Null; Null; Null; Null]
              3 (Some NegInfinity) (Some Infinity) false X zeroEval 9 eq_refl) as (H & _).
  apply H. reflexivity.
Defined.

(** ** The search returns a finite score when the evaluator does *)

Lemma js_max_finite_l a b :
  a = Some NegInfinity \/ finiteNumber a -> finiteNumber b -> finiteNumber (js_max a b).
Proof.
  intros [->|[p ->]] [q ->]; [by exists q|].
  unfold ofQc. rewrite js_max_Some. unfold Math_max.
  destruct (num_leb _ _); by eexists.
Qed.

Lemma js_min_finite_l a b :
  a = Some Infinity \/ finiteNumber a -> finiteNumber b -> finiteNumber (js_min a b).
Proof.
  intros [->|[p ->]] [q ->]; [by exists q|].
  unfold ofQc. rewrite js_min_Some. unfold Math_min.
  destruct (num_leb _ _); by eexists.
Qed.

Lemma maximizeOver_finite child b ai beta moves :
  (forall move a, move ∈ moves -> finiteNumber (child (makeMove b move ai) a)) ->
  forall m a, m = Some NegInfinity \/ finiteNumber m -> moves ≠ [] \/ finiteNumber m ->
  finiteNumber (maximizeOver child b ai beta moves m a).
Proof.
  induction moves as [|mv rest IH]; intros H m a Hm Hne; cbn [maximizeOver].
  - by destruct Hne.
  - assert (Hf : finiteNumber (js_max m (child (makeMove b mv ai) a))).
    { apply js_max_finite_l; [done|]. apply H, list_elem_of_here. }
    destruct (js_leb beta _); [done|].
    apply IH; [|by right|by right].
    intros move a' Hin. apply H. by apply list_elem_of_further.
Qed.

Lemma minimizeOver_finite child b opp alpha moves :
  (forall move bt, move ∈ moves -> finiteNumber (child (makeMove b move opp) bt)) ->
  forall m bt, m = Some Infinity \/ finiteNumber m -> moves ≠ [] \/ finiteNumber m ->
  finiteNumber (minimizeOver child b opp alpha moves m bt).
Proof.
  induction moves as [|mv rest IH]; intros H m bt Hm Hne; cbn [minimizeOver].
  - by destruct Hne.
  - assert (Hf : finiteNumber (js_min m (child (makeMove b mv opp) bt))).
    { apply js_min_finite_l; [done|]. apply H, list_elem_of_here. }
    destruct (js_leb _ alpha); [done|].
    apply IH; [|by right|by right].
    intros move bt' Hin. apply H. by apply list_elem_of_further.
Qed.

Lemma terminalScore_finite ts ai depth : finiteNumber (terminalScore ts ai depth).
Proof. unfold terminalScore. repeat case_decide; by eexists. Qed.

Lemma alphaBetaFuel_finite ai ev maxDepth fuel :
  alwaysFinite ev ai ->
  forall b depth alpha beta isMaximizing,
  (countNull b <= fuel)%nat ->
  finiteNumber (alphaBetaFuel fuel b depth alpha beta isMaximizing ai ev maxDepth).
Proof.
  intros Hev.
  induction fuel as [|fuel IH]; intros b depth alpha beta isMax Hfuel; simpl.
  - destruct (terminal (isTerminal b)) eqn:Ht; [apply terminalScore_finite|].
    case_bool_decide; [by apply Hev|].
    destruct (nonterminal_has_move _ Ht) as [i Hi].
    pose proof (countNull_makeMove b i X Hi). lia.
  - destruct (terminal (isTerminal b)) eqn:Ht; [apply terminalScore_finite|].
    case_bool_decide; [by apply Hev|].
    destruct (nonterminal_has_move _ Ht) as [i Hi].
    assert (Hne : getLegalMoves b ≠ []).
    { intros E. rewrite E in Hi. by apply elem_of_nil in Hi. }
    destruct isMax.
    + apply maximizeOver_finite; [|by left|by left].
      intros move a Hin. apply IH.
      pose proof (countNull_makeMove b move ai Hin). lia.
    + apply minimizeOver_finite; [|by left|by left].
      intros move bt Hin. apply IH.
      pose proof (countNull_makeMove b move (getOpponent ai) Hin). lia.
Qed.

Lemma alphaBetaSearch_finite b depth alpha beta isMaximizing ai ev maxDepth :
  alwaysFinite ev ai ->
  finiteNumber (alphaBetaSearch b depth alpha beta isMaximizing ai ev maxDepth).
Proof. intros Hev. apply alphaBetaFuel_finite; [done|lia]. Qed.

Lemma rootValue_finite b ai ev maxDepth move :
  alwaysFinite ev ai -> finiteNumber (rootValue b ai ev maxDepth move).
Proof. apply alphaBetaSearch_finite. Qed.

(** ** The running best of the root loop *)

(** Comparisons in which an operand may be NaN. *)
Lemma js_gtb_irrefl a : js_gtb a a = false.
Proof. destruct a as [a|]; simpl; [|done]. num_order. Qed.

Lemma js_gtb_least a c : js_gtb a (Some NegInfinity) = false -> js_gtb a c = false.
Proof. destruct a as [[|p|]|], c as [c|]; simpl; try done. Qed.

Lemma js_geb_least a c :
  js_gtb a (Some NegInfinity) = false -> js_gtb c (Some NegInfinity) = true ->
  js_geb a c = false.
Proof. destruct a as [[|p|]|], c as [[|q|]|]; simpl; try done. Qed.

Lemma js_gtb_above_least a c : js_gtb a c = true -> js_gtb a (Some NegInfinity) = true.
Proof. destruct a as [[|p|]|], c as [c|]; simpl; try done. Qed.

Lemma js_gtb_raise a c d :
  js_gtb a c = false -> js_gtb d c = true -> js_gtb a d = false /\ js_geb a d = false.
Proof.
  destruct a as [a|], c as [c|], d as [d|]; simpl; try done.
  intros H1 H2. split; num_order.
Qed.

Lemma js_geb_refl a : a ≠ NaN -> js_geb a a = true.
Proof. destruct a as [a|]; [|done]. intros _. apply num_leb_refl. Qed.

Lemma js_gtb_not_NaN a c : js_gtb a c = true -> a ≠ NaN.
Proof. by destruct a. Qed.

Lemma js_gtb_finite a c :
  finiteNumber a -> finiteNumber c -> js_gtb a c = false -> js_leb a c = true.
Proof.
  intros [p ->] [q ->]. unfold js_leb, ofQc.
  rewrite js_gtb_Some, js_geb_Some. unfold num_gtb.
  by destruct (num_leb (Num p) (Num q)).
Qed.

Lemma bestAfter_snoc (v : nat -> number) l x r :
  bestAfter v l r -> bestAfter v (l ++ [x]) (rootStep v r x).
Proof.
  intros [(Hm & Hv & Hnone)|(i & m & Hi & Hm & Hv & Hgt & Hmax & Hfirst)];
    unfold rootStep; rewrite Hv.
  - destruct (js_gtb (v x) (Some NegInfinity)) eqn:E.
    + right. exists (length l), x. cbn [bestMove bestValue].
      split; [by apply list_lookup_middle|].
      split; [done|]. split; [done|]. split; [done|]. split.
      * intros j m' Hj. apply lookup_app_Some in Hj as [Hj|[_ Hj]].
        -- apply js_gtb_least. by eapply Hnone.
        -- apply list_lookup_singleton_Some in Hj as [_ ->]. apply js_gtb_irrefl.
      * intros j m' Hj Hlt. apply lookup_app_Some in Hj as [Hj|[Hlen _]]; [|lia].
        apply js_geb_least; [by eapply Hnone|done].
    + left. cbn [bestMove bestValue]. split; [done|]. split; [done|].
      intros j m' Hj. apply lookup_app_Some in Hj as [Hj|[_ Hj]]; [by eapply Hnone|].
      by apply list_lookup_singleton_Some in Hj as [_ ->].
  - right. destruct (js_gtb (v x) (v m)) eqn:E.
    + exists (length l), x. cbn [bestMove bestValue].
      split; [by apply list_lookup_middle|].
      split; [done|]. split; [done|].
      split; [by eapply js_gtb_above_least|]. split.
      * intros j m' Hj. apply lookup_app_Some in Hj as [Hj|[_ Hj]].
        -- apply (js_gtb_raise _ (v m)); [by eapply Hmax|done].
        -- apply list_lookup_singleton_Some in Hj as [_ ->]. apply js_gtb_irrefl.
      * intros j m' Hj Hlt. apply lookup_app_Some in Hj as [Hj|[Hlen _]]; [|lia].
        apply (js_gtb_raise _ (v m)); [by eapply Hmax|done].
    + exists i, m. cbn [bestMove bestValue].
      split; [by apply lookup_app_l_Some|].
      split; [done|]. split; [done|]. split; [done|]. split.
      * intros j m' Hj. apply lookup_app_Some in Hj as [Hj|[_ Hj]]; [by eapply Hmax|].
        by apply list_lookup_singleton_Some in Hj as [_ ->].
      * intros j m' Hj Hlt. apply lookup_app_Some in Hj as [Hj|[Hlen _]];
          [by eapply Hfirst|].
        apply lookup_lt_Some in Hi. lia.
Qed.

Lemma rootLoop_bestAfter (v : nat -> number) l :
  bestAfter v l (fold_left (rootStep v) l (mkSearchResult None (Some NegInfinity) [])).
Proof.
  induction l as [|x l IH] using rev_ind.
  - left. by repeat split.
  - rewrite fold_left_app. simpl. by apply bestAfter_snoc.
Qed.

Lemma sorted_lookup_lt (l : list nat) i j a c :
  StronglySorted lt l -> l !! i = Some a -> l !! j = Some c -> (i < j)%nat ->
  (a < c)%nat.
Proof.
  intros Hs. revert i j. induction Hs as [|x l Hs IH Hall]; intros i j Hi Hj Hij.
  - done.
  - destruct j as [|j]; [lia|]. simpl in Hj. destruct i as [|i]; simpl in Hi.
    + injection Hi as ->. rewrite Forall_forall in Hall.
      apply Hall. by eapply list_elem_of_lookup_2.
    + eapply IH; eauto. lia.
Qed.

(** The chosen move, for any evaluator: a legal move whose value is greater
    than [-Infinity]; no root value is greater, and it is the smallest index
    among the legal moves of that value. *)
Lemma findBestMove_Some b ai ev maxDepth m :
  bestMove (findBestMove b ai ev maxDepth) = Some m ->
  m ∈ getLegalMoves b
  /\ bestValue (findBestMove b ai ev maxDepth) = rootValue b ai ev maxDepth m
  /\ js_gtb (rootValue b ai ev maxDepth m) (Some NegInfinity) = true
  /\ (forall m', m' ∈ getLegalMoves b ->
        js_gtb (rootValue b ai ev maxDepth m') (rootValue b ai ev maxDepth m) = false)
  /\ (forall m', m' ∈ getLegalMoves b ->
        rootValue b ai ev maxDepth m' = rootValue b ai ev maxDepth m ->
        (m <= m')%nat).
Proof.
  intros Hbest.
  pose proof (rootLoop_bestAfter (rootValue b ai ev maxDepth) (getLegalMoves b)) as H.
  fold (findBestMove b ai ev maxDepth) in H.
  destruct H as [(Hm & _)|(i & m0 & Hi & Hm & Hv & Hgt & Hmax & Hfirst)];
    [congruence|].
  rewrite Hm in Hbest. injection Hbest as ->.
  split; [by eapply list_elem_of_lookup_2|]. split; [done|]. split; [done|]. split.
  - intros m' (j & Hj)%list_elem_of_lookup_1. by eapply Hmax.
  - intros m' (j & Hj)%list_elem_of_lookup_1 Heq.
    destruct (decide (j < i)%nat) as [Hlt|Hge].
    + specialize (Hfirst j m' Hj Hlt). rewrite Heq in Hfirst.
      rewrite js_geb_refl in Hfirst; [done|]. by eapply js_gtb_not_NaN.
    + destruct (decide (i = j)) as [->|Hij]; [by simplify_eq|].
      pose proof (getLegalMoves_sorted b) as Hs.
      assert (i < j)%nat as Hlt by lia.
      pose proof (sorted_lookup_lt (getLegalMoves b) i j m m' Hs Hi Hj Hlt). lia.
Qed.

(** No move is chosen exactly when no root value is greater than
    [-Infinity]: each is NaN or [-Infinity]. *)
Lemma findBestMove_None b ai ev maxDepth :
  bestMove (findBestMove b ai ev maxDepth) = None
  <-> forall m, m ∈ getLegalMoves b ->
        js_gtb (rootValue b ai ev maxDepth m) (Some NegInfinity) = false.
Proof.
  pose proof (rootLoop_bestAfter (rootValue b ai ev maxDepth) (getLegalMoves b)) as H.
  fold (findBestMove b ai ev maxDepth) in H.
  destruct H as [(Hm & _ & Hnone)|(i & m0 & Hi & Hm & Hv & Hgt & Hmax & Hfirst)].
  - split; [|done]. intros _ m (j & Hj)%list_elem_of_lookup_1. by eapply Hnone.
  - split; [congruence|]. intros Hall.
    rewrite Hall in Hgt; [done|]. by eapply list_elem_of_lookup_2.
Qed.

Lemma findBestMove_None_value b ai ev maxDepth :
  bestMove (findBestMove b ai ev maxDepth) = None ->
  bestValue (findBestMove b ai ev maxDepth) = Some NegInfinity.
Proof.
  pose proof (rootLoop_bestAfter (rootValue b ai ev maxDepth) (getLegalMoves b)) as H.
  fold (findBestMove b ai ev maxDepth) in H.
  destruct H as [(Hm & Hv & _)|(i & m0 & Hi & Hm & _)]; [done|congruence].
Qed.

(** The chosen move when the root values are finite: a legal move of largest
    value, and the smallest index among the legal moves of that value. *)
Lemma findBestMove_first_best b ai ev maxDepth :
  (forall m, m ∈ getLegalMoves b -> finiteNumber (rootValue b ai ev maxDepth m)) ->
  getLegalMoves b ≠ [] ->
  exists m,
    bestMove (findBestMove b ai ev maxDepth) = Some m
    /\ m ∈ getLegalMoves b
    /\ bestValue (findBestMove b ai ev maxDepth) = rootValue b ai ev maxDepth m
    /\ (forall m', m' ∈ getLegalMoves b ->
          js_leb (rootValue b ai ev maxDepth m') (rootValue b ai ev maxDepth m) = true)
    /\ (forall m', m' ∈ getLegalMoves b ->
          rootValue b ai ev maxDepth m' = rootValue b ai ev maxDepth m ->
          (m <= m')%nat).
Proof.
  intros Hfin Hne.
  destruct (bestMove (findBestMove b ai ev maxDepth)) as [m|] eqn:Hbest.
  - destruct (findBestMove_Some _ _ _ _ _ Hbest) as (Hin & Hv & Hgt & Hmax & Hlow).
    exists m. repeat split; [done..| |done].
    intros m' Hin'. apply js_gtb_finite; [by apply Hfin..|by apply Hmax].
  - exfalso. pose proof (proj1 (findBestMove_None b ai ev maxDepth) Hbest) as Hnone.
    destruct (getLegalMoves b) as [|y l]; [done|].
    specialize (Hnone y (list_elem_of_here _ _)).
    destruct (Hfin y (list_elem_of_here _ _)) as [q Hq].
    by rewrite Hq in Hnone.
Qed.

Lemma findBestMove_legal b ai ev maxDepth m :
  bestMove (findBestMove b ai ev maxDepth) = Some m -> m ∈ getLegalMoves b.
Proof. intros Hm. by apply findBestMove_Some in Hm as (H & _). Qed.

(** C4, as the code has it.  The root loop of [findBestMove] visits the
    legal moves in ascending index order and replaces its running best only
    on a strict [>].  A move it returns is a legal move whose value is greater
    than [-Infinity]; no root value is greater, and it is the lowest index
    among the legal moves of that value.  It returns no move exactly when no
    root value is greater than [-Infinity], that is when each is NaN or
    [-Infinity].  On a board with a legal move whose root values are finite
    (as they are when the evaluator returns finite numbers) it returns a move,
    whose value is the maximum of the root values. *)
Theorem findBestMove_lowest_index_of_maximum
    (b : board) (ai : mark) (ev : evaluator) (maxDepth : Z)
    (Hmoves : getLegalMoves b ≠ []) :
  let r := findBestMove b ai ev maxDepth in
  let value := rootValue b ai ev maxDepth in
  map fst (moveEvaluations r) = getLegalMoves b
  /\ StronglySorted lt (getLegalMoves b)
  /\ moveEvaluations r = map (fun m => (m, value m)) (getLegalMoves b)
  /\ (forall v st move, js_gtb (v move) (bestValue st) = false ->
        bestMove (rootStep v st move) = bestMove st
        /\ bestValue (rootStep v st move) = bestValue st)
  /\ (forall m, bestMove r = Some m ->
        m ∈ getLegalMoves b
        /\ bestValue r = value m
        /\ js_gtb (value m) (Some NegInfinity) = true
        /\ (forall m', m' ∈ getLegalMoves b -> js_gtb (value m') (value m) = false)
        /\ (forall m', m' ∈ getLegalMoves b -> value m' = value m -> (m <= m')%nat))
  /\ (bestMove r = None <->
        forall m, m ∈ getLegalMoves b -> js_gtb (value m) (Some NegInfinity) = false)
  /\ (alwaysFinite ev ai -> forall m, finiteNumber (value m))
  /\ ((forall m, m ∈ getLegalMoves b -> finiteNumber (value m)) ->
        exists m,
          bestMove r = Some m
          /\ m ∈ getLegalMoves b
          /\ bestValue r = value m
          /\ (forall m', m' ∈ getLegalMoves b -> js_leb (value m') (value m) = true)
          /\ (forall m', m' ∈ getLegalMoves b -> value m' = value m -> (m <= m')%nat)).
Proof.
  intros r value. subst r value.
  split; [rewrite findBestMove_evaluations, map_map; simpl; apply map_id|].
  split; [apply getLegalMoves_sorted|].
  split; [apply findBestMove_evaluations|].
  split; [intros v st move H; unfold rootStep; by rewrite H|].
  split; [intros m Hm; by apply findBestMove_Some|].
  split; [apply findBestMove_None|].
  split; [intros Hev m; by apply rootValue_finite|].
  intros Hfin. by apply findBestMove_first_best.
Qed.

Lemma findBestMove_lowest_index_of_maximum_witness :
  let b := [Mark X; Mark X; Null; Mark O; Mark O; Null; Null; Null; Null] in
  getLegalMoves b ≠ []
  /\ exists m, bestMove (findBestMove b O zeroEval 1) = Some m
              /\ m ∈ getLegalMoves b.
Proof.
  assert (H : getLegalMoves
                [Mark X; Mark X; Null; Mark O; Mark O; Null; Null; Null; Null] ≠ [])
    by (vm_compute; discriminate).
  split; [exact H|].
  destruct (findBestMove_lowest_index_of_maximum _ O zeroEval 1 H)
    as (_ & _ & _ & _ & _ & _ & Hfin & Hbest).
  destruct Hbest as (m & Hm & Hin & _).
  { intros m _. apply Hfin. intros b' _. by eexists. }
  exists m. by split.
Defined.

(** C4, as stated, fails when the root values are NaN: [NaN > -Infinity] is
    false, so no move replaces the initial [null].  On the empty board, with
    [mlEvaluate] on weights that [updateMLWeights] accepted and the depth
    limit 1, every root value is NaN and [findBestMove] returns no move,
    although nine moves are legal. *)
Lemma findBestMove_no_move_for_NaN_values :
  let ev := mlEvaluate nanLabelWeights in
  let r := findBestMove createEmptyBoard X ev 1 in
  getLegalMoves createEmptyBoard = [0; 1; 2; 3; 4; 5; 6; 7; 8]%nat
  /\ bestMove r = None
  /\ bestValue r = Some NegInfinity
  /\ moveEvaluations r = map (fun m => (m, NaN)) [0; 1; 2; 3; 4; 5; 6; 7; 8]%nat
  /\ ~ (exists m, bestMove r = Some m /\ m ∈ getLegalMoves createEmptyBoard).
Proof.
  intros ev r.
  assert (H : bestMove r = None) by (vm_compute; reflexivity).
  split; [reflexivity|]. split; [exact H|].
  split; [vm_compute; reflexivity|]. split; [vm_compute; reflexivity|].
  intros (m & Hm & _). rewrite H in Hm. discriminate.
Qed.



(** C8, as the code has it.  [makeMove] returns a board that holds the mark
    at the move index and agrees with the input everywhere else (past the end
    of the input it grows the array); it makes no check of the target cell and
    never fails: on an occupied cell the mark is overwritten.  It agrees with
    the [applyMove] of the specification exactly when that one succeeds, that
    is on the moves of [getLegalMoves]. *)
Theorem makeMove_sets_cell_without_check (b : board) (position : nat) (player : mark) :
  cellAt (makeMove b position player) position = Mark player
  /\ (forall j, j ≠ position -> cellAt (makeMove b position player) j = cellAt b j)
  /\ length (makeMove b position player) = (length b `max` S position)%nat
  /\ (forall nb, applyMove_spec b position player = MoveOk nb ->
        position ∈ getLegalMoves b /\ makeMove b position player = nb)
  /\ (position ∈ getLegalMoves b ->
        applyMove_spec b position player = MoveOk (makeMove b position player)).
Proof.
  split; [apply cellAt_makeMove_eq|].
  split; [intros j Hj; by apply cellAt_makeMove_ne|].
  split; [apply length_makeMove|]. unfold applyMove_spec. split.
  - intros nb. case_decide as Hc; [|done]. intros [= <-].
    split; [by apply elem_of_getLegalMoves|].
    unfold makeMove. rewrite decide_True; [done|]. by eapply lookup_lt_Some.
  - intros Hin. pose proof (getLegalMoves_lt_length _ _ Hin).
    apply elem_of_getLegalMoves in Hin. rewrite decide_True by done.
    unfold makeMove. by rewrite decide_True.
Qed.

Lemma makeMove_sets_cell_without_check_witness :
  (4%nat ≠ 0%nat)
  /\ cellAt (makeMove createEmptyBoard 0 X) 4 = cellAt createEmptyBoard 4.
Proof.
  split; [discriminate|].
  destruct (makeMove_sets_cell_without_check createEmptyBoard 0 X) as (_ & H & _).
  apply H. discriminate.
Defined.

(** C8, as stated, fails: on an occupied cell [makeMove] does not fail and
    does not leave the board as it was; it returns the board with the mark
    replaced, where the specification's [applyMove] reports [InvalidMove]. *)
Lemma makeMove_overwrites_occupied_cell :
  let b := [Mark X; Null; Null; Null; Null; Null; Null; Null; Null] in
  cellAt b 0 = Mark X
  /\ applyMove_spec b 0 O = InvalidMove
  /\ makeMove b 0 O = [Mark O; Null; Null; Null; Null; Null; Null; Null; Null]
  /\ makeMove b 0 O ≠ b
  /\ MoveOk (makeMove b 0 O) ≠ applyMove_spec b 0 O.
Proof. repeat split; discriminate. Qed.

(** ** Full-depth search does not reach the evaluator *)

Lemma alphaBetaFuel_ev_indep ai (ev1 ev2 : evaluator) maxDepth fuel :
  forall b depth alpha beta isMaximizing,
  Z.of_nat (countNull b) + depth ≤ maxDepth ->
  alphaBetaFuel fuel b depth alpha beta isMaximizing ai ev1 maxDepth
  = alphaBetaFuel fuel b depth alpha beta isMaximizing ai ev2 maxDepth.
Proof.
  induction fuel as [|fuel IH]; intros b depth alpha beta isMax Hd; simpl.
  - destruct (terminal (isTerminal b)) eqn:Ht; [done|].
    case_bool_decide; [|done].
    destruct (nonterminal_has_move _ Ht) as [i Hi].
    pose proof (countNull_makeMove b i X Hi). lia.
  - destruct (terminal (isTerminal b)) eqn:Ht; [done|].
    case_bool_decide.
    { destruct (nonterminal_has_move _ Ht) as [i Hi].
      pose proof (countNull_makeMove b i X Hi). lia. }
    destruct isMax.
    + apply maximizeOver_ext. intros move a Hin.
      pose proof (countNull_makeMove b move ai Hin). apply IH. lia.
    + apply minimizeOver_ext. intros move bt Hin.
      pose proof (countNull_makeMove b move (getOpponent ai) Hin). apply IH. lia.
Qed.

Lemma findBestMove_ev_indep b ai (ev1 ev2 : evaluator) maxDepth :
  Z.of_nat (countNull b) ≤ maxDepth + 1 ->
  findBestMove b ai ev1 maxDepth = findBestMove b ai ev2 maxDepth.
Proof.
  intros Hd. unfold findBestMove. apply fold_left_ext_in.
  intros st move Hin. unfold rootStep, rootValue, alphaBetaSearch.
  pose proof (countNull_makeMove b move ai Hin).
  rewrite (alphaBetaFuel_ev_indep ai ev1 ev2) by lia. done.
Qed.

Lemma zeroEval_finite ai : alwaysFinite zeroEval ai.
Proof. intros b _. by eexists. Qed.

Lemma length_makeMove_legal (b : board) m player :
  m ∈ getLegalMoves b -> length (makeMove b m player) = length b.
Proof.
  intros Hin%getLegalMoves_lt_length. rewrite length_makeMove. lia.
Qed.

Lemma nonterminal_winner (b : board) :
  terminal (isTerminal b) = false -> winner (isTerminal b) = None.
Proof.
  unfold isTerminal. destruct (checkWinner b) as [[m l]|]; [done|].
  by destruct (isBoardFull b).
Qed.

Lemma terminal_winner (b : board) :
  terminal (isTerminal b) = true ->
  exists m, winner (isTerminal b) = Some (WinnerIs m)
            \/ winner (isTerminal b) = Some WinnerDraw.
Proof.
  unfold isTerminal. destruct (checkWinner b) as [[m l]|]; [by exists m; left|].
  destruct (isBoardFull b); [|done]. exists X. by right.
Qed.

(** ** Exhaustive play *)

Lemma safePlay_sound ai ev (p q : position) :
  rtc (playStep ai ev 9) p q ->
  forall fuel, length p.2 = 9%nat -> safePlay fuel ai p.1 p.2 = true ->
  notLost ai q.2 = true /\ length q.2 = 9%nat.
Proof.
  induction 1 as [[t b]|[t b] [t' b'] r Hstep _ IH]; intros fuel Hlen Hsafe;
    simpl in *.
  - split; [|done]. destruct fuel; simpl in Hsafe;
      destruct (terminal (isTerminal b)) eqn:Ht; try done;
      unfold notLost; by rewrite (nonterminal_winner _ Ht).
  - inversion Hstep as [b0 m Ht Hbest|b0 m Ht Hin]; subst.
    + destruct fuel as [|fuel]; simpl in Hsafe; rewrite Ht in Hsafe; [done|].
      rewrite (findBestMove_ev_indep b ai ev zeroEval) in Hbest.
      2:{ pose proof (countNull_le_length b). lia. }
      rewrite Hbest in Hsafe. apply (IH fuel); [|done].
      apply findBestMove_legal in Hbest. by rewrite length_makeMove_legal.
    + destruct fuel as [|fuel]; simpl in Hsafe; rewrite Ht in Hsafe; [done|].
      rewrite forallb_forall in Hsafe. apply (IH fuel).
      * by rewrite length_makeMove_legal.
      * apply Hsafe. by apply list_elem_of_In.
Qed.

Lemma safePlay_from_empty_board :
  forallb (fun ai => forallb (fun first => safePlay 9 ai first createEmptyBoard)
                       [true; false]) [X; O] = true.
Proof. vm_compute. reflexivity. Qed.

(** C2.  With [findBestMove] at depth limit 9 as the policy of one side,
    whichever mark it plays, whoever moves first and whatever the evaluator,
    every board reached from the empty board against any sequence of legal
    replies is not a win of the opponent: a terminal board reached is a win of
    the searching side or a draw.  The policy never gets stuck: on a reached
    board that is not terminal it returns a legal move. *)
Theorem full_depth_search_never_loses
    (ai : mark) (ev : evaluator) (aiFirst toMove : bool) (b : board)
    (Hplay : rtc (playStep ai ev 9) (aiFirst, createEmptyBoard) (toMove, b)) :
  winner (isTerminal b) ≠ Some (WinnerIs (getOpponent ai))
  /\ (terminal (isTerminal b) = true ->
      winner (isTerminal b) = Some (WinnerIs ai)
      \/ winner (isTerminal b) = Some WinnerDraw)
  /\ (terminal (isTerminal b) = false ->
      exists m, bestMove (findBestMove b ai ev 9) = Some m
                /\ m ∈ getLegalMoves b).
Proof.
  assert (Hsafe : safePlay 9 ai aiFirst createEmptyBoard = true).
  { pose proof safePlay_from_empty_board as H.
    rewrite forallb_forall in H. specialize (H ai).
    rewrite forallb_forall in H. apply H; destruct ai, aiFirst; simpl; auto. }
  destruct (safePlay_sound ai ev _ _ Hplay 9%nat eq_refl Hsafe) as [Hnl Hlen].
  simpl in Hnl, Hlen. unfold notLost in Hnl.
  apply negb_true_iff, bool_decide_eq_false in Hnl.
  split; [done|]. split.
  - intros Ht. destruct (terminal_winner _ Ht) as [m [Hm|Hm]]; [|by right].
    left. rewrite Hm. destruct m, ai; try done; by rewrite Hm in Hnl.
  - intros Ht. destruct (nonterminal_has_move _ Ht) as [i Hi].
    rewrite (findBestMove_ev_indep b ai ev zeroEval).
    2:{ pose proof (countNull_le_length b). lia. }
    destruct (findBestMove_first_best b ai zeroEval 9) as (m & Hm & Hin & _).
    { intros m _. apply rootValue_finite, zeroEval_finite. }
    { intros E. rewrite E in Hi. by apply elem_of_nil in Hi. }
    by exists m.
Qed.

Lemma full_depth_search_never_loses_witness :
  let final := [Mark X; Mark O; Mark O; Mark X; Null; Null; Mark X; Null; Null] in
  rtc (playStep X zeroEval 9) (true, createEmptyBoard) (false, final)
  /\ winner (isTerminal final) ≠ Some (WinnerIs (getOpponent X)).
Proof.
  assert (H : rtc (playStep X zeroEval 9) (true, createEmptyBoard)
                (false, [Mark X; Mark O; Mark O; Mark X; Null; Null; Mark X; Null; Null])).
  { apply (rtc_l _ _ (false, [Mark X; Null; Null; Null; Null; Null; Null; Null; Null])).
    { refine (play_ai X zeroEval 9 createEmptyBoard 0 _ _); vm_compute; reflexivity. }
    apply (rtc_l _ _ (true, [Mark X; Mark O; Null; Null; Null; Null; Null; Null; Null])).
    { refine (play_opponent X zeroEval 9
                [Mark X; Null; Null; Null; Null; Null; Null; Null; Null] 1 _ _).
      - vm_compute; reflexivity.
      - apply elem_of_getLegalMoves. reflexivity. }
    apply (rtc_l _ _ (false, [Mark X; Mark O; Null; Mark X; Null; Null; Null; Null; Null])).
    { refine (play_ai X zeroEval 9
                [Mark X; Mark O; Null; Null; Null; Null; Null; Null; Null] 3 _ _);
        vm_compute; reflexivity. }
    apply (rtc_l _ _ (true, [Mark X; Mark O; Mark O; Mark X; Null; Null; Null; Null; Null])).
    { refine (play_opponent X zeroEval 9
                [Mark X; Mark O; Null; Mark X; Null; Null; Null; Null; Null] 2 _ _).
      - vm_compute; reflexivity.
      - apply elem_of_getLegalMoves. reflexivity. }
    apply (rtc_l _ _ (false, [Mark X; Mark O; Mark O; Mark X; Null; Null; Mark X; Null; Null])).
    { refine (play_ai X zeroEval 9
                [Mark X; Mark O; Mark O; Mark X; Null; Null; Null; Null; Null] 6 _ _);
        vm_compute; reflexivity. }
    apply rtc_refl. }
  split; [exact H|].
  apply (full_depth_search_never_loses X zeroEval true false _ H).
Defined.
(** ** The linear evaluators *)

Lemma clampScore_range (score : Qc) :
  (Qc_of_Z (-90) ≤ clampScore score ≤ Qc_of_Z 90)%Qc.
Proof.
  assert (H90 : (Qc_of_Z (-90) ≤ Qc_of_Z 90)%Qc)
    by by apply (proj1 (Z2Qc_inj_le _ _)).
  unfold clampScore, Qc_max, Qc_min.
  repeat case_bool_decide; split; try done; try reflexivity;
    by apply Qclt_le_weak, Qclt_nge.
Qed.

Lemma mlEvaluate_trained_nonterminal b player :
  terminal (isTerminal b) = false ->
  exists score, MlEvalTrained.mlEvaluate b player = clampScore score.
Proof.
  intros H. unfold MlEvalTrained.mlEvaluate. rewrite H. cbv zeta. eexists. reflexivity.
Qed.

Lemma clamped_below_sentinel (v : Qc) (depth : Z) :
  (Qc_of_Z (-90) ≤ v ≤ Qc_of_Z 90)%Qc -> (0 ≤ depth ≤ 9)%Z ->
  (Qc_of_Z (depth - 100) < v < Qc_of_Z (100 - depth))%Qc.
Proof.
  intros [Hlo Hhi] Hd. split.
  - eapply Qclt_le_trans; [|exact Hlo]. apply (proj1 (Z2Qc_inj_lt _ _)). lia.
  - eapply Qcle_lt_trans; [exact Hhi|]. apply (proj1 (Z2Qc_inj_lt _ _)). lia.
Qed.

(** ** Where the values of a search come from *)

Lemma js_max_cases a b : js_max a b = a \/ js_max a b = b.
Proof.
  destruct a as [a|], b as [b|]; simpl; auto.
  unfold Math_max. destruct (num_leb a b); auto.
Qed.

Lemma js_min_cases a b : js_min a b = a \/ js_min a b = b.
Proof.
  destruct a as [a|], b as [b|]; simpl; auto.
  unfold Math_min. destruct (num_leb a b); auto.
Qed.

Lemma js_max_NegInfinity x : js_max (Some NegInfinity) x = x.
Proof. by destruct x. Qed.

Lemma js_min_Infinity x : js_min (Some Infinity) x = x.
Proof. by destruct x as [[]|]. Qed.

Lemma maximizeOver_leaf (Q : number -> Prop) child b ai beta moves :
  (forall move a, move ∈ moves -> Q (child (makeMove b move ai) a)) ->
  forall m a, m = Some NegInfinity \/ Q m -> moves ≠ [] \/ Q m ->
  Q (maximizeOver child b ai beta moves m a).
Proof.
  induction moves as [|mv rest IH]; intros H m a Hm Hne; cbn [maximizeOver].
  - by destruct Hne.
  - assert (Hq : Q (js_max m (child (makeMove b mv ai) a))).
    { destruct Hm as [->|Hm].
      - rewrite js_max_NegInfinity. apply H, list_elem_of_here.
      - destruct (js_max_cases m (child (makeMove b mv ai) a)) as [->| ->];
          [done|apply H, list_elem_of_here]. }
    destruct (js_leb beta _); [done|].
    apply IH; [|by right|by right].
    intros move a' Hin. apply H. by apply list_elem_of_further.
Qed.

Lemma minimizeOver_leaf (Q : number -> Prop) child b opp alpha moves :
  (forall move bt, move ∈ moves -> Q (child (makeMove b move opp) bt)) ->
  forall m bt, m = Some Infinity \/ Q m -> moves ≠ [] \/ Q m ->
  Q (minimizeOver child b opp alpha moves m bt).
Proof.
  induction moves as [|mv rest IH]; intros H m bt Hm Hne; cbn [minimizeOver].
  - by destruct Hne.
  - assert (Hq : Q (js_min m (child (makeMove b mv opp) bt))).
    { destruct Hm as [->|Hm].
      - rewrite js_min_Infinity. apply H, list_elem_of_here.
      - destruct (js_min_cases m (child (makeMove b mv opp) bt)) as [->| ->];
          [done|apply H, list_elem_of_here]. }
    destruct (js_leb _ alpha); [done|].
    apply IH; [|by right|by right].
    intros move bt' Hin. apply H. by apply list_elem_of_further.
Qed.

(** The value of a search is the score of a terminal node below the root, at
    a depth between the depth of the root and that depth plus the number of
    [null] slots of the root, or the value of the evaluator on a non-terminal
    board of the length of the root. *)
Lemma alphaBetaFuel_leaf (Q : number -> Prop) ai ev maxDepth fuel :
  forall b depth alpha beta isMaximizing,
  (countNull b <= fuel)%nat ->
  (forall b' d, depth ≤ d ≤ depth + Z.of_nat (countNull b) ->
     terminal (isTerminal b') = true -> Q (terminalScore (isTerminal b') ai d)) ->
  (forall b', length b' = length b -> terminal (isTerminal b') = false ->
     Q (ev b' ai)) ->
  Q (alphaBetaFuel fuel b depth alpha beta isMaximizing ai ev maxDepth).
Proof.
  induction fuel as [|fuel IH]; intros b depth alpha beta isMax Hfuel Hterm Hev;
    simpl.
  - destruct (terminal (isTerminal b)) eqn:Ht; [apply Hterm; [lia|done]|].
    case_bool_decide; [by apply Hev|].
    destruct (nonterminal_has_move _ Ht) as [i Hi].
    pose proof (countNull_makeMove b i X Hi). lia.
  - destruct (terminal (isTerminal b)) eqn:Ht; [apply Hterm; [lia|done]|].
    case_bool_decide; [by apply Hev|].
    destruct (nonterminal_has_move _ Ht) as [i Hi].
    assert (Hne : getLegalMoves b ≠ []).
    { intros E. rewrite E in Hi. by apply elem_of_nil in Hi. }
    destruct isMax.
    + apply maximizeOver_leaf; [|by left|by left].
      intros move a Hin. pose proof (countNull_makeMove b move ai Hin).
      apply IH; [lia| |].
      * intros b' d Hd. apply Hterm. lia.
      * intros b' Hlen. apply Hev. by rewrite Hlen, length_makeMove_legal.
    + apply minimizeOver_leaf; [|by left|by left].
      intros move bt Hin.
      pose proof (countNull_makeMove b move (getOpponent ai) Hin).
      apply IH; [lia| |].
      * intros b' d Hd. apply Hterm. lia.
      * intros b' Hlen. apply Hev. by rewrite Hlen, length_makeMove_legal.
Qed.

Lemma terminalScore_bands ts ai d :
  (0 ≤ d ≤ 8)%Z -> scoreBands (terminalScore ts ai d).
Proof.
  intros Hd. unfold terminalScore, scoreBands. repeat case_decide; eexists; split;
    try done.
  - right; left. split; apply (proj1 (Z2Qc_inj_le _ _)); lia.
  - right; right. split; apply (proj1 (Z2Qc_inj_le _ _)); lia.
  - left. split; by apply (proj1 (Z2Qc_inj_le _ _)).
Qed.

Lemma extractDatasetFeatures_length b player :
  length (extractDatasetFeatures b player) = 6%nat.
Proof.
  unfold extractDatasetFeatures. by destruct (fold_left _ _ _).
Qed.

Lemma extractDatasetFeatures_center b player :
  feature (extractDatasetFeatures b player) 4 = 0
  \/ feature (extractDatasetFeatures b player) 4 = 1.
Proof.
  unfold extractDatasetFeatures. destruct (fold_left _ _ _).
  unfold feature. simpl. case_decide; auto.
Qed.

(** What [adjustFeaturesForPlayer] puts in the center slot for O. *)
Lemma adjustFeaturesForPlayer_center (fs : list Z) :
  feature (adjustFeaturesForPlayer fs O) 4
  = (if decide (feature fs 4 = 1) then 0
     else if bool_decide (feature fs 4 = 0 /\ 1 ≤ feature fs 0 + feature fs 1)
          then 1 else 0).
Proof. done. Qed.

(** C6, as the code has it.  For every board and the dataset-format vector
    [fs] of its features: the array [flipped] with which [mlEvaluate] scores
    for O swaps components 0 and 1 and components 2 and 3 and passes the
    center component 4 and the corner component 5 through; the function
    [adjustFeaturesForPlayer] makes the same two swaps and passes the corner
    component through, but it does not pass the center component through: it
    puts a 0 or a 1 there, and a 0 whenever X holds the center; for X it
    returns the vector as it is. *)
Theorem perspective_flip_components (b : board) (player : mark) :
  let fs := extractDatasetFeatures b player in
  flipped fs
  = [feature fs 1; feature fs 0; feature fs 3; feature fs 2; feature fs 4; feature fs 5]
  /\ length (flipped fs) = length fs
  /\ adjustFeaturesForPlayer fs X = fs
  /\ (forall i, i ≠ 4%nat ->
        feature (adjustFeaturesForPlayer fs O) i = feature (flipped fs) i)
  /\ (feature (adjustFeaturesForPlayer fs O) 4 = 0
      \/ feature (adjustFeaturesForPlayer fs O) 4 = 1)
  /\ (feature fs 4 = 1 -> feature (adjustFeaturesForPlayer fs O) 4 = 0).
Proof.
  intros fs. split; [done|].
  pose proof (extractDatasetFeatures_length b player) as Hlen. fold fs in Hlen.
  split; [by rewrite Hlen|].
  split; [done|]. split; [|split].
  - intros i Hi. do 6 (destruct i as [|i]; [done|]). done.
  - rewrite adjustFeaturesForPlayer_center. repeat case_match; auto.
  - intros H4. rewrite adjustFeaturesForPlayer_center. by rewrite decide_True.
Qed.

Lemma perspective_flip_components_witness :
  let b := [Null; Mark X; Null; Null; Mark X; Null; Mark O; Null; Null] in
  let fs := extractDatasetFeatures b O in
  feature fs 4 = 1
  /\ feature (adjustFeaturesForPlayer fs O) 4 = 0.
Proof.
  split; [reflexivity|].
  destruct (perspective_flip_components
              [Null; Mark X; Null; Null; Mark X; Null; Mark O; Null; Null] O)
    as (_ & _ & _ & _ & _ & H).
  apply H. reflexivity.
Defined.

(** C6, as stated, fails for [adjustFeaturesForPlayer]: with a single X on an
    edge the center component of the X-perspective vector is 0, and the
    O-perspective vector has 1 there. *)
Lemma adjustFeaturesForPlayer_changes_center :
  let b := [Null; Mark X; Null; Null; Null; Null; Null; Null; Null] in
  let fs := extractDatasetFeatures b O in
  fs = [1; 0; 0; 0; 0; 0]
  /\ adjustFeaturesForPlayer fs O = [0; 1; 0; 0; 1; 0]
  /\ feature (adjustFeaturesForPlayer fs O) 4 ≠ feature fs 4.
Proof. repeat split; discriminate. Qed.

(** ** Loops that update an array slot by slot *)

Lemma fold_update_seq {A} (d : A) (h : nat -> A -> A) (l pre : list A) :
  fold_left (fun acc j => <[j := h j (default d (acc !! j))]> acc)
    (seq (length pre) (length l)) (pre ++ l)
  = pre ++ imap (fun j x => h (length pre + j)%nat x) l.
Proof.
  revert pre. induction l as [|x l IH]; intros pre; [done|].
  simpl. rewrite list_lookup_middle by done. simpl.
  rewrite insert_app_r_alt by lia. rewrite Nat.sub_diag. simpl.
  rewrite (cons_middle _ pre l), app_assoc.
  replace (S (length pre)) with (length (pre ++ [h (length pre) x]))
    by (rewrite length_app; simpl; lia).
  rewrite IH, <- app_assoc. simpl. rewrite Nat.add_0_r. do 2 f_equal.
  apply imap_ext. intros j y _. simpl. rewrite length_app. simpl.
  f_equal. lia.
Qed.

Lemma fold_left_fmap {A B C} (f : A -> C -> A) (g : B -> C) (l : list B) a :
  fold_left f (g <$> l) a = fold_left (fun a x => f a (g x)) l a.
Proof. revert a. induction l as [|x l IH]; intros a; simpl; [done|apply IH]. Qed.

Lemma numAt_cons_succ x (l : list number) j : numAt (x :: l) (j + 1) = numAt l j.
Proof. by rewrite Nat.add_1_r. Qed.

(** The loop over the feature gradients of one sample. *)
Lemma gradient_loop (c : nat -> number) g0 (gs : list number) :
  fold_left (fun g j => <[(j + 1)%nat := js_add (numAt g (j + 1)) (c j)]> g)
    (seq 0 (length gs)) (g0 :: gs)
  = g0 :: imap (fun j gj => js_add gj (c j)) gs.
Proof.
  pose proof (fold_update_seq NaN (fun j x => js_add x (c (j - 1)%nat)) gs [g0]) as H.
  simpl in H. rewrite <- fmap_S_seq, fold_left_fmap in H.
  etrans; [|etrans; [exact H|]].
  - apply fold_left_ext_in. intros g j _. rewrite Nat.add_1_r. simpl.
    by rewrite Nat.sub_0_r.
  - f_equal. apply imap_ext. intros j x _. simpl. by rewrite Nat.sub_0_r.
Qed.

Lemma js_add_zero_r (a : number) : js_add a (ofQc 0%Qc) = a.
Proof.
  destruct a as [[|q|]|]; simpl; try done.
  unfold ofQc. by rewrite Qcplus_0_r.
Qed.

Lemma sumOver_succ k f : sumOver (S k) f = js_add (sumOver k f) (f k).
Proof. unfold sumOver. rewrite seq_S, fold_left_app. done. Qed.

Lemma replicate_as_map {A} (x : A) n : replicate n x = (fun _ => x) <$> seq 0 n.
Proof.
  apply list_eq. intros i. rewrite list_lookup_fmap.
  destruct (decide (i < n)%nat) as [Hi|Hi].
  - rewrite lookup_replicate_2 by done. by rewrite lookup_seq_lt.
  - rewrite (lookup_ge_None_2 (replicate n x)) by (rewrite length_replicate; lia).
    rewrite lookup_seq_ge by lia. done.
Qed.

(** The state of the loop over the samples after [k] samples: the sums of the
    squared errors, of the errors and of the errors times each feature. *)
Lemma sample_loop_sums XX y ws n (k : nat) :
  let e i := js_sub (predictWith ws (rowAt XX i) n) (numAt y i) in
  fold_left (sampleStep XX y ws n) (seq 0 k)
    (ofQc 0%Qc, replicate (n + 1) (ofQc 0%Qc))
  = ( sumOver k (fun i => js_mul (e i) (e i)),
      sumOver k e
      :: ((fun j => sumOver k (fun i => js_mul (e i) (numAt (rowAt XX i) j)))
          <$> seq 0 n) ).
Proof.
  intros e. induction k as [|k IH].
  - simpl. rewrite Nat.add_1_r. simpl. by rewrite replicate_as_map.
  - rewrite seq_S, fold_left_app, IH. simpl.
    unfold sampleStep. fold (e k).
    set (gs := (fun j => sumOver k (fun i => js_mul (e i) (numAt (rowAt XX i) j)))
               <$> seq 0 n).
    assert (Hlen : length gs = n) by (subst gs; by rewrite length_fmap, length_seq).
    change (numAt (sumOver k e :: gs) 0) with (sumOver k e).
    rewrite <- Hlen at 1. rewrite gradient_loop.
    rewrite !sumOver_succ. do 2 f_equal.
    subst gs. apply list_eq. intros j.
    rewrite list_lookup_imap, !list_lookup_fmap.
    destruct (seq 0 n !! j) as [j'|] eqn:Hj; simpl; [|done].
    apply lookup_seq in Hj as [-> _]. simpl. by rewrite sumOver_succ.
Qed.

Lemma predictWith_linear b (w x : list number) :
  predictWith (b :: w) x (length w) = linearPrediction b w x.
Proof.
  unfold predictWith, linearPrediction. apply fold_left_ext_in.
  intros acc j _. by rewrite numAt_cons_succ.
Qed.

Lemma updateWeights_imap lr reg m gradients ws :
  updateWeights lr reg m gradients ws
  = imap (fun j wj =>
            js_sub wj
              (js_mul lr
                 (js_add (js_div (numAt gradients j) m)
                    (if bool_decide (0 < j)%nat then js_mul reg wj else ofQc 0%Qc))))
      ws.
Proof.
  unfold updateWeights.
  exact (fold_update_seq NaN
           (fun j wj =>
              js_sub wj
                (js_mul lr
                   (js_add (js_div (numAt gradients j) m)
                      (if bool_decide (0 < j)%nat then js_mul reg wj else ofQc 0%Qc))))
           ws []).
Qed.

Lemma epochStep_spec XX y lr reg b (w : list number) :
  length w = length (rowAt XX 0) ->
  epochStep XX y lr reg (b :: w)
  = ( gdEpoch_array XX y lr reg (b :: w),
      js_div (sumOver (length XX)
                (fun i => js_mul (sampleError XX y b w i) (sampleError XX y b w i)))
             (ofNat (length XX)) ).
Proof.
  intros Hlen. unfold epochStep. rewrite <- Hlen.
  rewrite sample_loop_sums. cbv zeta.
  assert (He : forall i, js_sub (predictWith (b :: w) (rowAt XX i) (length w)) (numAt y i)
                         = sampleError XX y b w i).
  { intros i. unfold sampleError. by rewrite predictWith_linear. }
  f_equal.
  - rewrite updateWeights_imap. unfold gdEpoch_array, gdEpoch_spec.
    rewrite imap_cons. simpl. f_equal.
    + rewrite js_add_zero_r. do 3 f_equal.
      unfold sumOver. apply fold_left_ext_in. intros acc i _. by rewrite He.
    + apply imap_ext. intros j wj Hj. simpl. do 4 f_equal.
      apply lookup_lt_Some in Hj.
      unfold numAt. simpl. rewrite list_lookup_fmap, lookup_seq_lt by done. simpl.
      unfold sumOver. apply fold_left_ext_in. intros acc i _. by rewrite He.
  - f_equal. unfold sumOver. apply fold_left_ext_in. intros acc i _. by rewrite !He.
Qed.

Lemma length_gdEpoch_array XX y lr reg ws :
  length (gdEpoch_array XX y lr reg ws) = length ws.
Proof. destruct ws as [|b w]; simpl; [done|]. by rewrite length_imap. Qed.

Lemma trainLoop_iterates XX y lr reg remaining :
  forall epoch ws h,
  length ws = S (length (rowAt XX 0)) ->
  (trainLoop XX y lr reg remaining epoch ws h).1
  = Nat.iter remaining (gdEpoch_array XX y lr reg) ws
  /\ length (losses (trainLoop XX y lr reg remaining epoch ws h).2)
     = (length (losses h) + remaining)%nat.
Proof.
  induction remaining as [|r IH]; intros epoch ws h Hlen.
  - simpl. split; [done|lia].
  - destruct ws as [|b w]; [done|]. injection Hlen as Hlen.
    cbn [trainLoop]. rewrite epochStep_spec by done.
    rewrite Nat.iter_succ_r.
    edestruct (IH (S epoch) (gdEpoch_array XX y lr reg (b :: w))) as [H1 H2].
    { by rewrite length_gdEpoch_array; simpl; rewrite Hlen. }
    split; [apply H1|]. rewrite H2. simpl. rewrite length_app. simpl. lia.
Qed.

Lemma length_initialWeights random n : length (initialWeights random n) = S n.
Proof. unfold initialWeights. rewrite length_fmap, length_seq. lia. Qed.

(** C7.  One epoch of [trainLinearModel] computes the prediction error of
    every one of the [m] samples under the weights the epoch starts with, and
    then replaces the bias by [bias - lr * (gradient / m)] and every other
    weight by [weight - lr * (gradient / m + regularization * weight)], where
    the gradients are the accumulated errors (for the bias) and the
    accumulated products of error and feature (for a weight); the loss of the
    epoch is the mean of the squared errors.  The weights [trainLinearModel]
    returns are those of [epochs] such epochs from the initial weights
    (the option is called [regularization] in the code). *)
Theorem trainLinearModel_epoch_update
    (XX : list (list number)) (y : list number) (lr reg b : number)
    (w : list number) (Hw : length w = length (rowAt XX 0)) :
  let m := length XX in
  let err := sampleError XX y b w in
  let gradientBias := sumOver m err in
  let gradientWeight j := sumOver m (fun i => js_mul (err i) (numAt (rowAt XX i) j)) in
  (epochStep XX y lr reg (b :: w)).1
  = js_sub b (js_mul lr (js_div gradientBias (ofNat m)))
    :: imap (fun j wj =>
               js_sub wj
                 (js_mul lr (js_add (js_div (gradientWeight j) (ofNat m))
                                    (js_mul reg wj))))
         w
  /\ (epochStep XX y lr reg (b :: w)).2
     = js_div (sumOver m (fun i => js_mul (err i) (err i))) (ofNat m)
  /\ (forall random options, XX ≠ [] ->
        exists model,
          trainLinearModel random XX y options = Some model
          /\ ModelTrainer.weights model
             = Nat.iter (default 1000%nat (epochs options))
                 (gdEpoch_array XX y
                    (default (ofQc (Q2Qc (1 # 100))) (learningRate options))
                    (default (ofQc (Q2Qc (1 # 1000))) (regularization options)))
                 (initialWeights random (length (rowAt XX 0)))
          /\ length (losses (history model))
             = default 1000%nat (epochs options)).
Proof.
  intros m err gradientBias gradientWeight.
  rewrite epochStep_spec by done. simpl. split; [done|]. split; [done|].
  intros random options Hne. destruct XX as [|first rest]; [done|].
  unfold trainLinearModel.
  pose proof (trainLoop_iterates (first :: rest) y
                (default (ofQc (Q2Qc (1 # 100))) (learningRate options))
                (default (ofQc (Q2Qc (1 # 1000))) (regularization options))
                (default 1000%nat (epochs options)) 0
                (initialWeights random (length first)) (mkTrainHistory [] [])
                (length_initialWeights random (length first))) as [H1 H2].
  cbv zeta. destruct (trainLoop _ _ _ _ _ _ _ _) as [ws h].
  eexists. split; [done|]. simpl in *. by split.
Qed.

Lemma trainLinearModel_epoch_update_witness :
  let XX := [[ofQc 1%Qc]; [ofQc 2%Qc]] in
  let y := [ofQc 1%Qc; ofQc (-1)%Qc] in
  length [ofQc 0%Qc] = length (rowAt XX 0)
  /\ (epochStep XX y (ofQc 1%Qc) (ofQc 0%Qc) [ofQc 0%Qc; ofQc 0%Qc]).2
     = js_div (sumOver 2 (fun i => js_mul (sampleError XX y (ofQc 0%Qc) [ofQc 0%Qc] i)
                                     (sampleError XX y (ofQc 0%Qc) [ofQc 0%Qc] i)))
              (ofNat 2).
Proof.
  split; [reflexivity|].
  destruct (trainLinearModel_epoch_update
              [[ofQc 1%Qc]; [ofQc 2%Qc]] [ofQc 1%Qc; ofQc (-1)%Qc]
              (ofQc 1%Qc) (ofQc 0%Qc) (ofQc 0%Qc) [ofQc 0%Qc] eq_refl)
    as (_ & H & _).
  exact H.
Defined.

(** ** Min-max normalisation *)

Lemma js_min_ofQc a b : js_min (ofQc a) (ofQc b) = ofQc (Qc_min a b).
Proof.
  unfold ofQc, Qc_min. rewrite js_min_Some. unfold Math_min. simpl.
  by destruct (bool_decide (a ≤ b)%Qc).
Qed.

Lemma js_max_ofQc a b : js_max (ofQc a) (ofQc b) = ofQc (Qc_max a b).
Proof.
  unfold ofQc, Qc_max. rewrite js_max_Some. unfold Math_max. simpl.
  by destruct (bool_decide (a ≤ b)%Qc).
Qed.

Lemma Qc_min_spec a b :
  (Qc_min a b = a \/ Qc_min a b = b) /\ (Qc_min a b ≤ a)%Qc /\ (Qc_min a b ≤ b)%Qc.
Proof.
  unfold Qc_min. case_bool_decide as H.
  - split; [by left|]. split; [reflexivity|done].
  - split; [by right|]. split; [|reflexivity]. by apply Qclt_le_weak, Qclt_nge.
Qed.

Lemma Qc_max_spec a b :
  (Qc_max a b = a \/ Qc_max a b = b) /\ (a ≤ Qc_max a b)%Qc /\ (b ≤ Qc_max a b)%Qc.
Proof.
  unfold Qc_max. case_bool_decide as H.
  - split; [by right|]. split; [done|reflexivity].
  - split; [by left|]. split; [reflexivity|]. by apply Qclt_le_weak, Qclt_nge.
Qed.

Lemma ofQc_inj a b : ofQc a = ofQc b -> a = b.
Proof.
  intros H. apply (f_equal (fun x => match x with Some (Num q) => q | _ => 0%Qc end)) in H.
  exact H.
Qed.

Lemma elem_of_matrixItems (fss : list (list number)) j x :
  (j, x) ∈ matrixItems fss <-> exists row, row ∈ fss /\ row !! j = Some x.
Proof.
  unfold matrixItems. rewrite list_elem_of_In, in_concat. split.
  - intros (l & Hl & Hin). apply in_map_iff in Hl as (row & <- & Hrow).
    apply list_elem_of_In in Hin, Hrow.
    apply elem_of_lookup_imap_1 in Hin as (i & y & [= -> ->] & Hi).
    by exists row.
  - intros (row & Hrow & Hj). exists (imap pair row). split.
    + apply in_map_iff. exists row. split; [done|]. by apply list_elem_of_In.
    + apply list_elem_of_In, elem_of_lookup_imap. by exists j, x.
Qed.

Section RunningBounds.
Context (fc : nat).

Lemma tracks_initial :
  tracks fc (replicate fc (Some Infinity), replicate fc (Some NegInfinity)) [].
Proof.
  unfold tracks. simpl. rewrite !length_replicate.
  split; [done|]. split; [done|]. intros j Hj. left.
  rewrite !lookup_replicate_2 by done. split; [done|]. split; [done|].
  intros x Hx. by apply elem_of_nil in Hx.
Qed.

Lemma trackMinMax_step st items i (q : Qc) :
  tracks fc st items -> (i < fc)%nat ->
  tracks fc (trackMinMax st (i, ofQc q)) (items ++ [(i, ofQc q)]).
Proof.
  destruct st as [mins maxs]. intros (Hl1 & Hl2 & Hcols) Hi. simpl in *.
  unfold tracks, arraySet. rewrite !decide_True by lia. simpl.
  rewrite !length_insert. split; [done|]. split; [done|].
  intros j Hj. destruct (decide (j = i)) as [->|Hne].
  - rewrite !list_lookup_insert_eq by lia. right.
    destruct (Hcols i Hi) as [(Hmin & Hmax & Hno)|(lo & hi & Hmin & Hmax & Hlo & Hhi & Hb)];
      unfold numAt; rewrite Hmin, Hmax; cbn [default from_option id].
    + rewrite js_min_Infinity, js_max_NegInfinity.
      exists q, q. split; [done|]. split; [done|].
      split; [apply elem_of_app; right; apply list_elem_of_here|].
      split; [apply elem_of_app; right; apply list_elem_of_here|].
      intros q' [Hin|Hin]%elem_of_app; [by apply Hno in Hin|].
      apply list_elem_of_singleton in Hin. unfold ofQc in Hin.
      assert (q' = q) as -> by congruence. split; reflexivity.
    + rewrite js_min_ofQc, js_max_ofQc.
      destruct (Qc_min_spec lo q) as ([El|El] & Hl_lo & Hl_q);
        destruct (Qc_max_spec hi q) as ([Eh|Eh] & Hh_hi & Hh_q);
        exists (Qc_min lo q), (Qc_max hi q);
        (split; [done|]); (split; [done|]);
        (split; [rewrite El; apply elem_of_app;
                 first [by left | right; apply list_elem_of_here]|]);
        (split; [rewrite Eh; apply elem_of_app;
                 first [by left | right; apply list_elem_of_here]|]);
        intros q' [Hin|Hin]%elem_of_app.
      all: try (destruct (Hb q' Hin) as [H1 H2]; split;
                [eapply Qcle_trans; [exact Hl_lo|exact H1]
                |eapply Qcle_trans; [exact H2|exact Hh_hi]]).
      all: apply list_elem_of_singleton in Hin; unfold ofQc in Hin;
        assert (q' = q) as -> by congruence; by split.
  - rewrite !list_lookup_insert_ne by done.
    destruct (Hcols j Hj) as [(Hmin & Hmax & Hno)|(lo & hi & Hmin & Hmax & Hlo & Hhi & Hb)].
    + left. split; [done|]. split; [done|].
      intros x [Hin|Hin]%elem_of_app; [by apply Hno in Hin|].
      apply list_elem_of_singleton in Hin. congruence.
    + right. exists lo, hi. split; [done|]. split; [done|].
      split; [apply elem_of_app; by left|]. split; [apply elem_of_app; by left|].
      intros q' [Hin|Hin]%elem_of_app; [by apply Hb|].
      apply list_elem_of_singleton in Hin. congruence.
Qed.

Lemma trackMinMax_fold (row : list (nat * number)) :
  forall st items,
  tracks fc st items ->
  (forall i x, (i, x) ∈ row -> (i < fc)%nat /\ finiteNumber x) ->
  tracks fc (fold_left trackMinMax row st) (items ++ row).
Proof.
  induction row as [|[i x] row IH]; intros st items Htr Hrow; simpl.
  - by rewrite app_nil_r.
  - destruct (Hrow i x) as [Hi [q ->]]; [apply list_elem_of_here|].
    replace (items ++ (i, ofQc q) :: row) with ((items ++ [(i, ofQc q)]) ++ row)
      by by rewrite <- app_assoc.
    apply IH; [by apply trackMinMax_step|].
    intros i' x' Hin. apply Hrow. by apply list_elem_of_further.
Qed.

Lemma trackMinMax_samples (samples : list (list number)) :
  forall st items,
  tracks fc st items ->
  (forall row, row ∈ samples ->
     (length row <= fc)%nat /\ forall x, x ∈ row -> finiteNumber x) ->
  tracks fc
    (fold_left (fun st sample => fold_left trackMinMax (imap pair sample) st) samples st)
    (items ++ matrixItems samples).
Proof.
  induction samples as [|row samples IH]; intros st items Htr Hrows; simpl.
  - unfold matrixItems. simpl. by rewrite app_nil_r.
  - destruct (Hrows row) as [Hlen Hfin]; [apply list_elem_of_here|].
    unfold matrixItems. simpl. rewrite app_assoc.
    apply IH.
    + apply trackMinMax_fold; [done|].
      intros i x (j & y & [= -> ->] & Hj)%elem_of_lookup_imap_1.
      split; [apply lookup_lt_Some in Hj; lia|].
      apply Hfin. by eapply list_elem_of_lookup_2.
    + intros row' Hin. apply Hrows. by apply list_elem_of_further.
Qed.

End RunningBounds.

(** The least and the greatest value of every column of the first row are
    what [normalizeFeatures] records. *)
Lemma normalizeFeatures_bounds first rest :
  (forall row, row ∈ first :: rest ->
     (length row <= length first)%nat /\ forall x, x ∈ row -> finiteNumber x) ->
  exists mins maxs,
    normalizeFeatures (first :: rest)
    = Some (map (fun sample => imap (normalizeValue mins maxs) sample) (first :: rest),
            mins, maxs)
    /\ length mins = length first /\ length maxs = length first
    /\ forall j, (j < length first)%nat ->
         exists lo hi,
           mins !! j = Some (ofQc lo) /\ maxs !! j = Some (ofQc hi)
           /\ (exists row, row ∈ first :: rest /\ row !! j = Some (ofQc lo))
           /\ (exists row, row ∈ first :: rest /\ row !! j = Some (ofQc hi))
           /\ forall row v, row ∈ first :: rest -> row !! j = Some (ofQc v) ->
                (lo ≤ v)%Qc /\ (v ≤ hi)%Qc.
Proof.
  intros Hrows. unfold normalizeFeatures.
  pose proof (trackMinMax_samples (length first) (first :: rest) _ []
                (tracks_initial (length first)) Hrows) as Htr.
  rewrite app_nil_l in Htr.
  destruct (fold_left _ (first :: rest) _) as [mins maxs].
  destruct Htr as (Hl1 & Hl2 & Hcols). simpl in Hl1, Hl2, Hcols.
  exists mins, maxs. split; [done|]. split; [done|]. split; [done|].
  intros j Hj.
  destruct (Hcols j Hj) as [(_ & _ & Hno)|(lo & hi & Hmin & Hmax & Hlo & Hhi & Hb)].
  - exfalso. destruct (lookup_lt_is_Some_2 first j Hj) as [x Hx].
    apply (Hno x). apply elem_of_matrixItems. exists first.
    split; [apply list_elem_of_here|done].
  - exists lo, hi. split; [done|]. split; [done|].
    split; [by apply elem_of_matrixItems|]. split; [by apply elem_of_matrixItems|].
    intros row v Hrow Hv. apply Hb. apply elem_of_matrixItems. by exists row.
Qed.

(** A value between the bounds of its column is normalised to a number of
    [0, 1] from which the bounds give the value back. *)
Lemma normalizeValue_roundtrip mins maxs j (lo hi v : Qc) :
  mins !! j = Some (ofQc lo) -> maxs !! j = Some (ofQc hi) ->
  (lo ≤ v)%Qc -> (v ≤ hi)%Qc ->
  let nv := if decide (hi = lo) then 0%Qc else ((v - lo) / (hi - lo))%Qc in
  normalizeValue mins maxs j (ofQc v) = ofQc nv
  /\ denormalizeValue mins maxs j (ofQc nv) = ofQc v
  /\ (hi = lo -> lo = v).
Proof.
  intros Hmin Hmax Hlo Hhi nv. subst nv.
  unfold normalizeValue, denormalizeValue, numAt. rewrite Hmin, Hmax. simpl.
  case_bool_decide as Hrange.
  - assert (Hzero : (hi + - lo)%Qc = 0%Qc).
    { apply (f_equal (fun x => match x with Num q => q | _ => 0%Qc end)) in Hrange.
      exact Hrange. }
    assert (Heq : hi = lo).
    { transitivity ((hi + - lo) + lo)%Qc; [ring|]. rewrite Hzero. ring. }
    clear Hrange Hzero. subst hi. assert (lo = v) by by apply Qcle_antisym. subst v.
    rewrite decide_True by done. split; [done|]. split; [|done].
    unfold ofQc. do 2 f_equal. ring.
  - assert (Hne : (hi + - lo)%Qc ≠ 0%Qc) by (intros E; apply Hrange; by rewrite E).
    rewrite decide_False by done.
    rewrite decide_False by (intros ->; apply Hne; ring).
    split; [done|]. split.
    + unfold ofQc. do 2 f_equal. unfold Qcminus. by field.
    + intros ->. destruct Hne. ring.
Qed.

Lemma magnitude_range bound (lo hi : Qc) :
  (- bound ≤ lo)%Qc -> (hi ≤ bound)%Qc -> (hi - lo ≤ bound + bound)%Qc.
Proof.
  intros Hlo Hhi. unfold Qcminus. apply Qcplus_le_compat; [done|].
  apply Qcopp_le_compat in Hlo. by rewrite Qcopp_involutive in Hlo.
Qed.

(** C9.  For every non-empty matrix of finite numbers whose rows are not
    longer than its first row, and whose values are small enough for the
    range of a column not to exceed the largest number,
    [normalizeFeatures] returns for every column the least and the greatest
    of its values as [mins[j]] and [maxs[j]], and normalises a value [v] to
    [(v - mins[j]) / (maxs[j] - mins[j])], or to 0 where the two are equal;
    [normalized * (maxs[j] - mins[j]) + mins[j]] gives the value back
    (exactly, in exact arithmetic); in a column of one value only every
    value is normalised to 0, nothing is divided by zero, and [mins[j]] is
    the value. *)
Theorem normalizeFeatures_roundtrip
    (bound : Qc) (fss : list (list number)) (first : list number)
    (rest : list (list number))
    (Hnonempty : fss = first :: rest)
    (Hbound : (bound + bound ≤ MAX_VALUE)%Qc)
    (Hfinite : forall row x, row ∈ fss -> x ∈ row -> magnitudeAtMost bound x)
    (Hrows : forall row, row ∈ fss -> (length row <= length first)%nat) :
  exists normalized mins maxs,
    normalizeFeatures fss = Some (normalized, mins, maxs)
    /\ length normalized = length fss
    /\ length mins = length first /\ length maxs = length first
    /\ (forall j, (j < length first)%nat ->
          exists lo hi,
            mins !! j = Some (ofQc lo) /\ maxs !! j = Some (ofQc hi)
            /\ (exists row, row ∈ fss /\ row !! j = Some (ofQc lo))
            /\ (exists row, row ∈ fss /\ row !! j = Some (ofQc hi))
            /\ (forall row v, row ∈ fss -> row !! j = Some (ofQc v) ->
                  (lo ≤ v)%Qc /\ (v ≤ hi)%Qc)
            /\ (hi - lo ≤ MAX_VALUE)%Qc)
    /\ forall i j row v,
         fss !! i = Some row -> row !! j = Some (ofQc v) ->
         exists nrow lo hi,
           normalized !! i = Some nrow
           /\ length nrow = length row
           /\ mins !! j = Some (ofQc lo)
           /\ maxs !! j = Some (ofQc hi)
           /\ let nv := if decide (hi = lo) then 0%Qc
                        else ((v - lo) / (hi - lo))%Qc in
              nrow !! j = Some (ofQc nv)
              /\ denormalizeValue mins maxs j (ofQc nv) = ofQc v
              /\ (hi = lo -> nv = 0%Qc /\ ofQc lo = ofQc v)
              /\ ((forall row' v', row' ∈ fss -> row' !! j = Some (ofQc v') -> v' = v) ->
                  nv = 0%Qc /\ lo = v /\ hi = v).
Proof.
  subst fss.
  assert (Hfin : forall row, row ∈ first :: rest ->
            (length row <= length first)%nat /\ forall x, x ∈ row -> finiteNumber x).
  { intros row Hin. split; [by apply Hrows|].
    intros x Hx. destruct (Hfinite row x Hin Hx) as (q & -> & _). by exists q. }
  destruct (normalizeFeatures_bounds first rest Hfin)
    as (mins & maxs & Hrun & Hl1 & Hl2 & Hcols).
  eexists _, mins, maxs. split; [exact Hrun|]. split; [by rewrite length_map|].
  split; [done|]. split; [done|]. split.
  - intros j Hj.
    destruct (Hcols j Hj) as (lo & hi & Hmin & Hmax & Hlo & Hhi & Hb).
    exists lo, hi. do 5 (split; [done|]).
    eapply Qcle_trans; [|exact Hbound]. apply magnitude_range.
    + destruct Hlo as (row & Hrow & Hx).
      destruct (Hfinite row (ofQc lo) Hrow) as (q & Hq & Hq1 & _);
        [by eapply list_elem_of_lookup_2|].
      apply ofQc_inj in Hq. by subst q.
    + destruct Hhi as (row & Hrow & Hx).
      destruct (Hfinite row (ofQc hi) Hrow) as (q & Hq & _ & Hq2);
        [by eapply list_elem_of_lookup_2|].
      apply ofQc_inj in Hq. by subst q.
  - intros i j row v Hi Hj.
    assert (Hrow : row ∈ first :: rest) by by eapply list_elem_of_lookup_2.
    assert (Hjlt : (j < length first)%nat).
    { apply lookup_lt_Some in Hj. specialize (Hrows row Hrow). lia. }
    destruct (Hcols j Hjlt) as (lo & hi & Hmin & Hmax & Hlo & Hhi & Hb).
    destruct (Hb row v Hrow Hj) as [Hlov Hvhi].
    destruct (normalizeValue_roundtrip mins maxs j lo hi v Hmin Hmax Hlov Hvhi)
      as (Hnv & Hback & Hzero).
    exists (imap (normalizeValue mins maxs) row), lo, hi.
    split; [by rewrite list_lookup_fmap, Hi|].
    split; [by rewrite length_imap|].
    split; [done|]. split; [done|]. cbv zeta.
    split; [by rewrite list_lookup_imap, Hj; simpl; rewrite Hnv|].
    split; [done|]. split.
    + intros Heq. rewrite decide_True by done. split; [done|]. by rewrite (Hzero Heq).
    + intros Hconst.
      destruct Hlo as (r1 & Hr1 & Hx1). destruct Hhi as (r2 & Hr2 & Hx2).
      pose proof (Hconst r1 lo Hr1 Hx1) as E1.
      pose proof (Hconst r2 hi Hr2 Hx2) as E2. subst lo hi.
      by rewrite decide_True by done.
Qed.

Lemma normalizeFeatures_roundtrip_witness :
  let fss := [[ofQc 1%Qc; ofQc (Qc_of_Z 5)]; [ofQc (Qc_of_Z 3); ofQc (Qc_of_Z 5)]] in
  (Qc_of_Z 5 + Qc_of_Z 5 ≤ MAX_VALUE)%Qc
  /\ (forall row x, row ∈ fss -> x ∈ row -> magnitudeAtMost (Qc_of_Z 5) x)
  /\ (forall row, row ∈ fss -> (length row <= 2)%nat)
  /\ exists normalized mins maxs,
       normalizeFeatures fss = Some (normalized, mins, maxs)
       /\ length normalized = length fss
       /\ mins = [ofQc 1%Qc; ofQc (Qc_of_Z 5)]
       /\ normalized = [[ofQc 0%Qc; ofQc 0%Qc]; [ofQc 1%Qc; ofQc 0%Qc]].
Proof.
  assert (Hbound : (Qc_of_Z 5 + Qc_of_Z 5 ≤ MAX_VALUE)%Qc) by by vm_compute.
  assert (Hrows : forall row,
            row ∈ [[ofQc 1%Qc; ofQc (Qc_of_Z 5)]; [ofQc (Qc_of_Z 3); ofQc (Qc_of_Z 5)]] ->
            (length row <= 2)%nat).
  { intros row Hin. repeat (apply elem_of_cons in Hin as [->|Hin]; [simpl; lia|]).
    by apply elem_of_nil in Hin. }
  assert (Hfinite : forall row x,
            row ∈ [[ofQc 1%Qc; ofQc (Qc_of_Z 5)]; [ofQc (Qc_of_Z 3); ofQc (Qc_of_Z 5)]] ->
            x ∈ row -> magnitudeAtMost (Qc_of_Z 5) x).
  { intros row x Hrow Hx.
    repeat (apply elem_of_cons in Hrow as [->|Hrow];
            [repeat (apply elem_of_cons in Hx as [->|Hx];
                     [eexists; split; [reflexivity|]; split; by vm_compute|]);
             by apply elem_of_nil in Hx|]).
    by apply elem_of_nil in Hrow. }
  split; [exact Hbound|]. split; [exact Hfinite|]. split; [exact Hrows|].
  destruct (normalizeFeatures_roundtrip (Qc_of_Z 5)
              [[ofQc 1%Qc; ofQc (Qc_of_Z 5)]; [ofQc (Qc_of_Z 3); ofQc (Qc_of_Z 5)]]
              [ofQc 1%Qc; ofQc (Qc_of_Z 5)]
              [[ofQc (Qc_of_Z 3); ofQc (Qc_of_Z 5)]] eq_refl Hbound Hfinite Hrows)
    as (normalized & mins & maxs & H1 & H2 & _).
  exists normalized, mins, maxs. split; [exact H1|]. split; [exact H2|].
  assert (E : normalizeFeatures
                [[ofQc 1%Qc; ofQc (Qc_of_Z 5)]; [ofQc (Qc_of_Z 3); ofQc (Qc_of_Z 5)]]
              = Some ([[ofQc 0%Qc; ofQc 0%Qc]; [ofQc 1%Qc; ofQc 0%Qc]],
                      [ofQc 1%Qc; ofQc (Qc_of_Z 5)],
                      [ofQc (Qc_of_Z 3); ofQc (Qc_of_Z 5)])).
  { apply (bool_decide_unpack _). by vm_compute. }
  rewrite E in H1. injection H1 as <- <- <-. by split.
Defined.

(** C9, the cases left out.  A row longer than the first makes the minimum
    and the maximum of the added column NaN, and with it the normalised
    values of the column; an infinite value makes the range of its column
    infinite, and [0 * Infinity] is NaN.  In both matrices a value is not
    given back. *)
Lemma normalizeFeatures_no_roundtrip_ragged_or_infinite :
  normalizeFeatures [[ofQc 1%Qc]; [ofQc 0%Qc; ofQc (Qc_of_Z 5)]]
  = Some ([[ofQc 1%Qc]; [ofQc 0%Qc; NaN]], [ofQc 0%Qc; NaN], [ofQc 1%Qc; NaN])
  /\ denormalizeValue [ofQc 0%Qc; NaN] [ofQc 1%Qc; NaN] 1 NaN = NaN
  /\ normalizeFeatures [[Some Infinity]; [ofQc 0%Qc]]
     = Some ([[NaN]; [ofQc 0%Qc]], [ofQc 0%Qc], [Some Infinity])
  /\ denormalizeValue [ofQc 0%Qc] [Some Infinity] 0 (ofQc 0%Qc) = NaN
  /\ ~ (forall fss, fss ≠ [] ->
        exists normalized mins maxs,
          normalizeFeatures fss = Some (normalized, mins, maxs)
          /\ forall i j row x,
               fss !! i = Some row -> row !! j = Some x ->
               exists nrow nx,
                 normalized !! i = Some nrow /\ nrow !! j = Some nx
                 /\ denormalizeValue mins maxs j nx = x).
Proof.
  assert (E1 : normalizeFeatures [[ofQc 1%Qc]; [ofQc 0%Qc; ofQc (Qc_of_Z 5)]]
               = Some ([[ofQc 1%Qc]; [ofQc 0%Qc; NaN]], [ofQc 0%Qc; NaN],
                       [ofQc 1%Qc; NaN])).
  { apply (bool_decide_unpack _). by vm_compute. }
  split; [exact E1|]. split; [done|]. split; [apply (bool_decide_unpack _); by vm_compute|].
  split; [apply (bool_decide_unpack _); by vm_compute|].
  intros H.
  destruct (H [[ofQc 1%Qc]; [ofQc 0%Qc; ofQc (Qc_of_Z 5)]]) as
    (normalized & mins & maxs & Hn & Hback); [done|].
  rewrite E1 in Hn. injection Hn as <- <- <-.
  destruct (Hback 1%nat 1%nat [ofQc 0%Qc; ofQc (Qc_of_Z 5)] (ofQc (Qc_of_Z 5))
              eq_refl eq_refl) as (nrow & nx & Hrow & Hnx & Hd).
  injection Hrow as <-. injection Hnx as <-. by vm_compute in Hd.
Qed.
(** ** More on the rules engine *)

Lemma lineWinner_complete (b : board) p m :
  lineWinner b p = Some m <-> lineComplete b m p.
Proof.
  destruct p as [[i j] k]. unfold lineWinner, lineComplete. simpl.
  destruct (cellAt b i) as [|m0|] eqn:Ei.
  - split; [done|]. by intros [? _].
  - repeat case_decide; split; try done.
    + intros [= ->]. by repeat split.
    + intros ([= ->] & _). done.
    + intros ([= ->] & _ & H3). congruence.
    + intros ([= ->] & H2 & _). congruence.
  - split; [done|]. by intros [? _].
Qed.

Lemma lineWinner_None (b : board) p :
  lineWinner b p = None <-> forall m, ~ lineComplete b m p.
Proof.
  split.
  - intros H m Hm%lineWinner_complete. congruence.
  - intros H. destruct (lineWinner b p) as [m|] eqn:E; [|done].
    apply lineWinner_complete in E. by destruct (H m).
Qed.

Lemma checkWinnerIn_Some pats (b : board) m p :
  checkWinnerIn pats b = Some (m, p) <->
  exists k, pats !! k = Some p /\ lineComplete b m p
    /\ forall j q m', (j < k)%nat -> pats !! j = Some q -> ~ lineComplete b m' q.
Proof.
  induction pats as [|q0 pats IH]; simpl.
  - split; [done|]. by intros (k & ? & _).
  - destruct (lineWinner b q0) as [m0|] eqn:E.
    + apply lineWinner_complete in E. split.
      * intros [= -> ->]. exists 0%nat. split; [done|]. split; [done|]. intros; lia.
      * intros (k & Hk & Hc & Hfirst). destruct k as [|k].
        -- simpl in Hk. injection Hk as ->.
           destruct E as [E1 _], Hc as [Hc1 _]. congruence.
        -- exfalso. by apply (Hfirst 0%nat q0 m0); [lia| |].
    + rewrite IH. split.
      * intros (k & Hk & Hc & Hfirst). exists (S k). split; [done|]. split; [done|].
        intros [|j] q m' Hj Hq; simpl in Hq.
        -- injection Hq as <-. by apply lineWinner_None.
        -- apply (Hfirst j); [lia|done].
      * intros (k & Hk & Hc & Hfirst). destruct k as [|k].
        -- simpl in Hk. injection Hk as ->.
           apply lineWinner_complete in Hc. congruence.
        -- exists k. split; [done|]. split; [done|].
           intros j q m' Hj Hq. apply (Hfirst (S j)); [lia|done].
Qed.

Lemma checkWinnerIn_None pats (b : board) :
  checkWinnerIn pats b = None <-> forall p m, p ∈ pats -> ~ lineComplete b m p.
Proof.
  induction pats as [|q0 pats IH]; simpl.
  - split; [|done]. by intros _ p m ?%elem_of_nil.
  - destruct (lineWinner b q0) as [m0|] eqn:E.
    + split; [done|]. intros H. apply lineWinner_complete in E.
      destruct (H q0 m0); [apply list_elem_of_here|done].
    + rewrite IH. split.
      * intros H p m [->|Hin]%elem_of_cons; [by apply lineWinner_None|by apply H].
      * intros H p m Hin. apply H. by apply list_elem_of_further.
Qed.

Lemma checkWinner_None (b : board) : checkWinner b = None <-> noLineComplete b.
Proof. apply checkWinnerIn_None. Qed.

(** X1.  [checkWinner] reports a winner exactly when some line of [winPatterns]
    holds three equal marks, and then it reports the first such line in the
    order of [winPatterns], with the mark it holds; it reports nothing exactly
    when no line is complete. *)
Theorem checkWinner_first_complete_line (b : board) :
  (forall m p,
     checkWinner b = Some (m, p) <->
     exists k, winPatterns !! k = Some p /\ lineComplete b m p
       /\ forall j q m', (j < k)%nat -> winPatterns !! j = Some q ->
            ~ lineComplete b m' q)
  /\ (checkWinner b = None <-> noLineComplete b)
  /\ (forall p m, p ∈ winPatterns -> lineComplete b m p ->
        exists m' p', checkWinner b = Some (m', p')).
Proof.
  split; [intros; apply checkWinnerIn_Some|].
  split; [apply checkWinner_None|].
  intros p m Hin Hc. destruct (checkWinner b) as [[m' p']|] eqn:E; [by eauto|].
  apply checkWinner_None in E. by destruct (E p m).
Qed.

Lemma getLegalMoves_nil (b : board) :
  getLegalMoves b = [] <-> isBoardFull b = true.
Proof.
  induction b as [|c b IH]; [done|].
  rewrite getLegalMoves_cons. simpl.
  destruct (decide (c = Null)); simpl; [done|].
  rewrite <- IH. split.
  - by intros ?%fmap_nil_inv.
  - by intros ->.
Qed.

Lemma length_getLegalMoves (b : board) : length (getLegalMoves b) = countNull b.
Proof.
  induction b as [|c b IH]; [done|].
  rewrite getLegalMoves_cons, countNull_cons, length_app, length_fmap, IH.
  by destruct (decide (c = Null)).
Qed.

(** X2.  A board has no legal move exactly when [isBoardFull] holds, that is
    when no slot is [null]; the number of legal moves is the number of [null]
    slots, and every legal move is an index inside the board. *)
Theorem isBoardFull_iff_no_legal_move (b : board) :
  (isBoardFull b = true <-> getLegalMoves b = [])
  /\ (isBoardFull b = true <-> Null ∉ b)
  /\ length (getLegalMoves b) = countNull b
  /\ (forall i, i ∈ getLegalMoves b -> (i < length b)%nat).
Proof.
  split; [by rewrite getLegalMoves_nil|]. split.
  - rewrite <- getLegalMoves_nil. split.
    + intros E (i & Hi)%list_elem_of_lookup_1.
      apply elem_of_getLegalMoves in Hi. rewrite E in Hi. by apply elem_of_nil in Hi.
    + intros H. destruct (getLegalMoves b) as [|i l] eqn:E; [done|].
      destruct H. apply (list_elem_of_lookup_2 _ i).
      apply elem_of_getLegalMoves. rewrite E. apply list_elem_of_here.
  - split; [apply length_getLegalMoves|apply getLegalMoves_lt_length].
Qed.

(** X3.  [isTerminal] sorts the boards into three kinds.  A game in progress: no
    line is complete and a legal move is left.  A draw: no line is complete and
    no legal move is left.  A win: some line is complete; the winner is the mark
    of the first complete line of [winPatterns], which is the line reported.  A
    line is reported only with a winning mark, and the field [terminal] is set
    exactly when a winner or a draw is reported. *)
Theorem isTerminal_classification (b : board) :
  let ts := isTerminal b in
  (terminal ts = false <-> noLineComplete b /\ getLegalMoves b ≠ [])
  /\ (winner ts = Some WinnerDraw <-> noLineComplete b /\ getLegalMoves b = [])
  /\ (forall m, winner ts = Some (WinnerIs m) <->
        exists p, checkWinner b = Some (m, p) /\ line ts = Some p)
  /\ (forall m, winner ts = Some (WinnerIs m) ->
        exists p, line ts = Some p /\ p ∈ winPatterns /\ lineComplete b m p)
  /\ (terminal ts = true <-> winner ts ≠ None)
  /\ (line ts ≠ None <-> exists m, winner ts = Some (WinnerIs m)).
Proof.
  intros ts. subst ts. unfold isTerminal.
  destruct (checkWinner b) as [[m0 p0]|] eqn:E.
  - assert (Hno : ~ noLineComplete b).
    { intros H%checkWinner_None. congruence. }
    apply checkWinnerIn_Some in E as Hk. destruct Hk as (k & Hk & Hc & _).
    simpl. split; [split; [done|by intros [? _]]|].
    split; [split; [done|by intros [? _]]|].
    split.
    { intros m. split.
      - intros [= ->]. by exists p0.
      - by intros (p & [= -> ->] & _). }
    split.
    { intros m [= ->]. exists p0. split; [done|].
      split; [by eapply list_elem_of_lookup_2|done]. }
    split; [done|]. split; [by exists m0|done].
  - apply checkWinner_None in E.
    destruct (isBoardFull b) eqn:Hf; simpl.
    + apply getLegalMoves_nil in Hf as Hnil.
      split; [split; [done|by intros [_ ?]]|].
      split; [done|]. split; [split; [done|by intros (p & ? & _)]|].
      split; [done|]. split; [done|]. split; [done|by intros [m ?]].
    + assert (Hne : getLegalMoves b ≠ []).
      { intros H%getLegalMoves_nil. congruence. }
      split; [done|]. split; [split; [done|by intros [_ ?]]|].
      split; [split; [done|by intros (p & ? & _)]|].
      split; [done|]. split; [done|]. split; [done|by intros [m ?]].
Qed.

Lemma getLegalMoves_app (b1 b2 : board) :
  getLegalMoves (b1 ++ b2)
  = getLegalMoves b1 ++ ((fun i => (length b1 + i)%nat) <$> getLegalMoves b2).
Proof.
  induction b1 as [|c b1 IH]; simpl.
  - rewrite <- (list_fmap_id (getLegalMoves b2)) at 1. by apply list_fmap_ext.
  - rewrite !getLegalMoves_cons, IH, fmap_app, <- app_assoc, <- list_fmap_compose.
    done.
Qed.

Lemma getLegalMoves_no_null (b : board) : Null ∉ b -> getLegalMoves b = [].
Proof.
  intros H. destruct (getLegalMoves b) as [|i l] eqn:E; [done|].
  destruct H. apply (list_elem_of_lookup_2 _ i).
  apply elem_of_getLegalMoves. rewrite E. apply list_elem_of_here.
Qed.

Lemma filter_all {A} (P : A -> Prop) `{forall x, Decision (P x)} (l : list A) :
  Forall P l -> filter P l = l.
Proof.
  induction 1 as [|x l Hx _ IH]; [done|]. by rewrite filter_cons_True, IH.
Qed.

Lemma filter_ne_fmap_S (l : list nat) i :
  S <$> filter (fun j => j ≠ i) l = filter (fun j => j ≠ S i) (S <$> l).
Proof.
  induction l as [|k l IH]; [done|].
  rewrite fmap_cons, !filter_cons.
  destruct (decide (k ≠ i)), (decide (S k ≠ S i)); try lia.
  - by rewrite fmap_cons, IH.
  - done.
Qed.

Lemma getLegalMoves_insert (b : board) i m :
  getLegalMoves (<[i := Mark m]> b) = filter (fun j => j ≠ i) (getLegalMoves b).
Proof.
  revert i. induction b as [|c b IH]; intros i; [done|].
  destruct i as [|i]; simpl.
  - rewrite !getLegalMoves_cons. rewrite decide_False by done. simpl.
    rewrite filter_app.
    assert (H1 : filter (fun j => j ≠ 0%nat) (if decide (c = Null) then [0%nat] else []) = []).
    { by destruct (decide (c = Null)). }
    rewrite H1. simpl. symmetry. apply filter_all.
    apply Forall_forall. by intros j (k & -> & _)%list_elem_of_fmap.
  - rewrite !getLegalMoves_cons, IH, filter_app. f_equal.
    + by destruct (decide (c = Null)).
    + apply filter_ne_fmap_S.
Qed.

Lemma getLegalMoves_makeMove (b : board) i m :
  getLegalMoves (makeMove b i m) = filter (fun j => j ≠ i) (getLegalMoves b).
Proof.
  unfold makeMove. case_decide as Hi; [apply getLegalMoves_insert|].
  rewrite getLegalMoves_app.
  rewrite (getLegalMoves_no_null (replicate _ _ ++ _)).
  - rewrite app_nil_r. symmetry. apply filter_all.
    apply Forall_forall. intros j Hj%getLegalMoves_lt_length. lia.
  - rewrite elem_of_app, elem_of_replicate, list_elem_of_singleton.
    by intros [[? _]|?].
Qed.

(** X4.  The legal moves after [makeMove] are the legal moves before it without
    the played index, in the same order: the played cell is never legal
    afterwards, every other cell keeps its status, and a move on a legal index
    leaves one legal move less. *)
Theorem getLegalMoves_after_makeMove (b : board) (position : nat) (player : mark) :
  getLegalMoves (makeMove b position player)
  = filter (fun j => j ≠ position) (getLegalMoves b)
  /\ (position ∉ getLegalMoves (makeMove b position player))
  /\ (forall j, j ≠ position ->
        (j ∈ getLegalMoves (makeMove b position player) <-> j ∈ getLegalMoves b))
  /\ (position ∈ getLegalMoves b ->
        S (length (getLegalMoves (makeMove b position player)))
        = length (getLegalMoves b)).
Proof.
  pose proof (getLegalMoves_makeMove b position player) as E.
  split; [done|]. split.
  { rewrite E. intros [Hp _]%list_elem_of_filter. by apply Hp. }
  split.
  { intros j Hj. rewrite E, list_elem_of_filter. by split; [intros [_ ?]|]. }
  intros Hin. rewrite !length_getLegalMoves.
  symmetry. by apply countNull_makeMove.
Qed.

Lemma getLegalMoves_after_makeMove_witness :
  4%nat ∈ getLegalMoves createEmptyBoard
  /\ S (length (getLegalMoves (makeMove createEmptyBoard 4 X)))
     = length (getLegalMoves createEmptyBoard).
Proof.
  assert (H : 4%nat ∈ getLegalMoves createEmptyBoard).
  { apply elem_of_getLegalMoves. reflexivity. }
  split; [exact H|].
  destruct (getLegalMoves_after_makeMove createEmptyBoard 4 X) as (_ & _ & _ & Hlen).
  exact (Hlen H).
Defined.

(** X5.  [rowColToIndex] undoes [indexToRowCol] on every index that is not
    negative, where the column is one of 0, 1, 2 and the row is not negative
    (and below 3 for the indices of the board); [indexToRowCol] undoes
    [rowColToIndex] for a row that is not negative and a column 0..2.  On a
    negative index that is no multiple of 3 the round trip is off by 3, because
    [Math.floor] rounds down and [%] rounds towards zero. *)
Theorem rowCol_roundtrip (index row col : Z) :
  (0 ≤ index ->
     rowColToIndex (indexToRowCol index).1 (indexToRowCol index).2 = index
     /\ 0 ≤ (indexToRowCol index).1
     /\ 0 ≤ (indexToRowCol index).2 < 3
     /\ (index < 9 -> (indexToRowCol index).1 < 3))
  /\ (0 ≤ row -> 0 ≤ col < 3 ->
        indexToRowCol (rowColToIndex row col) = (row, col))
  /\ (index < 0 -> Z.rem index 3 ≠ 0 ->
        rowColToIndex (indexToRowCol index).1 (indexToRowCol index).2 = index - 3).
Proof.
  unfold indexToRowCol, rowColToIndex. simpl. split; [|split].
  - intros Hi. Z.to_euclidean_division_equations. lia.
  - intros Hr Hc. f_equal; Z.to_euclidean_division_equations; lia.
  - intros Hi Hrem. Z.to_euclidean_division_equations. lia.
Qed.

Lemma rowCol_roundtrip_witness :
  0 ≤ 7
  /\ rowColToIndex (indexToRowCol 7).1 (indexToRowCol 7).2 = 7
  /\ indexToRowCol 7 = (2, 1).
Proof.
  split; [lia|].
  destruct (rowCol_roundtrip 7 0 0) as (H & _ & _).
  destruct (H ltac:(lia)) as (H1 & _).
  split; [exact H1|reflexivity].
Defined.

Lemma lineCounters_swap (b : board) p q l a1 a2 a3 a4 :
  fold_left (lineCounters b q p) l (a2, a1, a4, a3)
  = (let '(r1, r2, r3, r4) := fold_left (lineCounters b p q) l (a1, a2, a3, a4) in
     (r2, r1, r4, r3)).
Proof.
  revert a1 a2 a3 a4. induction l as [|[[i j] k] l IH]; intros a1 a2 a3 a4; [done|].
  cbn [fold_left]. unfold lineCounters at 2 4. cbv zeta. apply IH.
Qed.

Lemma extractFeatures_swap (b : board) (player : mark) :
  extractFeatures b (getOpponent player) = swapPerspective (extractFeatures b player).
Proof.
  unfold extractFeatures, swapPerspective.
  assert (Hopp : getOpponent (getOpponent player) = player) by by destruct player.
  rewrite Hopp.
  pose proof (lineCounters_swap b player (getOpponent player) GameLogic.lines 0 0 0 0) as H.
  rewrite H.
  destruct (fold_left (lineCounters b player (getOpponent player)) GameLogic.lines (0, 0, 0, 0))
    as [[[r1 r2] r3] r4].
  simpl. f_equal.
  pose proof (getOpponent_ne player).
  repeat case_decide; try done; congruence.
Qed.

(** X6.  The symmetric feature extractor is symmetric: the features of a board
    for the opponent of a player are the features for the player with the two
    sides exchanged (marks, two-in-a-row and one-in-a-row counts, corners) and
    the center term negated; reading them from the other side twice gives the
    features back. *)
Theorem extractFeatures_opponent (b : board) (player : mark) :
  extractFeatures b (getOpponent player) = swapPerspective (extractFeatures b player)
  /\ extractFeatures b player
     = swapPerspective (extractFeatures b (getOpponent player))
  /\ centerControl (extractFeatures b player)
       + centerControl (extractFeatures b (getOpponent player)) = 0
  /\ playerMarks (extractFeatures b (getOpponent player))
     = opponentMarks (extractFeatures b player).
Proof.
  rewrite extractFeatures_swap. split; [done|].
  destruct (extractFeatures b player). unfold swapPerspective. simpl.
  split; [f_equal; lia|]. split; [lia|done].
Qed.

(** ** Sorting *)

Lemma sortInsert_perm {A} (cmp : A -> A -> number) x (l : list A) :
  sortInsert cmp x l ≡ₚ x :: l.
Proof.
  induction l as [|y l IH]; simpl; [done|].
  destruct (js_gtb _ _); [|done].
  rewrite IH. apply Permutation_swap.
Qed.

Lemma arraySort_perm {A} (cmp : A -> A -> number) (l : list A) :
  arraySort cmp l ≡ₚ l.
Proof.
  induction l as [|x l IH]; simpl; [done|].
  fold (arraySort cmp l). by rewrite sortInsert_perm, IH.
Qed.

(** The sort by a key, larger keys first: [cmp x y] is positive exactly when
    the key of [y] is larger.  [before] is the order of the input. *)
Section SortByKey.
Context {A : Type} (cmp : A -> A -> number) (key : A -> num)
  (before : A -> A -> Prop).

Lemma sortInsert_sorted x (s : list A) :
  (forall y, y ∈ s -> js_gtb (cmp x y) (ofQc 0%Qc) = num_gtb (key y) (key x)) ->
  Forall (before x) s ->
  StronglySorted (keyRanked key before) s ->
  StronglySorted (keyRanked key before) (sortInsert cmp x s).
Proof.
  intros Hcmp Hbefore Hs.
  induction Hs as [|y s Hs IH Hall]; simpl.
  - repeat constructor.
  - rewrite (Hcmp y) by apply list_elem_of_here.
    apply Forall_cons in Hbefore as [Hxy Hbefore].
    destruct (num_gtb (key y) (key x)) eqn:Hgt.
    + constructor.
      * apply IH; [|done]. intros z Hz. apply Hcmp. by apply list_elem_of_further.
      * rewrite sortInsert_perm. constructor; [|done].
        left. unfold num_gtb in Hgt. unfold num_lt.
        by apply negb_true_iff in Hgt.
    + assert (Hle : num_le (key y) (key x)).
      { unfold num_gtb in Hgt. by apply negb_false_iff in Hgt. }
      constructor; [by constructor|].
      constructor.
      * unfold keyRanked. destruct (decide (key x = key y)) as [E|E]; [by right|].
        left. clear -Hle E. num_order.
      * rewrite Forall_forall in Hall, Hbefore. apply Forall_forall. intros z Hz.
        specialize (Hall z Hz). specialize (Hbefore z Hz).
        unfold keyRanked in *.
        destruct (decide (key x = key z)) as [E|E]; [by right|]. left.
        destruct Hall as [Hlt|[Heq _]].
        -- clear -Hle Hlt. num_order.
        -- rewrite <- Heq. rewrite <- Heq in E. clear -Hle E. num_order.
Qed.

Lemma arraySort_sorted (l : list A) :
  (forall x y, x ∈ l -> y ∈ l ->
     js_gtb (cmp x y) (ofQc 0%Qc) = num_gtb (key y) (key x)) ->
  StronglySorted before l ->
  StronglySorted (keyRanked key before) (arraySort cmp l).
Proof.
  intros Hcmp Hs. induction Hs as [|x l Hs IH Hall]; simpl; [constructor|].
  fold (arraySort cmp l). apply sortInsert_sorted.
  - intros y Hy. rewrite arraySort_perm in Hy.
    apply Hcmp; [apply list_elem_of_here|by apply list_elem_of_further].
  - by rewrite arraySort_perm.
  - apply IH. intros y z Hy Hz. apply Hcmp; by apply list_elem_of_further.
Qed.

End SortByKey.

Lemma StronglySorted_weaken {A} (R1 R2 : A -> A -> Prop) (l : list A) :
  (forall x y, R1 x y -> R2 x y) -> StronglySorted R1 l -> StronglySorted R2 l.
Proof.
  intros H. induction 1 as [|x l _ IH Hall]; constructor; [done|].
  eapply Forall_impl; [exact Hall|]. intros y. apply H.
Qed.

(** ** The sorted list of move values *)

Lemma push_loop {A B} (f : A -> B) (l : list A) (acc : list B) :
  fold_left (fun evaluations move => evaluations ++ [f move]) l acc = acc ++ map f l.
Proof.
  revert acc. induction l as [|x l IH]; intros acc; simpl.
  - by rewrite app_nil_r.
  - by rewrite IH, <- app_assoc.
Qed.

Lemma getAllMoveEvaluations_sort b ai ev maxDepth :
  getAllMoveEvaluations b ai ev maxDepth
  = arraySort (fun a c => js_sub c.2 a.2)
      (moveEvaluations (findBestMove b ai ev maxDepth)).
Proof.
  unfold getAllMoveEvaluations. cbv zeta.
  by rewrite (push_loop (fun move => (move, rootValue b ai ev maxDepth move))),
    findBestMove_evaluations.
Qed.

Lemma js_sub_positive (x y : num) :
  js_gtb (js_sub (Some x) (Some y)) (ofQc 0%Qc) = num_gtb x y.
Proof.
  destruct x as [|p|], y as [|q|]; try reflexivity.
  unfold js_sub, js_neg, js_add, js_gtb, ofQc, num_gtb, num_leb. f_equal.
  apply bool_decide_ext. split.
  - intros H. apply (Qcplus_le_compat _ _ q q) in H; [|reflexivity].
    by ring_simplify in H.
  - intros H. apply (Qcplus_le_compat _ _ (- q)%Qc (- q)%Qc) in H; [|reflexivity].
    by ring_simplify in H.
Qed.

Lemma moveEvaluations_sorted b ai ev maxDepth :
  StronglySorted (fun a c : nat * number => (a.1 < c.1)%nat)
    (moveEvaluations (findBestMove b ai ev maxDepth)).
Proof.
  rewrite findBestMove_evaluations.
  pose proof (getLegalMoves_sorted b) as Hs.
  induction Hs as [|x l Hs IH Hall]; simpl; constructor; [done|].
  apply Forall_forall. intros [m v] Hin.
  apply list_elem_of_fmap in Hin as (m' & [= -> ->] & Hm').
  rewrite Forall_forall in Hall. by apply Hall.
Qed.

Lemma StronglySorted_and_Forall {A} (R : A -> A -> Prop) (P : A -> Prop) (l : list A) :
  StronglySorted R l -> Forall P l ->
  StronglySorted (fun x y => R x y /\ P x /\ P y) l.
Proof.
  induction 1 as [|x l Hs IH Hall]; intros HP; [constructor|].
  apply Forall_cons in HP as [Hx HP]. constructor; [by apply IH|].
  rewrite Forall_forall in Hall, HP. apply Forall_forall. intros z Hz.
  split; [by apply Hall|]. split; [done|by apply HP].
Qed.

(** The sorted list when no root value is NaN. *)
Lemma getAllMoveEvaluations_valueRanked b ai ev maxDepth :
  (forall m, m ∈ getLegalMoves b -> rootValue b ai ev maxDepth m ≠ NaN) ->
  StronglySorted valueRanked (getAllMoveEvaluations b ai ev maxDepth).
Proof.
  intros Hnan. rewrite getAllMoveEvaluations_sort.
  set (r := findBestMove b ai ev maxDepth).
  set (cmp := fun a c : nat * number => js_sub c.2 a.2).
  assert (Hkey : forall e, e ∈ moveEvaluations r -> exists k, e.2 = Some k).
  { intros e He. subst r. rewrite findBestMove_evaluations in He.
    apply list_elem_of_fmap in He as (m & -> & Hm). simpl.
    specialize (Hnan m Hm). destruct (rootValue b ai ev maxDepth m); [by eexists|done]. }
  pose proof (arraySort_sorted cmp (fun e => default (Num 0%Qc) e.2)
                (fun a c => (a.1 < c.1)%nat) (moveEvaluations r)) as Hs.
  assert (Hdef : Forall (fun e : nat * number => exists k, e.2 = Some k)
                   (arraySort cmp (moveEvaluations r))).
  { rewrite arraySort_perm. by apply Forall_forall. }
  eapply StronglySorted_weaken;
    [|apply StronglySorted_and_Forall; [apply Hs|exact Hdef]].
  - intros a c (Hr & [ka Ea] & [kc Ec]). unfold keyRanked in Hr. unfold valueRanked.
    rewrite Ea, Ec in *. simpl in Hr.
    destruct Hr as [Hlt|[Heq Hidx]]; [left|right].
    + rewrite js_gtb_Some. unfold num_gtb. unfold num_lt in Hlt. by rewrite Hlt.
    + by subst.
  - intros x y Hx Hy. destruct (Hkey x Hx) as [kx Ex], (Hkey y Hy) as [ky Ey].
    subst cmp. cbv beta. rewrite Ex, Ey. apply js_sub_positive.
  - apply moveEvaluations_sorted.
Qed.

Lemma getAllMoveEvaluations_head b ai ev maxDepth m :
  (forall m, m ∈ getLegalMoves b -> rootValue b ai ev maxDepth m ≠ NaN) ->
  bestMove (findBestMove b ai ev maxDepth) = Some m ->
  head (getAllMoveEvaluations b ai ev maxDepth)
  = Some (m, bestValue (findBestMove b ai ev maxDepth)).
Proof.
  intros Hnan Hm.
  pose proof (getAllMoveEvaluations_valueRanked b ai ev maxDepth Hnan) as Hsorted.
  destruct (findBestMove_Some b ai ev maxDepth m Hm) as (Hin & Hv & _ & Hmax & Hlow).
  rewrite Hv.
  assert (Hperm : getAllMoveEvaluations b ai ev maxDepth
                  ≡ₚ moveEvaluations (findBestMove b ai ev maxDepth)).
  { rewrite getAllMoveEvaluations_sort. apply arraySort_perm. }
  assert (Hmem : (m, rootValue b ai ev maxDepth m) ∈ getAllMoveEvaluations b ai ev maxDepth).
  { rewrite Hperm, findBestMove_evaluations. apply list_elem_of_fmap. by exists m. }
  destruct (getAllMoveEvaluations b ai ev maxDepth) as [|[m0 v0] s] eqn:Es.
  { by apply elem_of_nil in Hmem. }
  simpl. f_equal.
  assert (H0 : (m0, v0) ∈ moveEvaluations (findBestMove b ai ev maxDepth)).
  { rewrite <- Hperm. apply list_elem_of_here. }
  rewrite findBestMove_evaluations in H0.
  apply list_elem_of_fmap in H0 as (m0' & [= <- ->] & Hin0).
  apply elem_of_cons in Hmem as [Heq|Hs]; [by symmetry|].
  apply StronglySorted_inv in Hsorted as [_ Hall].
  rewrite Forall_forall in Hall. specialize (Hall _ Hs).
  destruct Hall as [Hgt|[Heq Hidx]]; simpl in *.
  - specialize (Hmax m0 Hin0). congruence.
  - specialize (Hlow m0 Hin0 Heq). lia.
Qed.

Lemma valueRanked_geb a c : valueRanked a c -> a.2 ≠ NaN -> js_geb a.2 c.2 = true.
Proof.
  intros [Hgt|[Heq _]] Hnan.
  - destruct a.2 as [x|], c.2 as [y|]; try done.
    rewrite js_gtb_Some in Hgt. rewrite js_geb_Some. unfold num_gtb in Hgt.
    destruct (num_leb_total x y) as [H|H]; [by rewrite H in Hgt|done].
  - rewrite <- Heq. by apply js_geb_refl.
Qed.

(** X7.  [getAllMoveEvaluations] returns the move values that [findBestMove]
    lists, one entry for each legal move, rearranged.  When no root value is
    NaN the larger value comes first, and among equal values the lower move
    index; the first entry is then the move that [findBestMove] chooses, if it
    chooses one, with the best value.  When the root values are finite, as
    they are for an evaluator that returns finite numbers, the list is empty
    exactly when [findBestMove] chooses no move.  (With a NaN among the values
    the comparison function of the sort is not consistent, and nothing is
    stated about the order.) *)
Theorem getAllMoveEvaluations_ranked
    (b : board) (ai : mark) (ev : evaluator) (maxDepth : Z) :
  let r := findBestMove b ai ev maxDepth in
  let evaluations := getAllMoveEvaluations b ai ev maxDepth in
  evaluations ≡ₚ moveEvaluations r
  /\ map fst evaluations ≡ₚ getLegalMoves b
  /\ ((forall m, m ∈ getLegalMoves b -> rootValue b ai ev maxDepth m ≠ NaN) ->
        StronglySorted valueRanked evaluations
        /\ StronglySorted (fun a c => js_geb a.2 c.2 = true) evaluations
        /\ forall m, bestMove r = Some m -> head evaluations = Some (m, bestValue r))
  /\ ((forall m, m ∈ getLegalMoves b -> finiteNumber (rootValue b ai ev maxDepth m)) ->
        head evaluations = (fun m => (m, bestValue r)) <$> bestMove r)
  /\ (alwaysFinite ev ai ->
        forall m, finiteNumber (rootValue b ai ev maxDepth m)).
Proof.
  intros r evaluations. subst r evaluations.
  assert (Hperm : getAllMoveEvaluations b ai ev maxDepth
                  ≡ₚ moveEvaluations (findBestMove b ai ev maxDepth)).
  { rewrite getAllMoveEvaluations_sort. apply arraySort_perm. }
  split; [done|]. split.
  { rewrite Hperm. rewrite findBestMove_evaluations, map_map. simpl.
    by rewrite map_id. }
  split.
  { intros Hnan.
    pose proof (getAllMoveEvaluations_valueRanked b ai ev maxDepth Hnan) as Hsorted.
    split; [done|]. split.
    - assert (Hdef : Forall (fun e : nat * number => e.2 ≠ NaN)
                       (getAllMoveEvaluations b ai ev maxDepth)).
      { rewrite Hperm, findBestMove_evaluations. apply Forall_forall.
        intros e (m & -> & Hm)%list_elem_of_fmap. by apply Hnan. }
      eapply StronglySorted_weaken;
        [|apply StronglySorted_and_Forall; [exact Hsorted|exact Hdef]].
      intros a c (Hr & Ha & _). by apply valueRanked_geb.
    - intros m Hm. by apply getAllMoveEvaluations_head. }
  split.
  { intros Hfin.
    assert (Hnan : forall m, m ∈ getLegalMoves b -> rootValue b ai ev maxDepth m ≠ NaN).
    { intros m Hm. destruct (Hfin m Hm) as [q ->]. done. }
    destruct (bestMove (findBestMove b ai ev maxDepth)) as [m|] eqn:Hm.
    - simpl. by apply getAllMoveEvaluations_head.
    - simpl. destruct (getLegalMoves b) as [|y l] eqn:El.
      + rewrite getAllMoveEvaluations_sort, findBestMove_evaluations, El. done.
      + exfalso.
        destruct (findBestMove_first_best b ai ev maxDepth) as (m & Hm' & _).
        * by rewrite El.
        * by rewrite El.
        * congruence. }
  intros Hev m. by apply rootValue_finite.
Qed.

(** ** The result of [findBestMove] on any board *)

Lemma js_gtb_least_cases a :
  js_gtb a (Some NegInfinity) = false <-> a = NaN \/ a = Some NegInfinity.
Proof.
  destruct a as [[|q|]|]; simpl; split; try done; try (intros [?|?]; done);
    try by right. by left.
Qed.

(** X8.  [findBestMove] makes no test of the state of the game.  On a board
    without a [null] slot it returns no move, the value [-Infinity] and an
    empty list.  It returns no move exactly when every root value is NaN or
    [-Infinity], and exactly then its value is [-Infinity]; a move it returns
    has a value that is neither, which is the entry of the move in the list.
    The list has one entry for each [null] slot, so it is empty exactly when
    the board is full.  When the root values are finite, as they are for an
    evaluator that returns finite numbers, it returns no move exactly when the
    board has no [null] slot, finished game or not, and a move it returns has
    a finite value. *)
Theorem findBestMove_none_iff_full
    (b : board) (ai : mark) (ev : evaluator) (maxDepth : Z) :
  let r := findBestMove b ai ev maxDepth in
  let value := rootValue b ai ev maxDepth in
  (getLegalMoves b = [] -> r = mkSearchResult None (Some NegInfinity) [])
  /\ (bestMove r = None <->
        forall m, m ∈ getLegalMoves b -> value m = NaN \/ value m = Some NegInfinity)
  /\ (bestMove r = None <-> bestValue r = Some NegInfinity)
  /\ (moveEvaluations r = [] <-> getLegalMoves b = [])
  /\ (moveEvaluations r = [] <-> isBoardFull b = true)
  /\ (forall m, bestMove r = Some m ->
        bestValue r ≠ NaN /\ bestValue r ≠ Some NegInfinity
        /\ (m, bestValue r) ∈ moveEvaluations r)
  /\ length (moveEvaluations r) = countNull b
  /\ ((forall m, m ∈ getLegalMoves b -> finiteNumber (value m)) ->
        (bestMove r = None <-> getLegalMoves b = [])
        /\ (bestMove r = None <-> isBoardFull b = true)
        /\ (forall m, bestMove r = Some m -> finiteNumber (bestValue r))
        /\ Forall (fun mv => finiteNumber mv.2) (moveEvaluations r))
  /\ (alwaysFinite ev ai -> forall m, finiteNumber (value m)).
Proof.
  intros r value. subst r value.
  assert (Hev : moveEvaluations (findBestMove b ai ev maxDepth)
                = map (fun m => (m, rootValue b ai ev maxDepth m)) (getLegalMoves b))
    by apply findBestMove_evaluations.
  assert (Hempty : moveEvaluations (findBestMove b ai ev maxDepth) = []
                   <-> getLegalMoves b = []).
  { rewrite Hev. split; [by intros ?%fmap_nil_inv|by intros ->]. }
  split.
  { intros E. unfold findBestMove. by rewrite E. }
  split.
  { rewrite findBestMove_None. split; intros H m Hm; by apply js_gtb_least_cases, H. }
  split.
  { split; [apply findBestMove_None_value|].
    intros Hv. destruct (bestMove (findBestMove b ai ev maxDepth)) as [m|] eqn:Hm; [|done].
    destruct (findBestMove_Some b ai ev maxDepth m Hm) as (_ & Hv' & Hgt & _).
    rewrite <- Hv', Hv in Hgt. done. }
  split; [done|]. split; [by rewrite Hempty, getLegalMoves_nil|]. split.
  { intros m Hm.
    destruct (findBestMove_Some b ai ev maxDepth m Hm) as (Hin & Hv & Hgt & _).
    rewrite Hv. split; [by eapply js_gtb_not_NaN|]. split.
    - intros E. by rewrite E in Hgt.
    - rewrite Hev. apply list_elem_of_fmap. by exists m. }
  split.
  { by rewrite Hev, length_map, length_getLegalMoves. }
  split.
  { intros Hfin.
    assert (H1 : bestMove (findBestMove b ai ev maxDepth) = None <-> getLegalMoves b = []).
    { split.
      - intros Hnone. destruct (getLegalMoves b) as [|y l] eqn:El; [done|]. exfalso.
        destruct (findBestMove_first_best b ai ev maxDepth) as (m & Hm' & _).
        + by rewrite El.
        + by rewrite El.
        + congruence.
      - intros E. unfold findBestMove. by rewrite E. }
    split; [done|]. split; [by rewrite H1, getLegalMoves_nil|]. split.
    - intros m Hm.
      destruct (findBestMove_Some b ai ev maxDepth m Hm) as (Hin & Hv & _).
      rewrite Hv. by apply Hfin.
    - rewrite Hev. apply Forall_forall. intros mv (m & -> & Hm)%list_elem_of_fmap.
      by apply Hfin. }
  intros Hfin m. by apply rootValue_finite.
Qed.

(** ** Pruning only removes calls of the evaluator *)

Lemma maximizeOverLog_sublist childL (mchild : board -> list evalCall) b ai beta moves :
  (forall nb a, snd (childL nb a) `sublist_of` mchild nb) ->
  forall m a log,
  exists L,
    snd (maximizeOverLog childL b ai beta moves m a log) = log ++ L
    /\ L `sublist_of` concat (map (fun move => mchild (makeMove b move ai)) moves).
Proof.
  intros H. induction moves as [|mv rest IH]; intros m a log; simpl.
  - exists []. by rewrite app_nil_r.
  - specialize (H (makeMove b mv ai) a).
    destruct (childL (makeMove b mv ai) a) as [e calls]; simpl in *.
    destruct (js_leb beta _).
    + exists calls. split; [done|]. by apply sublist_inserts_r.
    + destruct (IH (js_max m e) (js_max a e) (log ++ calls)) as (L & -> & HL).
      exists (calls ++ L). split; [by rewrite app_assoc|]. by apply sublist_app.
Qed.

Lemma minimizeOverLog_sublist childL (mchild : board -> list evalCall) b opp alpha moves :
  (forall nb bt, snd (childL nb bt) `sublist_of` mchild nb) ->
  forall m bt log,
  exists L,
    snd (minimizeOverLog childL b opp alpha moves m bt log) = log ++ L
    /\ L `sublist_of` concat (map (fun move => mchild (makeMove b move opp)) moves).
Proof.
  intros H. induction moves as [|mv rest IH]; intros m bt log; simpl.
  - exists []. by rewrite app_nil_r.
  - specialize (H (makeMove b mv opp) bt).
    destruct (childL (makeMove b mv opp) bt) as [e calls]; simpl in *.
    destruct (js_leb _ alpha).
    + exists calls. split; [done|]. by apply sublist_inserts_r.
    + destruct (IH (js_min m e) (js_min bt e) (log ++ calls)) as (L & -> & HL).
      exists (calls ++ L). split; [by rewrite app_assoc|]. by apply sublist_app.
Qed.

Lemma alphaBetaLogFuel_sublist ai ev maxDepth fuel :
  forall b depth alpha beta isMaximizing,
  snd (alphaBetaLogFuel fuel b depth alpha beta isMaximizing ai ev maxDepth)
  `sublist_of` minimaxCallsFuel fuel b depth isMaximizing ai maxDepth.
Proof.
  induction fuel as [|fuel IH]; intros b depth alpha beta isMax; simpl.
  - destruct (terminal (isTerminal b)); [done|]. by case_bool_decide.
  - destruct (terminal (isTerminal b)); [done|].
    case_bool_decide; [done|].
    destruct isMax; simpl.
    + destruct (maximizeOverLog_sublist
                  (fun newBoard alpha' =>
                     alphaBetaLogFuel fuel newBoard (depth + 1) alpha' beta false ai ev maxDepth)
                  (fun nb => minimaxCallsFuel fuel nb (depth + 1) false ai maxDepth)
                  b ai beta (getLegalMoves b) ltac:(intros; apply IH)
                  (Some NegInfinity) alpha []) as (L & -> & HL).
      done.
    + destruct (minimizeOverLog_sublist
                  (fun newBoard beta' =>
                     alphaBetaLogFuel fuel newBoard (depth + 1) alpha beta' true ai ev maxDepth)
                  (fun nb => minimaxCallsFuel fuel nb (depth + 1) true ai maxDepth)
                  b (getOpponent ai) alpha (getLegalMoves b) ltac:(intros; apply IH)
                  (Some Infinity) beta []) as (L & -> & HL).
      done.
Qed.

(** X9.  The calls of the evaluator that the pruned search makes are, in the
    same order, calls that plain minimax makes on the same board: pruning leaves
    calls out and adds none, so it never makes more calls.  The value returned
    is the one of the search without the log.  Calls are left out indeed: from
    the empty board with depth limit 2 and a constant evaluator the pruned
    search makes 16 calls where plain minimax makes 72. *)
Theorem pruning_only_removes_calls
    (b : board) (depth : Z) (alpha beta : number) (isMaximizing : bool)
    (ai : mark) (ev : evaluator) (maxDepth : Z) :
  alphaBetaCalls b depth alpha beta isMaximizing ai ev maxDepth
    `sublist_of` minimaxCalls b depth isMaximizing ai maxDepth
  /\ (length (alphaBetaCalls b depth alpha beta isMaximizing ai ev maxDepth)
      <= length (minimaxCalls b depth isMaximizing ai maxDepth))%nat
  /\ fst (alphaBetaLogFuel (countNull b) b depth alpha beta isMaximizing ai ev maxDepth)
     = alphaBetaSearch b depth alpha beta isMaximizing ai ev maxDepth
  /\ length (alphaBetaCalls createEmptyBoard 0 (Some NegInfinity) (Some Infinity) true X
                zeroEval 2)
     = 16%nat
  /\ length (minimaxCalls createEmptyBoard 0 true X 2) = 72%nat.
Proof.
  pose proof (alphaBetaLogFuel_sublist ai ev maxDepth (countNull b) b depth alpha beta
                isMaximizing) as H.
  split; [exact H|]. split; [by apply sublist_length|].
  split; [apply alphaBetaLogFuel_fst|]. split; vm_compute; reflexivity.
Qed.

(** ** An immediate win is taken *)

Lemma rootValue_win b ai ev maxDepth m :
  winner (isTerminal (makeMove b m ai)) = Some (WinnerIs ai) ->
  rootValue b ai ev maxDepth m = ofQc (Qc_of_Z 100).
Proof.
  intros Hw. unfold rootValue. rewrite alphaBetaSearch_unfold. cbv zeta.
  destruct (terminal (isTerminal (makeMove b m ai))) eqn:Ht.
  - unfold terminalScore. by rewrite decide_True.
  - by rewrite (nonterminal_winner _ Ht) in Hw.
Qed.

Lemma js_ltb_ofQc (p q : Qc) : (p < q)%Qc -> js_ltb (ofQc p) (ofQc q) = true.
Proof.
  intros H. unfold js_ltb, ofQc. rewrite js_gtb_Some. unfold num_gtb, num_leb.
  apply negb_true_iff, bool_decide_eq_false. by apply Qclt_not_le.
Qed.

Lemma terminalScore_below_win ts ai d :
  (1 ≤ d ≤ 199)%Z -> js_ltb (terminalScore ts ai d) (ofQc (Qc_of_Z 100)) = true.
Proof.
  intros Hd. unfold terminalScore.
  repeat case_decide; apply js_ltb_ofQc, (proj1 (Z2Qc_inj_lt _ _)); lia.
Qed.

Lemma rootValue_below_win (b : board) ai (ev : evaluator) maxDepth m :
  (forall b' p, terminal (isTerminal b') = false ->
     js_ltb (ev b' p) (ofQc (Qc_of_Z 100)) = true) ->
  length b = 9%nat -> m ∈ getLegalMoves b ->
  winner (isTerminal (makeMove b m ai)) ≠ Some (WinnerIs ai) ->
  js_ltb (rootValue b ai ev maxDepth m) (ofQc (Qc_of_Z 100)) = true.
Proof.
  intros Hev Hlen Hin Hnw.
  pose proof (countNull_makeMove b m ai Hin) as Hc.
  pose proof (countNull_le_length b) as Hle. rewrite Hlen in Hle.
  unfold rootValue. rewrite alphaBetaSearch_unfold. cbv zeta.
  destruct (terminal (isTerminal (makeMove b m ai))) eqn:Ht.
  - unfold terminalScore. rewrite decide_False by done.
    case_decide; by apply js_ltb_ofQc, (proj1 (Z2Qc_inj_lt _ _)).
  - case_bool_decide; [by apply Hev|].
    destruct (nonterminal_has_move _ Ht) as [i Hi].
    apply (minimizeOver_leaf (fun v => js_ltb v (ofQc (Qc_of_Z 100)) = true));
      [|by left|].
    + intros move bt Hmove. unfold alphaBetaSearch.
      pose proof (countNull_makeMove _ move (getOpponent ai) Hmove).
      apply alphaBetaFuel_leaf; [done| |].
      * intros b' d Hd _. apply terminalScore_below_win. lia.
      * intros b' _ Hb'. by apply Hev.
    + left. intros E. rewrite E in Hi. by apply elem_of_nil in Hi.
Qed.

Lemma findBestMove_wins_now (b : board) ai (ev : evaluator) maxDepth w :
  (forall b' p, terminal (isTerminal b') = false ->
     js_ltb (ev b' p) (ofQc (Qc_of_Z 100)) = true) ->
  length b = 9%nat -> w ∈ getLegalMoves b ->
  winner (isTerminal (makeMove b w ai)) = Some (WinnerIs ai) ->
  exists m,
    bestMove (findBestMove b ai ev maxDepth) = Some m
    /\ m ∈ getLegalMoves b
    /\ winner (isTerminal (makeMove b m ai)) = Some (WinnerIs ai)
    /\ bestValue (findBestMove b ai ev maxDepth) = ofQc (Qc_of_Z 100)
    /\ (forall m', m' ∈ getLegalMoves b ->
          winner (isTerminal (makeMove b m' ai)) = Some (WinnerIs ai) -> (m <= m')%nat).
Proof.
  intros Hev Hlen Hw Hwin.
  destruct (bestMove (findBestMove b ai ev maxDepth)) as [m|] eqn:Hbest.
  2:{ pose proof (proj1 (findBestMove_None b ai ev maxDepth) Hbest w Hw) as Hnone.
      by rewrite (rootValue_win _ _ _ _ _ Hwin) in Hnone. }
  destruct (findBestMove_Some b ai ev maxDepth m Hbest) as (Hin & Hv & _ & Hmax & Hlow).
  assert (Hmw : winner (isTerminal (makeMove b m ai)) = Some (WinnerIs ai)).
  { destruct (decide (winner (isTerminal (makeMove b m ai)) = Some (WinnerIs ai)))
      as [|Hn]; [done|].
    pose proof (rootValue_below_win b ai ev maxDepth m Hev Hlen Hin Hn) as Hlt.
    specialize (Hmax w Hw). rewrite (rootValue_win _ _ _ _ _ Hwin) in Hmax.
    unfold js_ltb in Hlt. congruence. }
  exists m. split; [done|]. split; [done|]. split; [done|].
  split; [by rewrite Hv, (rootValue_win _ _ _ _ _ Hmw)|].
  intros m' Hin' Hw'. apply Hlow; [done|].
  by rewrite (rootValue_win _ _ _ _ _ Hw'), (rootValue_win _ _ _ _ _ Hmw).
Qed.

Lemma zeroEval_below_win (b' : board) (p : mark) :
  terminal (isTerminal b') = false ->
  js_ltb (zeroEval b' p) (ofQc (Qc_of_Z 100)) = true.
Proof. intros _. by apply js_ltb_ofQc, (proj1 (Z2Qc_inj_lt 0 100)). Qed.

(** X10.  On a board of nine cells, whenever some legal move completes a line
    for the searching side, [findBestMove] returns such a move, the one of
    lowest index, with the value 100: at every depth limit when the scores of
    the evaluator on non-terminal boards stay below 100 (the clamped
    evaluators), and with any evaluator when the depth limit lets the search
    reach the end of the game. *)
Theorem findBestMove_takes_immediate_win
    (b : board) (ai : mark) (ev : evaluator) (maxDepth : Z) (w : nat)
    (Hev : (forall b' p, terminal (isTerminal b') = false ->
              js_ltb (ev b' p) (ofQc (Qc_of_Z 100)) = true)
           \/ Z.of_nat (countNull b) ≤ maxDepth + 1)
    (Hlen : length b = 9%nat)
    (Hw : w ∈ getLegalMoves b)
    (Hwin : winner (isTerminal (makeMove b w ai)) = Some (WinnerIs ai)) :
  exists m,
    bestMove (findBestMove b ai ev maxDepth) = Some m
    /\ m ∈ getLegalMoves b
    /\ winner (isTerminal (makeMove b m ai)) = Some (WinnerIs ai)
    /\ bestValue (findBestMove b ai ev maxDepth) = ofQc (Qc_of_Z 100)
    /\ (m <= w)%nat
    /\ (forall m', m' ∈ getLegalMoves b ->
          winner (isTerminal (makeMove b m' ai)) = Some (WinnerIs ai) -> (m <= m')%nat).
Proof.
  assert (H : exists m,
    bestMove (findBestMove b ai ev maxDepth) = Some m
    /\ m ∈ getLegalMoves b
    /\ winner (isTerminal (makeMove b m ai)) = Some (WinnerIs ai)
    /\ bestValue (findBestMove b ai ev maxDepth) = ofQc (Qc_of_Z 100)
    /\ (forall m', m' ∈ getLegalMoves b ->
          winner (isTerminal (makeMove b m' ai)) = Some (WinnerIs ai) -> (m <= m')%nat)).
  { destruct Hev as [Hev|Hdepth].
    - by apply findBestMove_wins_now with w.
    - rewrite (findBestMove_ev_indep b ai ev zeroEval maxDepth Hdepth).
      apply findBestMove_wins_now with w; [apply zeroEval_below_win|done..]. }
  destruct H as (m & H1 & H2 & H3 & H4 & H5).
  exists m. repeat (split; [done|]). split; [by apply H5|done].
Qed.

Lemma findBestMove_takes_immediate_win_witness :
  let b := [Mark O; Mark O; Null; Mark X; Mark X; Null; Null; Null; Null] in
  5%nat ∈ getLegalMoves b
  /\ winner (isTerminal (makeMove b 5 X)) = Some (WinnerIs X)
  /\ exists m, bestMove (findBestMove b X zeroEval 1) = Some m
               /\ (m <= 5)%nat.
Proof.
  assert (Hw : 5%nat ∈ getLegalMoves
                 [Mark O; Mark O; Null; Mark X; Mark X; Null; Null; Null; Null]).
  { apply elem_of_getLegalMoves. reflexivity. }
  split; [exact Hw|]. split; [reflexivity|].
  destruct (findBestMove_takes_immediate_win
              [Mark O; Mark O; Null; Mark X; Mark X; Null; Null; Null; Null]
              X zeroEval 1 5
              (or_introl (zeroEval_below_win)) eq_refl Hw eq_refl)
    as (m & Hm & _ & _ & _ & Hle & _).
  exists m. by split.
Defined.
(** ** The two feature extractors *)

Lemma almostWin_lineCounters (b : board) l a1 a2 a3 a4 :
  fold_left (almostWinCounters b) l (a1, a2)
  = (let '(r1, r2, _, _) := fold_left (lineCounters b X O) l (a1, a2, a3, a4) in
     (r1, r2)).
Proof.
  revert a1 a2 a3 a4. induction l as [|[[i j] k] l IH]; intros a1 a2 a3 a4; [done|].
  cbn [fold_left]. unfold lineCounters at 2, almostWinCounters at 2. cbv zeta.
  apply IH.
Qed.

(** X11.  The dataset-format vector of a board holds six of the symmetric
    features read from the side of X: the marks of X and of O, the two-in-a-row
    counts of X and of O, whether X holds the center, and the corners of X.  It
    is the same for either value of the argument [player].  The vector that
    [mlEvaluate] builds for O exchanges the first four, which makes them the
    features of O as the player; its last two components still describe X, the
    opponent of O: the center held by the opponent and the corners of the
    opponent. *)
Theorem extractDatasetFeatures_symmetric_features (b : board) (player : mark) :
  let fs := extractDatasetFeatures b player in
  let fx := extractFeatures b X in
  let fo := extractFeatures b O in
  extractDatasetFeatures b X = extractDatasetFeatures b O
  /\ fs = [ playerMarks fx; opponentMarks fx; playerTwoInRow fx; opponentTwoInRow fx;
            Z.max 0 (centerControl fx); playerCorners fx ]
  /\ flipped fs = [ playerMarks fo; opponentMarks fo; playerTwoInRow fo;
                    opponentTwoInRow fo; Z.max 0 (- centerControl fo);
                    opponentCorners fo ].
Proof.
  intros fs fx fo. split; [reflexivity|].
  assert (Hx : fs = [ playerMarks fx; opponentMarks fx; playerTwoInRow fx;
                      opponentTwoInRow fx; Z.max 0 (centerControl fx);
                      playerCorners fx ]).
  { subst fs fx. unfold extractDatasetFeatures, extractFeatures.
    change FeatureExtractor.lines with GameLogic.lines.
    rewrite (almostWin_lineCounters b GameLogic.lines 0 0 0 0).
    change (getOpponent X) with O.
    destruct (fold_left (lineCounters b X O) GameLogic.lines (0, 0, 0, 0))
      as [[[r1 r2] r3] r4].
    simpl. repeat f_equal. repeat case_decide; try done; congruence. }
  split; [exact Hx|].
  rewrite Hx. subst fo. change O with (getOpponent X).
  rewrite extractFeatures_swap. fold fx. unfold flipped, feature. cbn [lookup list_lookup default].
  clear Hx. clearbody fx. destruct fx. simpl. repeat f_equal. lia.
Qed.

(** ** The ranges of the dataset-format features *)

Lemma countOf_cons (c v : cell) (l : list cell) :
  countOf c (v :: l) = (if decide (v = c) then 1 else 0) + countOf c l.
Proof.
  unfold countOf. rewrite filter_cons. destruct (decide (v = c)); simpl length; lia.
Qed.

Lemma countOf_nonneg (c : cell) (l : list cell) : 0 ≤ countOf c l.
Proof. unfold countOf. lia. Qed.

Lemma countOf_marks_le (l : list cell) :
  countOf (Mark X) l + countOf (Mark O) l + countOf Null l ≤ Z.of_nat (length l).
Proof.
  induction l as [|v l IH]; [done|].
  rewrite !countOf_cons. simpl length.
  repeat case_decide; subst; try done; lia.
Qed.

Lemma countOf_Null (b : board) : countOf Null b = Z.of_nat (countNull b).
Proof. reflexivity. Qed.

Lemma almostWinCounters_step (b : board) a1 a2 l :
  exists d1 d2,
    almostWinCounters b (a1, a2) l = (a1 + d1, a2 + d2)
    /\ 0 ≤ d1 /\ 0 ≤ d2 /\ d1 + d2 ≤ 1.
Proof.
  destruct l as [[i j] k]. unfold almostWinCounters.
  pose proof (countOf_marks_le [cellAt b i; cellAt b j; cellAt b k]) as H3.
  simpl length in H3.
  repeat case_bool_decide.
  - lia.
  - exists 1, 0. repeat split; try lia. f_equal; lia.
  - exists 0, 1. repeat split; try lia. f_equal; lia.
  - exists 0, 0. repeat split; try lia. f_equal; lia.
Qed.

Lemma almostWinCounters_fold (b : board) l a1 a2 :
  exists r1 r2,
    fold_left (almostWinCounters b) l (a1, a2) = (r1, r2)
    /\ a1 ≤ r1 /\ a2 ≤ r2 /\ r1 + r2 ≤ a1 + a2 + Z.of_nat (length l).
Proof.
  revert a1 a2. induction l as [|x l IH]; intros a1 a2.
  - exists a1, a2. simpl. repeat split; lia.
  - cbn [fold_left].
    destruct (almostWinCounters_step b a1 a2 x) as (d1 & d2 & -> & ? & ? & ?).
    destruct (IH (a1 + d1) (a2 + d2)) as (r1 & r2 & -> & ? & ? & ?).
    exists r1, r2. simpl length. repeat split; lia.
Qed.

Lemma datasetFeatures_ranges (b : board) (player : mark) :
  exists xCount oCount xAlmostWin oAlmostWin xCenter xCorners,
    extractDatasetFeatures b player
    = [xCount; oCount; xAlmostWin; oAlmostWin; xCenter; xCorners]
    /\ 0 ≤ xCount /\ 0 ≤ oCount
    /\ xCount + oCount + Z.of_nat (countNull b) ≤ Z.of_nat (length b)
    /\ 0 ≤ xAlmostWin /\ 0 ≤ oAlmostWin /\ xAlmostWin + oAlmostWin ≤ 8
    /\ (xCenter = 0 \/ xCenter = 1)
    /\ 0 ≤ xCorners ≤ 4.
Proof.
  unfold extractDatasetFeatures.
  destruct (almostWinCounters_fold b FeatureExtractor.lines 0 0)
    as (r1 & r2 & -> & ? & ? & Hsum).
  simpl length in Hsum.
  eexists _, _, _, _, _, _. split; [reflexivity|].
  pose proof (countOf_marks_le b) as Hb. rewrite countOf_Null in Hb.
  pose proof (countOf_nonneg (Mark X) b). pose proof (countOf_nonneg (Mark O) b).
  repeat split; try lia.
  - case_decide; auto.
  - pose proof (length_filter (fun i => cellAt b i = Mark X) FeatureExtractor.corners) as Hc.
    simpl length in Hc at 2. lia.
Qed.


(** X12.  The components of the dataset-format vector stay in the ranges the
    source documents: the marks of X and of O are counts that together with the
    empty cells do not exceed the size of the board (9 on a board of nine
    cells); the two almost-win counts are counts of lines, no line is counted
    for both sides, so together they are at most 8; the center flag is 0 or 1
    and the corner count is between 0 and 4. *)
Theorem extractDatasetFeatures_ranges (b : board) (player : mark) :
  exists xCount oCount xAlmostWin oAlmostWin xCenter xCorners,
    extractDatasetFeatures b player
    = [xCount; oCount; xAlmostWin; oAlmostWin; xCenter; xCorners]
    /\ 0 ≤ xCount /\ 0 ≤ oCount
    /\ xCount + oCount + Z.of_nat (countNull b) ≤ Z.of_nat (length b)
    /\ 0 ≤ xAlmostWin /\ 0 ≤ oAlmostWin /\ xAlmostWin + oAlmostWin ≤ 8
    /\ (xCenter = 0 \/ xCenter = 1)
    /\ 0 ≤ xCorners ≤ 4.
Proof. apply datasetFeatures_ranges. Qed.

(** ** The clamp of the linear evaluator *)

Lemma mlEvaluate_unfold W (b : board) player :
  terminal (isTerminal b) = false ->
  mlEvaluate W b player
  = clampNumber (weightedSum (MlEval.bias W) (scoredFeatures b player) (MlEval.weights W)).
Proof.
  intros H. unfold mlEvaluate, scoredFeatures. rewrite H. cbv zeta. by destruct player.
Qed.

Lemma clampNumber_ofQc (q : Qc) : clampNumber (ofQc q) = ofQc (clampScore q).
Proof. unfold clampNumber, clampScore, ofZ. by rewrite js_min_ofQc, js_max_ofQc. Qed.

Lemma clampNumber_cases (score : number) :
  clampNumber score = NaN
  \/ exists q, clampNumber score = ofQc q /\ (Qc_of_Z (-90) ≤ q ≤ Qc_of_Z 90)%Qc.
Proof.
  destruct score as [[|q|]|]; [right|right|right|by left].
  - exists (Qc_of_Z (-90)). split; [done|].
    split; [reflexivity|by apply (proj1 (Z2Qc_inj_le _ _))].
  - exists (clampScore q). split; [apply clampNumber_ofQc|apply clampScore_range].
  - exists (Qc_of_Z 90). split; [done|].
    split; [by apply (proj1 (Z2Qc_inj_le _ _))|reflexivity].
Qed.

Lemma magnitudeAtMost_mono (b1 b2 : Qc) x :
  (b1 ≤ b2)%Qc -> magnitudeAtMost b1 x -> magnitudeAtMost b2 x.
Proof.
  intros Hb (q & -> & Hlo & Hhi). exists q. split; [done|]. split.
  - eapply Qcle_trans; [|exact Hlo]. by apply Qcopp_le_compat.
  - by eapply Qcle_trans.
Qed.

Lemma Qcmult_bound_mono (bound : Qc) (c1 c2 : Z) :
  (0 ≤ bound)%Qc -> c1 ≤ c2 -> (bound * Qc_of_Z c1 ≤ bound * Qc_of_Z c2)%Qc.
Proof.
  intros Hb Hc. apply Qcmult_le_mono_nonneg_l; [done|].
  by apply (proj1 (Z2Qc_inj_le _ _)).
Qed.

(** One product of the loop, and one step of it. *)
Lemma product_within (bound : Qc) (f : Z) w :
  0 ≤ f -> magnitudeAtMost bound w ->
  exists p, js_mul (ofZ f) w = ofQc p
    /\ (- (bound * Qc_of_Z f) ≤ p)%Qc /\ (p ≤ bound * Qc_of_Z f)%Qc.
Proof.
  intros Hf (q & -> & Hlo & Hhi).
  assert (Hf' : (0 ≤ Qc_of_Z f)%Qc) by by apply (proj1 (Z2Qc_inj_le 0 f)).
  exists (Qc_of_Z f * q)%Qc. split; [done|]. split.
  - replace (- (bound * Qc_of_Z f))%Qc with (Qc_of_Z f * - bound)%Qc by ring.
    by apply Qcmult_le_mono_nonneg_l.
  - rewrite (Qcmult_comm bound). by apply Qcmult_le_mono_nonneg_l.
Qed.

Lemma weightedSum_step_within (bound : Qc) (c0 f : Z) score w :
  0 ≤ f -> magnitudeAtMost (bound * Qc_of_Z c0) score -> magnitudeAtMost bound w ->
  magnitudeAtMost (bound * Qc_of_Z (c0 + f)) (js_add score (js_mul (ofZ f) w)).
Proof.
  intros Hf (s & -> & Hslo & Hshi) Hw.
  destruct (product_within bound f w Hf Hw) as (p & -> & Hplo & Hphi).
  exists (s + p)%Qc. split; [done|].
  rewrite Z2Qc_inj_add.
  replace (bound * (Qc_of_Z c0 + Qc_of_Z f))%Qc
    with (bound * Qc_of_Z c0 + bound * Qc_of_Z f)%Qc by ring.
  split.
  - replace (- (bound * Qc_of_Z c0 + bound * Qc_of_Z f))%Qc
      with (- (bound * Qc_of_Z c0) + - (bound * Qc_of_Z f))%Qc by ring.
    by apply Qcplus_le_compat.
  - by apply Qcplus_le_compat.
Qed.

Lemma featureTotal_nonneg fs : Forall (fun f => 0 ≤ f) fs -> 0 ≤ featureTotal fs.
Proof. induction 1 as [|f fs Hf _ IH]; simpl; [done|]. lia. Qed.

Lemma featureTotal_take k fs :
  Forall (fun f => 0 ≤ f) fs -> featureTotal (take k fs) ≤ featureTotal fs.
Proof.
  intros H. revert k. induction H as [|f fs Hf Hfs IH]; intros [|k]; simpl; try done.
  - pose proof (featureTotal_nonneg fs Hfs). lia.
  - specialize (IH k). lia.
Qed.

(** The loop keeps within [bound] times one more than the features it has
    added. *)
Lemma weightedSum_within (bound : Qc) :
  (0 ≤ bound)%Qc ->
  forall fs ws score c0,
  Forall (fun f => 0 ≤ f) fs -> Forall (magnitudeAtMost bound) ws ->
  magnitudeAtMost (bound * Qc_of_Z c0) score ->
  magnitudeAtMost (bound * Qc_of_Z (c0 + featureTotal fs)) (weightedSum score fs ws).
Proof.
  intros Hb fs. induction fs as [|f fs IH]; intros ws score c0 Hfs Hws Hs.
  - unfold weightedSum. simpl. by rewrite Z.add_0_r.
  - apply Forall_cons in Hfs as [Hf Hfs].
    destruct ws as [|w ws].
    + unfold weightedSum. simpl.
      eapply magnitudeAtMost_mono; [|exact Hs]. apply Qcmult_bound_mono; [done|].
      pose proof (featureTotal_nonneg fs Hfs). lia.
    + apply Forall_cons in Hws as [Hw Hws].
      unfold weightedSum. cbn [zip zip_with fold_left fst snd].
      fold (weightedSum (js_add score (js_mul (ofZ f) w)) fs ws).
      replace (c0 + featureTotal (f :: fs)) with ((c0 + f) + featureTotal fs)
        by (simpl; lia).
      apply IH; [done|done|]. by apply weightedSum_step_within.
Qed.

Lemma scoredFeatures_ranges (b : board) (player : mark) :
  Forall (fun f => 0 ≤ f) (scoredFeatures b player)
  /\ featureTotal (scoredFeatures b player) ≤ Z.of_nat (length b) + 13.
Proof.
  unfold scoredFeatures.
  destruct (datasetFeatures_ranges b player)
    as (f0 & f1 & f2 & f3 & f4 & f5 & -> & H0 & H1 & Hsum & H2 & H3 & Hlines & Hc & Hk).
  destruct player; unfold flipped, feature; simpl.
  - split; [repeat constructor; lia|lia].
  - split; [repeat constructor; lia|lia].
Qed.

(** Weights within [bound] on a board [b]: the products and the partial sums
    of the loop stay finite, within [bound * (length b + 14)], and the result
    is the clamped sum. *)
Lemma mlEvaluate_within (bound : Qc) W (b : board) player :
  (0 ≤ bound)%Qc -> weightsWithin bound W ->
  terminal (isTerminal b) = false ->
  (forall k, magnitudeAtMost (bound * Qc_of_Z (Z.of_nat (length b) + 14))
               (weightedSum (MlEval.bias W) (take k (scoredFeatures b player))
                  (MlEval.weights W)))
  /\ (forall i f w, scoredFeatures b player !! i = Some f -> MlEval.weights W !! i = Some w ->
        magnitudeAtMost (bound * Qc_of_Z (Z.of_nat (length b) + 14)) (js_mul (ofZ f) w))
  /\ exists q, mlEvaluate W b player = ofQc q
       /\ (Qc_of_Z (-90) ≤ q ≤ Qc_of_Z 90)%Qc.
Proof.
  intros Hb [Hbias Hws] Hnt.
  destruct (scoredFeatures_ranges b player) as [Hnonneg Htotal].
  assert (Hpartial : forall k,
            magnitudeAtMost (bound * Qc_of_Z (Z.of_nat (length b) + 14))
              (weightedSum (MlEval.bias W) (take k (scoredFeatures b player))
                 (MlEval.weights W))).
  { intros k.
    eapply magnitudeAtMost_mono;
      [|apply (weightedSum_within bound Hb (take k (scoredFeatures b player))
                 (MlEval.weights W) (MlEval.bias W) 1);
        [by apply Forall_take|done|]].
    - apply Qcmult_bound_mono; [done|].
      pose proof (featureTotal_take k _ Hnonneg). lia.
    - rewrite Z2Qc_inj_1, Qcmult_1_r. exact Hbias. }
  split; [exact Hpartial|]. split.
  - intros i f w Hf Hw.
    assert (Hf0 : 0 ≤ f).
    { rewrite Forall_forall in Hnonneg. apply Hnonneg. by eapply list_elem_of_lookup_2. }
    assert (Hfle : f ≤ featureTotal (scoredFeatures b player)).
    { clear -Hf Hnonneg. revert i Hf.
      induction Hnonneg as [|g fs Hg Hfs IH]; intros [|i] Hi; simpl in *; try done.
      - injection Hi as ->. pose proof (featureTotal_nonneg fs Hfs). lia.
      - specialize (IH i Hi). lia. }
    destruct (product_within bound f w Hf0) as (p & -> & Hlo & Hhi).
    { rewrite Forall_forall in Hws. apply Hws. by eapply list_elem_of_lookup_2. }
    assert (Hle : (bound * Qc_of_Z f ≤ bound * Qc_of_Z (Z.of_nat (length b) + 14))%Qc)
      by (apply Qcmult_bound_mono; [done|lia]).
    exists p. split; [done|]. split.
    + eapply Qcle_trans; [|exact Hlo]. by apply Qcopp_le_compat.
    + by eapply Qcle_trans.
  - specialize (Hpartial (length (scoredFeatures b player))).
    rewrite firstn_all in Hpartial. destruct Hpartial as (s & Hs & _).
    rewrite (mlEvaluate_unfold W b player Hnt), Hs, clampNumber_ofQc.
    exists (clampScore s). split; [done|apply clampScore_range].
Qed.

(** C5, as the code has it.  On a non-terminal board, for every player,
    [mlEvaluate] returns NaN or a number of the closed interval [-90, 90],
    whatever the weights are: never an infinity and nothing outside the
    interval.  For weights that are finite, of magnitude at most [bound] with
    [bound * (length b + 14)] not above the largest number, the products and
    the partial sums of its loop stay finite and the result is a number of
    [-90, 90]; it lies strictly between the terminal scores [depth - 100] and
    [100 - depth] of the search at every depth 0..9, the scores -100 and 100
    included.  The evaluator over the fixed weight table returns a number of
    [-90, 90] on every non-terminal board.  In a search of [findBestMove] on
    a board of nine cells the terminal nodes are at depths 0..8: with either
    evaluator (the weights within such a bound) each root value lies in
    [-90, 90] (an evaluator score or a draw) or is a win or loss score of
    magnitude 92..100. *)
Theorem mlEvaluate_clamped
    (W : modelWeights) (b : board) (player : mark)
    (Hnonterminal : terminal (isTerminal b) = false) :
  (mlEvaluate W b player = NaN
   \/ exists q, mlEvaluate W b player = ofQc q
        /\ (Qc_of_Z (-90) ≤ q ≤ Qc_of_Z 90)%Qc)
  /\ (forall bound,
        (0 ≤ bound)%Qc -> weightsWithin bound W ->
        (bound * Qc_of_Z (Z.of_nat (length b) + 14) ≤ MAX_VALUE)%Qc ->
        (forall k, magnitudeAtMost MAX_VALUE
                     (weightedSum (MlEval.bias W) (take k (scoredFeatures b player))
                        (MlEval.weights W)))
        /\ (forall i f w,
              scoredFeatures b player !! i = Some f -> MlEval.weights W !! i = Some w ->
              magnitudeAtMost MAX_VALUE (js_mul (ofZ f) w))
        /\ exists q, mlEvaluate W b player = ofQc q
             /\ (Qc_of_Z (-90) ≤ q ≤ Qc_of_Z 90)%Qc
             /\ forall depth, (0 ≤ depth ≤ 9)%Z ->
                  (Qc_of_Z (depth - 100) < q < Qc_of_Z (100 - depth))%Qc)
  /\ (Qc_of_Z (-90) ≤ MlEvalTrained.mlEvaluate b player ≤ Qc_of_Z 90)%Qc
  /\ (forall depth, (0 ≤ depth ≤ 9)%Z ->
        (Qc_of_Z (depth - 100) < MlEvalTrained.mlEvaluate b player
         < Qc_of_Z (100 - depth))%Qc)
  /\ (forall (b0 : board) ai maxDepth move bound,
        length b0 = 9%nat -> move ∈ getLegalMoves b0 ->
        (0 ≤ bound)%Qc -> weightsWithin bound W ->
        (bound * Qc_of_Z 23 ≤ MAX_VALUE)%Qc ->
        scoreBands (rootValue b0 ai (mlEvaluate W) maxDepth move))
  /\ (forall (b0 : board) ai maxDepth move,
        length b0 = 9%nat -> move ∈ getLegalMoves b0 ->
        scoreBands (rootValue b0 ai (finiteEvaluator MlEvalTrained.mlEvaluate)
                      maxDepth move)).
Proof.
  split.
  { rewrite (mlEvaluate_unfold W b player Hnonterminal). apply clampNumber_cases. }
  split.
  { intros bound Hb HW Hmax.
    destruct (mlEvaluate_within bound W b player Hb HW Hnonterminal)
      as (Hpartial & Hproducts & q & Hq & Hrange).
    split; [intros k; by eapply magnitudeAtMost_mono|].
    split; [intros i f w Hf Hw; eapply magnitudeAtMost_mono; [exact Hmax|by eapply Hproducts]|].
    exists q. split; [done|]. split; [done|].
    intros depth Hd. by apply clamped_below_sentinel. }
  destruct (mlEvaluate_trained_nonterminal b player Hnonterminal) as [s2 ->].
  pose proof (clampScore_range s2).
  split; [done|]. split; [intros depth Hd; by apply clamped_below_sentinel|].
  split.
  - intros b0 ai maxDepth move bound Hlen Hin Hb HW Hmax.
    pose proof (countNull_makeMove b0 move ai Hin) as Hc.
    pose proof (countNull_le_length b0) as Hle. rewrite Hlen in Hle.
    unfold rootValue, alphaBetaSearch. apply alphaBetaFuel_leaf; [done| |].
    + intros b' d Hd _. apply terminalScore_bands. lia.
    + intros b' Hlen' Hb'.
      destruct (mlEvaluate_within bound W b' ai Hb HW Hb') as (_ & _ & q & Hq & Hrange).
      exists q. split; [done|]. by left.
  - intros b0 ai maxDepth move Hlen Hin.
    pose proof (countNull_makeMove b0 move ai Hin) as Hc.
    pose proof (countNull_le_length b0) as Hle. rewrite Hlen in Hle.
    unfold rootValue, alphaBetaSearch. apply alphaBetaFuel_leaf; [done| |].
    + intros b' d Hd _. apply terminalScore_bands. lia.
    + intros b' _ Hb'. unfold finiteEvaluator.
      destruct (mlEvaluate_trained_nonterminal b' ai Hb') as [s ->].
      eexists. split; [done|]. left. apply clampScore_range.
Qed.

Lemma mlEvaluate_clamped_witness :
  terminal (isTerminal createEmptyBoard) = false
  /\ (0 ≤ Qc_of_Z 22)%Qc
  /\ weightsWithin (Qc_of_Z 22) defaultWeights
  /\ (Qc_of_Z 22 * Qc_of_Z (Z.of_nat (length createEmptyBoard) + 14) ≤ MAX_VALUE)%Qc
  /\ exists q, mlEvaluate defaultWeights createEmptyBoard X = ofQc q
       /\ (Qc_of_Z (-90) ≤ q ≤ Qc_of_Z 90)%Qc.
Proof.
  assert (H0 : (0 ≤ Qc_of_Z 22)%Qc) by by vm_compute.
  assert (HW : weightsWithin (Qc_of_Z 22) defaultWeights).
  { split; [eexists; split; [reflexivity|]; split; by vm_compute|].
    repeat constructor; (eexists; split; [reflexivity|]; split; by vm_compute). }
  assert (Hmax : (Qc_of_Z 22 * Qc_of_Z (Z.of_nat (length createEmptyBoard) + 14)
                  ≤ MAX_VALUE)%Qc) by by vm_compute.
  split; [reflexivity|]. split; [exact H0|]. split; [exact HW|]. split; [exact Hmax|].
  destruct (mlEvaluate_clamped defaultWeights createEmptyBoard X eq_refl) as (_ & H & _).
  destruct (H (Qc_of_Z 22) H0 HW Hmax) as (_ & _ & q & Hq & Hrange & _).
  by exists q.
Defined.

(** C5, as stated, fails for weights that are not finite.  [updateMLWeights]
    stores the weights of any model with six feature weights; the model
    trained on a sample whose label is NaN has the feature weights NaN, and
    with them [mlEvaluate] returns NaN on the empty board.  So it does with
    the weights [Infinity], the product [0 * Infinity] being NaN. *)
Lemma mlEvaluate_NaN_outside_clamp :
  terminal (isTerminal createEmptyBoard) = false
  /\ MlEval.weights nanLabelWeights = replicate 6 NaN
  /\ mlEvaluate nanLabelWeights createEmptyBoard X = NaN
  /\ mlEvaluate (mkModelWeights (ofQc 0%Qc) (replicate 6 (Some Infinity)))
       createEmptyBoard X = NaN
  /\ ~ (exists q, mlEvaluate nanLabelWeights createEmptyBoard X = ofQc q
                  /\ (Qc_of_Z (-90) ≤ q ≤ Qc_of_Z 90)%Qc)
  /\ js_geb (mlEvaluate nanLabelWeights createEmptyBoard X) (ofZ (-90)) = false
  /\ js_leb (mlEvaluate nanLabelWeights createEmptyBoard X) (ofZ 90) = false.
Proof.
  assert (H : mlEvaluate nanLabelWeights createEmptyBoard X = NaN)
    by (vm_compute; reflexivity).
  split; [reflexivity|]. split; [vm_compute; reflexivity|]. split; [exact H|].
  split; [vm_compute; reflexivity|]. split.
  - intros (q & Hq & _). rewrite H in Hq. discriminate.
  - rewrite H. by split.
Qed.

(** ** The advanced evaluator and the noise *)

Lemma clampScore_integer (z : Z) :
  clampScore (Qc_of_Z z) = Qc_of_Z (Z.max (-90) (Z.min 90 z)).
Proof.
  unfold clampScore, Qc_max, Qc_min.
  repeat case_bool_decide;
    repeat match goal with
           | H : (Qc_of_Z _ ≤ Qc_of_Z _)%Qc |- _ => apply Z2Qc_inj_le in H
           | H : ¬ (Qc_of_Z _ ≤ Qc_of_Z _)%Qc |- _ =>
               apply Qcnot_le_lt, Z2Qc_inj_lt in H
           end; f_equal; lia.
Qed.

Lemma terminalValue_cases ts player win :
  terminalValue ts player win = Qc_of_Z win
  \/ terminalValue ts player win = Qc_of_Z (- win)
  \/ terminalValue ts player win = Qc_of_Z 0.
Proof. unfold terminalValue. repeat case_decide; auto. Qed.

(** X13.  [mlEvaluateAdvanced] returns an integer: on a terminal board 100 when
    the player has won, -100 when the opponent has won and 0 for a draw; on any
    other board a value between -90 and 90.  So in a search on a board of nine
    cells its root values keep apart from the win and loss scores of the search,
    as those of the linear evaluators do. *)
Theorem mlEvaluateAdvanced_range (b : board) (player : mark) :
  (exists z, MlEvalTrained.mlEvaluateAdvanced b player = Qc_of_Z z /\ -100 ≤ z ≤ 100)
  /\ (terminal (isTerminal b) = true ->
        MlEvalTrained.mlEvaluateAdvanced b player
        = terminalValue (isTerminal b) player 100)
  /\ (terminal (isTerminal b) = false ->
        exists z, MlEvalTrained.mlEvaluateAdvanced b player = Qc_of_Z z
                  /\ -90 ≤ z ≤ 90)
  /\ (forall (b0 : board) ai maxDepth move,
        length b0 = 9%nat -> move ∈ getLegalMoves b0 ->
        scoreBands (rootValue b0 ai (finiteEvaluator MlEvalTrained.mlEvaluateAdvanced)
                      maxDepth move)).
Proof.
  assert (Hnt : forall b' p, terminal (isTerminal b') = false ->
            exists z, MlEvalTrained.mlEvaluateAdvanced b' p = Qc_of_Z z /\ -90 ≤ z ≤ 90).
  { intros b' p Ht. unfold MlEvalTrained.mlEvaluateAdvanced. rewrite Ht. cbv zeta.
    rewrite clampScore_integer. eexists. split; [reflexivity|]. lia. }
  split; [|split; [|split; [by apply Hnt|]]].
  - destruct (terminal (isTerminal b)) eqn:Ht.
    + unfold MlEvalTrained.mlEvaluateAdvanced. rewrite Ht.
      destruct (terminalValue_cases (isTerminal b) player 100) as [->|[->| ->]];
        eexists; (split; [reflexivity|lia]).
    + destruct (Hnt b player Ht) as (z & -> & ?). exists z. split; [done|lia].
  - intros Ht. unfold MlEvalTrained.mlEvaluateAdvanced. by rewrite Ht.
  - intros b0 ai maxDepth move Hlen Hin.
    pose proof (countNull_makeMove b0 move ai Hin) as Hc.
    pose proof (countNull_le_length b0) as Hle. rewrite Hlen in Hle.
    unfold rootValue, alphaBetaSearch. apply alphaBetaFuel_leaf; [done| |].
    + intros b' d Hd _. apply terminalScore_bands. lia.
    + intros b' _ Hb'. unfold finiteEvaluator.
      destruct (Hnt b' ai Hb') as (z & -> & Hz).
      eexists. split; [done|]. left.
      split; apply (proj1 (Z2Qc_inj_le _ _)); lia.
Qed.

Lemma mlEvaluateAdvanced_range_witness :
  terminal (isTerminal createEmptyBoard) = false
  /\ exists z, MlEvalTrained.mlEvaluateAdvanced createEmptyBoard X = Qc_of_Z z
               /\ -90 ≤ z ≤ 90.
Proof.
  split; [reflexivity|].
  destruct (mlEvaluateAdvanced_range createEmptyBoard X) as (_ & _ & H & _).
  exact (H eq_refl).
Defined.

Lemma Qcplus_lt_compat_r (x y z : Qc) : (x < y)%Qc -> (x + z < y + z)%Qc.
Proof.
  intros H. apply Qclt_minus_iff. apply Qclt_minus_iff in H.
  by replace (y + z + - (x + z))%Qc with (y + - x)%Qc by ring.
Qed.

Lemma half_twice (r : Qc) :
  ((r - Q2Qc (1 # 2)) * Qc_of_Z 2 = r + r - 1)%Qc.
Proof.
  replace (Qc_of_Z 2) with (1 + 1)%Qc by (by apply Qc_is_canon).
  replace 1%Qc with (Q2Qc (1 # 2) + Q2Qc (1 # 2))%Qc at 3 by (by apply Qc_is_canon).
  ring.
Qed.

(** X14.  [addNoise] returns the score itself for the noise level 0.  For a
    noise level that is not negative and a value of [Math.random] in [0, 1) the
    result differs from the score by at most 20 times the noise level; it is
    below the score plus that bound when the level is positive. *)
Theorem addNoise_bounded (random score noiseLevel : Qc)
    (Hrandom : (0 ≤ random)%Qc /\ (random < 1)%Qc)
    (Hlevel : (0 ≤ noiseLevel)%Qc) :
  addNoise random score 0 = score
  /\ (score - Qc_of_Z 20 * noiseLevel ≤ addNoise random score noiseLevel)%Qc
  /\ (addNoise random score noiseLevel ≤ score + Qc_of_Z 20 * noiseLevel)%Qc
  /\ ((0 < noiseLevel)%Qc ->
        (addNoise random score noiseLevel < score + Qc_of_Z 20 * noiseLevel)%Qc).
Proof.
  destruct Hrandom as [Hr0 Hr1].
  split; [reflexivity|].
  unfold addNoise. destruct (decide (noiseLevel = 0)%Qc) as [->|Hne].
  { replace (Qc_of_Z 20 * 0)%Qc with 0%Qc by ring.
    replace (score - 0)%Qc with score by ring.
    replace (score + 0)%Qc with score by ring.
    split; [reflexivity|]. split; [reflexivity|].
    intros H. by apply Qclt_not_eq in H. }
  cbv zeta.
  set (t := (Qc_of_Z 20 * noiseLevel)%Qc).
  set (u := ((random - Q2Qc (1 # 2)) * Qc_of_Z 2)%Qc).
  assert (H20 : (0 < Qc_of_Z 20)%Qc) by by apply (proj1 (Z2Qc_inj_lt 0 20)).
  assert (Ht : (0 ≤ t)%Qc).
  { subst t. replace 0%Qc with (0 * Qc_of_Z 20)%Qc by ring.
    rewrite (Qcmult_comm _ noiseLevel).
    apply Qcmult_le_compat_r; [done|by apply Qclt_le_weak]. }
  assert (Hu1 : (u < 1)%Qc).
  { subst u. rewrite half_twice. apply Qclt_minus_iff.
    replace (1 + - (random + random - 1))%Qc
      with ((1 + - random) + (1 + - random))%Qc by ring.
    apply Qclt_minus_iff in Hr1.
    replace 0%Qc with (0 + 0)%Qc by ring.
    eapply Qclt_trans; [apply Qcplus_lt_compat_r, Hr1|].
    rewrite !(Qcplus_comm (1 + - random)). by apply Qcplus_lt_compat_r. }
  assert (Hu0 : (- (1) ≤ u)%Qc).
  { subst u. rewrite half_twice. apply Qcle_minus_iff.
    replace (random + random - 1 + - - (1))%Qc with (random + random)%Qc by ring.
    replace 0%Qc with (0 + 0)%Qc by ring. by apply Qcplus_le_compat. }
  replace (u * noiseLevel * Qc_of_Z 20)%Qc with (u * t)%Qc by (subst t; ring).
  split; [|split].
  - unfold Qcminus. apply Qcplus_le_compat; [reflexivity|].
    replace (- t)%Qc with (- (1) * t)%Qc by ring.
    by apply Qcmult_le_compat_r.
  - apply Qcplus_le_compat; [reflexivity|].
    replace t with (1 * t)%Qc at 2 by ring.
    apply Qcmult_le_compat_r; [by apply Qclt_le_weak|done].
  - intros Hpos. rewrite (Qcplus_comm score (u * t)), (Qcplus_comm score t).
    apply Qcplus_lt_compat_r.
    replace t with (1 * t)%Qc at 2 by ring.
    apply Qcmult_lt_compat_r; [|done].
    subst t. replace 0%Qc with (0 * Qc_of_Z 20)%Qc by ring.
    rewrite (Qcmult_comm _ noiseLevel).
    by apply Qcmult_lt_compat_r.
Qed.

Lemma addNoise_bounded_witness :
  ((0 ≤ Q2Qc (1 # 4))%Qc /\ (Q2Qc (1 # 4) < 1)%Qc)
  /\ (0 ≤ Q2Qc (3 # 10))%Qc
  /\ (addNoise (Q2Qc (1 # 4)) (Qc_of_Z 12) (Q2Qc (3 # 10))
      ≤ Qc_of_Z 12 + Qc_of_Z 20 * Q2Qc (3 # 10))%Qc.
Proof.
  assert (H1 : (0 ≤ Q2Qc (1 # 4))%Qc /\ (Q2Qc (1 # 4) < 1)%Qc) by (split; reflexivity || done).
  assert (H2 : (0 ≤ Q2Qc (3 # 10))%Qc) by done.
  split; [exact H1|]. split; [exact H2|].
  destruct (addNoise_bounded (Q2Qc (1 # 4)) (Qc_of_Z 12) (Q2Qc (3 # 10)) H1 H2)
    as (_ & _ & H & _).
  exact H.
Defined.

(** ** Slices *)

Lemma sliceIndex_nat (len k : nat) : sliceIndex len (Z.of_nat k) = (k `min` len)%nat.
Proof. unfold sliceIndex. case_decide; lia. Qed.

Lemma sliceFrom_drop {A} (l : list A) (k : nat) : sliceFrom l (Z.of_nat k) = drop k l.
Proof.
  unfold sliceFrom. rewrite sliceIndex_nat.
  destruct (decide (k <= length l)%nat).
  - by rewrite Nat.min_l.
  - rewrite Nat.min_r by lia. by rewrite !drop_ge by lia.
Qed.

Lemma slice_take_drop {A} (l : list A) (s e : nat) :
  (s <= e)%nat -> slice l (Z.of_nat s) (Z.of_nat e) = take (e - s) (drop s l).
Proof.
  intros Hse. unfold slice. cbv zeta. rewrite !sliceIndex_nat.
  destruct (decide (e <= length l)%nat).
  - by rewrite !Nat.min_l by lia.
  - destruct (decide (s <= length l)%nat).
    + rewrite (Nat.min_l s) by lia. rewrite Nat.min_r by lia.
      rewrite !take_ge; [done|rewrite length_drop; lia|rewrite length_drop; lia].
    + rewrite !Nat.min_r by lia. rewrite Nat.sub_diag.
      rewrite (drop_ge l s) by lia. by rewrite take_nil.
Qed.

Lemma foldTrain_take_drop {A} (l : list A) foldSize i :
  foldTrain l foldSize i = take (i * foldSize) l ++ drop ((i + 1) * foldSize) l.
Proof.
  unfold foldTrain. cbv zeta. rewrite sliceFrom_drop. f_equal.
  change 0 with (Z.of_nat 0). rewrite slice_take_drop by lia.
  by rewrite Nat.sub_0_r, drop_0.
Qed.

Lemma foldTest_take_drop {A} (l : list A) foldSize i :
  foldTest l foldSize i = take foldSize (drop (i * foldSize) l).
Proof.
  unfold foldTest. cbv zeta. rewrite slice_take_drop by lia.
  f_equal. lia.
Qed.

(** ** The accuracy and the prediction *)

Lemma fold_left_NaN {B} (g : B -> number) (l : list B) :
  fold_left (fun acc x => js_add acc (g x)) l NaN = NaN.
Proof. induction l as [|x l IH]; simpl; [done|apply IH]. Qed.

Lemma js_add_NaN_r (a : number) : js_add a NaN = NaN.
Proof. by destruct a as [[| |]|]. Qed.

Lemma js_mul_NaN_l (a : number) : js_mul NaN a = NaN.
Proof. done. Qed.

Lemma predict_predictWith features ws :
  predict features ws = predictWith ws features (length features).
Proof. reflexivity. Qed.

Lemma predict_NaN features ws :
  features ≠ [] -> (length ws <= length features)%nat -> predict features ws = NaN.
Proof.
  intros Hne Hlen. unfold predict.
  destruct ws as [|b w].
  - unfold numAt at 1. simpl. apply (fold_left_NaN (fun i => js_mul (numAt [] (i + 1)) (numAt features i))).
  - simpl in Hlen.
    assert (Hsplit : seq 0 (length features)
                     = seq 0 (length w) ++ length w :: seq (S (length w)) (length features - S (length w))).
    { replace (length features) with (length w + S (length features - S (length w)))%nat at 1 by lia.
      by rewrite seq_app. }
    rewrite Hsplit, fold_left_app. cbn [fold_left].
    assert (HN : numAt (b :: w) (length w + 1) = NaN).
    { unfold numAt. rewrite lookup_ge_None_2; [done|]. simpl. lia. }
    rewrite HN, js_mul_NaN_l, js_add_NaN_r.
    apply (fold_left_NaN (fun i => js_mul (numAt (b :: w) (i + 1)) (numAt features i))).
Qed.

(** X15.  [predict] computes the linear prediction: the bias plus the sum of the
    products of weight and feature, when there is one weight for each feature;
    weights beyond the features are not read.  On a feature vector that is not
    empty and has more entries than there are weights for, the result is NaN (a
    weight read past the end of the array); on the empty feature vector the
    result is the first weight. *)
Theorem predict_linear_or_NaN (features ws : list number) :
  (forall b w, ws = b :: w -> length w = length features ->
     predict features ws = linearPrediction b w features)
  /\ (forall b w, ws = b :: w -> (length features <= length w)%nat ->
        predict features ws
        = linearPrediction b (take (length features) w) features)
  /\ (features ≠ [] -> (length ws <= length features)%nat ->
        predict features ws = NaN)
  /\ predict [] ws = numAt ws 0.
Proof.
  split; [|split; [|split; [apply predict_NaN|done]]].
  - intros b w -> Hlen. rewrite predict_predictWith, <- Hlen.
    apply predictWith_linear.
  - intros b w -> Hlen. unfold predict, linearPrediction.
    rewrite length_take, Nat.min_l by done.
    apply fold_left_ext_in. intros acc j Hj%elem_of_seq.
    rewrite numAt_cons_succ. unfold numAt. by rewrite lookup_take_lt by lia.
Qed.

Lemma predict_linear_or_NaN_witness :
  [ofQc 1%Qc; ofQc 2%Qc] ≠ []
  /\ (length [ofQc (Qc_of_Z 3); ofQc (Qc_of_Z 4)] <= length [ofQc 1%Qc; ofQc 2%Qc])%nat
  /\ predict [ofQc 1%Qc; ofQc 2%Qc] [ofQc (Qc_of_Z 3); ofQc (Qc_of_Z 4)] = NaN.
Proof.
  assert (H1 : [ofQc 1%Qc; ofQc 2%Qc] ≠ []) by discriminate.
  assert (H2 : (length [ofQc (Qc_of_Z 3); ofQc (Qc_of_Z 4)] <= length [ofQc 1%Qc; ofQc 2%Qc])%nat)
    by (simpl; lia).
  split; [exact H1|]. split; [exact H2|].
  destruct (predict_linear_or_NaN [ofQc 1%Qc; ofQc 2%Qc] [ofQc (Qc_of_Z 3); ofQc (Qc_of_Z 4)])
    as (_ & _ & H & _).
  exact (H H1 H2).
Defined.

Lemma count_loop {B} (P : B -> bool) (l : list B) (c : nat) :
  fold_left (fun correct i => if P i then S correct else correct) l c
  = (c + length (filter (fun i => P i = true) l))%nat.
Proof.
  revert c. induction l as [|x l IH]; intros c; simpl; [lia|].
  rewrite IH. destruct (P x) eqn:E.
  - rewrite filter_cons_True by done. simpl. lia.
  - rewrite filter_cons_False; [done|]. by rewrite E.
Qed.

Lemma ofNat_div (c m : nat) :
  m ≠ 0%nat ->
  js_mul (js_div (ofNat c) (ofNat m)) (ofNat 100)
  = ofQc (Qc_of_Z (Z.of_nat c) / Qc_of_Z (Z.of_nat m) * Qc_of_Z 100)%Qc.
Proof.
  intros Hm. unfold ofNat, js_div.
  rewrite decide_False; [done|].
  intros H. apply (f_equal (fun q => Qnum (this q))) in H. simpl in H. lia.
Qed.

Lemma percentage_range (c m : nat) :
  m ≠ 0%nat -> (c <= m)%nat ->
  (0 ≤ Qc_of_Z (Z.of_nat c) / Qc_of_Z (Z.of_nat m) * Qc_of_Z 100 ≤ Qc_of_Z 100)%Qc.
Proof.
  intros Hm Hc.
  assert (Hm0 : (0 < Qc_of_Z (Z.of_nat m))%Qc)
    by (apply (proj1 (Z2Qc_inj_lt 0 _)); lia).
  assert (Hc0 : (0 ≤ Qc_of_Z (Z.of_nat c))%Qc)
    by (apply (proj1 (Z2Qc_inj_le 0 _)); lia).
  assert (Hcm : (Qc_of_Z (Z.of_nat c) ≤ Qc_of_Z (Z.of_nat m))%Qc)
    by (apply (proj1 (Z2Qc_inj_le _ _)); lia).
  assert (H100 : (0 ≤ Qc_of_Z 100)%Qc) by by apply (proj1 (Z2Qc_inj_le 0 100)).
  assert (Hmne : Qc_of_Z (Z.of_nat m) ≠ 0%Qc).
  { intros E. rewrite E in Hm0. by apply Qclt_not_eq in Hm0. }
  set (r := (Qc_of_Z (Z.of_nat c) / Qc_of_Z (Z.of_nat m))%Qc).
  assert (Hr0 : (0 ≤ r)%Qc).
  { apply (Qcmult_lt_0_le_reg_r _ _ (Qc_of_Z (Z.of_nat m))); [done|].
    subst r. replace (0 * Qc_of_Z (Z.of_nat m))%Qc with 0%Qc by ring.
    by replace (Qc_of_Z (Z.of_nat c) / Qc_of_Z (Z.of_nat m) * Qc_of_Z (Z.of_nat m))%Qc
      with (Qc_of_Z (Z.of_nat c)) by (by field). }
  assert (Hr1 : (r ≤ 1)%Qc).
  { apply (Qcmult_lt_0_le_reg_r _ _ (Qc_of_Z (Z.of_nat m))); [done|].
    subst r. replace (1 * Qc_of_Z (Z.of_nat m))%Qc with (Qc_of_Z (Z.of_nat m)) by ring.
    by replace (Qc_of_Z (Z.of_nat c) / Qc_of_Z (Z.of_nat m) * Qc_of_Z (Z.of_nat m))%Qc
      with (Qc_of_Z (Z.of_nat c)) by (by field). }
  split.
  - replace 0%Qc with (0 * Qc_of_Z 100)%Qc by ring. by apply Qcmult_le_compat_r.
  - replace (Qc_of_Z 100) with (1 * Qc_of_Z 100)%Qc at 2 by ring.
    by apply Qcmult_le_compat_r.
Qed.

Lemma calculateAccuracy_count XX y ws :
  calculateAccuracy XX y ws
  = js_mul
      (js_div
         (ofNat (length (filter (fun i => classifiedCorrectly XX y ws i = true)
                           (seq 0 (length XX)))))
         (ofNat (length XX)))
      (ofNat 100).
Proof.
  unfold calculateAccuracy.
  rewrite (count_loop (classifiedCorrectly XX y ws)). done.
Qed.

Lemma calculateAccuracy_nil y ws : calculateAccuracy [] y ws = NaN.
Proof. reflexivity. Qed.

(** X16.  [calculateAccuracy] is 100 times the share of the samples that the
    weights classify correctly, where a prediction that is NaN counts as the
    class -1.  For a matrix with a sample it is a number between 0 and 100; for
    the empty matrix it is NaN (the division 0 / 0). *)
Theorem calculateAccuracy_percentage
    (XX : list (list number)) (y ws : list number) :
  let correct :=
    length (filter (fun i => classifiedCorrectly XX y ws i = true)
              (seq 0 (length XX))) in
  (correct <= length XX)%nat
  /\ calculateAccuracy XX y ws
     = js_mul (js_div (ofNat correct) (ofNat (length XX))) (ofNat 100)
  /\ (XX = [] -> calculateAccuracy XX y ws = NaN)
  /\ (XX ≠ [] ->
        exists q, calculateAccuracy XX y ws = ofQc q
                  /\ (0 ≤ q ≤ Qc_of_Z 100)%Qc
                  /\ (q * Qc_of_Z (Z.of_nat (length XX))
                      = Qc_of_Z (Z.of_nat correct) * Qc_of_Z 100)%Qc).
Proof.
  intros correct.
  assert (Hc : (correct <= length XX)%nat).
  { subst correct. etrans; [apply length_filter|]. by rewrite length_seq. }
  split; [done|]. split; [apply calculateAccuracy_count|].
  split; [by intros ->|].
  intros Hne. assert (Hm : length XX ≠ 0%nat) by by destruct XX.
  rewrite calculateAccuracy_count. fold correct. rewrite ofNat_div by done.
  eexists. split; [reflexivity|]. split; [by apply percentage_range|].
  assert (Hmne : Qc_of_Z (Z.of_nat (length XX)) ≠ 0%Qc).
  { intros H. apply (f_equal (fun q => Qnum (this q))) in H. simpl in H. lia. }
  by field.
Qed.

Lemma calculateAccuracy_percentage_witness :
  let XX := [[ofQc 1%Qc]; [ofQc (-1)%Qc]] in
  let y := [ofQc 1%Qc; ofQc 1%Qc] in
  XX ≠ []
  /\ exists q, calculateAccuracy XX y [ofQc 0%Qc; ofQc 1%Qc] = ofQc q
               /\ (0 ≤ q ≤ Qc_of_Z 100)%Qc.
Proof.
  assert (H : [[ofQc 1%Qc]; [ofQc (-1)%Qc]] ≠ []) by discriminate.
  split; [exact H|].
  destruct (calculateAccuracy_percentage [[ofQc 1%Qc]; [ofQc (-1)%Qc]]
              [ofQc 1%Qc; ofQc 1%Qc] [ofQc 0%Qc; ofQc 1%Qc])
    as (_ & _ & _ & Hq).
  destruct (Hq H) as (q & Hq1 & Hq2 & _).
  exists q. by split.
Defined.

(** ** The result of [trainLinearModel] *)

Lemma length_iter_gdEpoch XX y lr reg k ws :
  length (Nat.iter k (gdEpoch_array XX y lr reg) ws) = length ws.
Proof.
  induction k as [|k IH]; [done|]. simpl. by rewrite length_gdEpoch_array.
Qed.

Lemma trainLoop_accuracies XX y lr reg remaining :
  forall epoch ws h,
  length ws = S (length (rowAt XX 0)) ->
  accuracies (trainLoop XX y lr reg remaining epoch ws h).2
  = accuracies h
    ++ map (fun e => (e, calculateAccuracy XX y
                           (Nat.iter (S (e - epoch)) (gdEpoch_array XX y lr reg) ws)))
         (filter (fun e => (e mod 50 = 0)%nat) (seq epoch remaining)).
Proof.
  induction remaining as [|r IH]; intros epoch ws h Hlen.
  - simpl. by rewrite app_nil_r.
  - destruct ws as [|b w]; [done|]. injection Hlen as Hlen.
    cbn [trainLoop]. rewrite epochStep_spec by done.
    rewrite IH by (by rewrite length_gdEpoch_array; simpl; rewrite Hlen).
    cbn [accuracies seq]. rewrite filter_cons.
    assert (Hext : map (fun e => (e, calculateAccuracy XX y
                      (Nat.iter (S (e - S epoch)) (gdEpoch_array XX y lr reg)
                         (gdEpoch_array XX y lr reg (b :: w)))))
                     (filter (fun e => (e mod 50 = 0)%nat) (seq (S epoch) r))
                   = map (fun e => (e, calculateAccuracy XX y
                      (Nat.iter (S (e - epoch)) (gdEpoch_array XX y lr reg) (b :: w))))
                     (filter (fun e => (e mod 50 = 0)%nat) (seq (S epoch) r))).
    { apply map_ext_in. intros e He. apply list_elem_of_In in He.
      apply list_elem_of_filter in He as [_ He]. apply elem_of_seq in He.
      do 2 f_equal. rewrite <- Nat.iter_succ_r. f_equal. lia. }
    rewrite Hext. destruct (decide (epoch mod 50 = 0)%nat) as [E|E].
    + rewrite <- app_assoc. simpl. by rewrite Nat.sub_diag.
    + done.
Qed.

(** X17.  [trainLinearModel] fails exactly on the empty matrix.  Otherwise the
    model it returns has one weight more than the first sample has features: the
    bias, which is the first weight, followed by the feature weights; its
    history has one loss for each epoch and one accuracy for each epoch whose
    number is a multiple of 50, computed from the weights after that epoch.
    With no epoch the weights are the initial ones. *)
Theorem trainLinearModel_result
    (random : nat -> Qc) (XX : list (list number)) (y : list number)
    (options : trainOptions) :
  let n := length (rowAt XX 0) in
  let count := default 1000%nat (epochs options) in
  let step :=
    gdEpoch_array XX y
      (default (ofQc (Q2Qc (1 # 100))) (learningRate options))
      (default (ofQc (Q2Qc (1 # 1000))) (regularization options)) in
  (trainLinearModel random XX y options = None <-> XX = [])
  /\ (forall model, trainLinearModel random XX y options = Some model ->
        length (ModelTrainer.weights model) = S n
        /\ ModelTrainer.weights model
           = ModelTrainer.bias model :: featureWeights model
        /\ length (featureWeights model) = n
        /\ length (losses (history model)) = count
        /\ accuracies (history model)
           = map (fun e => (e, calculateAccuracy XX y
                                 (Nat.iter (S e) step (initialWeights random n))))
               (filter (fun e => (e mod 50 = 0)%nat) (seq 0 count))
        /\ (count = 0%nat ->
              ModelTrainer.weights model = initialWeights random n
              /\ history model = mkTrainHistory [] [])).
Proof.
  intros n count step. destruct XX as [|first rest]; [done|].
  split; [split; [|done]|].
  { unfold trainLinearModel. cbv zeta. by destruct (trainLoop _ _ _ _ _ _ _ _). }
  intros model. unfold trainLinearModel. cbv zeta.
  pose proof (trainLoop_iterates (first :: rest) y
                (default (ofQc (Q2Qc (1 # 100))) (learningRate options))
                (default (ofQc (Q2Qc (1 # 1000))) (regularization options))
                count 0 (initialWeights random (length first)) (mkTrainHistory [] [])
                (length_initialWeights random (length first))) as [H1 H2].
  pose proof (trainLoop_accuracies (first :: rest) y
                (default (ofQc (Q2Qc (1 # 100))) (learningRate options))
                (default (ofQc (Q2Qc (1 # 1000))) (regularization options))
                count 0 (initialWeights random (length first)) (mkTrainHistory [] [])
                (length_initialWeights random (length first))) as H3.
  fold count. fold step in H1.
  destruct (trainLoop _ _ _ _ count _ _ _) as [ws h] eqn:Et.
  intros [= <-]. simpl in *.
  assert (Hlen : length ws = S (length first)).
  { rewrite H1. unfold step. by rewrite length_iter_gdEpoch, length_initialWeights. }
  destruct ws as [|b w]; [done|]. injection Hlen as Hlen.
  subst n. simpl. rewrite drop_0.
  split; [by rewrite Hlen|]. split; [done|].
  split; [done|]. split; [done|]. split.
  { rewrite H3. apply map_ext_in. intros e _. by rewrite Nat.sub_0_r. }
  intros Hc. rewrite Hc in *. simpl in H1.
  split; [done|]. simpl in Et. by injection Et as _ <-.
Qed.

Lemma trainLinearModel_result_witness :
  let XX := [[ofQc 1%Qc]; [ofQc 2%Qc]] in
  let y := [ofQc 1%Qc; ofQc (-1)%Qc] in
  let options := mkTrainOptions None (Some 2%nat) None in
  exists model,
    trainLinearModel (fun _ => 0%Qc) XX y options = Some model
    /\ length (ModelTrainer.weights model) = 2%nat
    /\ length (losses (history model)) = 2%nat.
Proof.
  intros XX y options.
  destruct (trainLinearModel_result (fun _ => 0%Qc) XX y options) as (Hnone & Hsome).
  destruct (trainLinearModel (fun _ => 0%Qc) XX y options) as [model|] eqn:E.
  - exists model. split; [reflexivity|].
    destruct (Hsome model eq_refl) as (H1 & _ & _ & H4 & _). by split.
  - exfalso. by pose proof (proj1 Hnone eq_refl).
Defined.

(** ** A perfect fit is a fixed point of the training *)








(** ** Cross-validation *)

Lemma trainLinearModel_Some random XX y options :
  XX ≠ [] -> exists model, trainLinearModel random XX y options = Some model.
Proof.
  intros Hne. destruct XX as [|first rest]; [done|].
  unfold trainLinearModel. cbv zeta. destruct (trainLoop _ _ _ _ _ _ _ _). by eexists.
Qed.

Lemma foldStep_None random XX y foldSize options l :
  fold_left (foldStep random XX y foldSize options) l None = None.
Proof. induction l as [|i l IH]; simpl; [done|apply IH]. Qed.

Lemma foldLoop_Some random XX y foldSize options l :
  (forall i, i ∈ l -> foldTrain XX foldSize i ≠ []) ->
  forall acc,
  exists r,
    fold_left (foldStep random XX y foldSize options) l (Some acc) = Some (acc ++ r)
    /\ length r = length l
    /\ (forall k a, r !! k = Some a ->
          exists i model,
            l !! k = Some i
            /\ trainLinearModel (random i) (foldTrain XX foldSize i)
                 (foldTrain y foldSize i) options = Some model
            /\ a = calculateAccuracy (foldTest XX foldSize i) (foldTest y foldSize i)
                     (ModelTrainer.weights model)).
Proof.
  induction l as [|i l IH]; intros Hne acc.
  - exists []. simpl. by rewrite app_nil_r.
  - cbn [fold_left]. unfold foldStep at 2. cbv zeta.
    destruct (trainLinearModel_Some (random i) (foldTrain XX foldSize i)
                (foldTrain y foldSize i) options) as [model Hmodel].
    { apply Hne, list_elem_of_here. }
    rewrite Hmodel.
    destruct (IH (fun j Hj => Hne j (list_elem_of_further _ _ _ Hj))
                (acc ++ [calculateAccuracy (foldTest XX foldSize i)
                           (foldTest y foldSize i) (ModelTrainer.weights model)]))
      as (r & -> & Hlen & Hr).
    eexists (_ :: r). split; [by rewrite <- app_assoc|]. split; [simpl; by rewrite Hlen|].
    intros [|k] a Hk; simpl in Hk.
    + injection Hk as <-. by exists i, model.
    + by apply Hr.
Qed.

Lemma fold_add_NaN (l : list number) (a : number) :
  l ≠ [] -> Forall (fun x => x = NaN) l ->
  fold_left (fun a b => js_add a b) l a = NaN.
Proof.
  intros Hne Hall. destruct l as [|x l]; [done|].
  apply Forall_cons in Hall as [-> Hall]. simpl. rewrite js_add_NaN_r.
  clear Hne. induction Hall as [|x l -> _ IH]; [done|]. simpl. apply IH.
Qed.

(** X19.  [crossValidate] cuts the samples into [folds] test blocks of
    [floor(length / folds)] consecutive samples; the training set of a fold is
    the rest, so training and test set of a fold together are the samples.  With
    one fold the training set is empty and the call ends in the exception of
    [trainLinearModel], as it does for an empty matrix and at least one fold.
    In every other case it returns one accuracy for each fold.  With more folds
    than samples every test block is empty, every accuracy is NaN and so is the
    mean. *)
Theorem crossValidate_folds
    (sqrt : number -> number) (random : nat -> nat -> Qc)
    (XX : list (list number)) (y : list number) (folds : nat)
    (options : trainOptions) :
  let foldSize := (length XX / folds)%nat in
  (forall i, (i < folds)%nat ->
     foldTrain XX foldSize i = take (i * foldSize) XX ++ drop ((i + 1) * foldSize) XX
     /\ foldTest XX foldSize i = take foldSize (drop (i * foldSize) XX)
     /\ take (i * foldSize) XX ++ foldTest XX foldSize i ++ drop ((i + 1) * foldSize) XX
        = XX
     /\ length (foldTest XX foldSize i) = foldSize
     /\ (length (foldTrain XX foldSize i) + foldSize = length XX)%nat)
  /\ (folds = 1%nat -> crossValidate sqrt random XX y folds options = None)
  /\ (XX = [] -> (1 <= folds)%nat ->
        crossValidate sqrt random XX y folds options = None)
  /\ (XX ≠ [] -> folds ≠ 1%nat ->
        exists r, crossValidate sqrt random XX y folds options = Some r
                  /\ length (foldAccuracies r) = folds)
  /\ (XX ≠ [] -> (length XX < folds)%nat ->
        exists r, crossValidate sqrt random XX y folds options = Some r
                  /\ foldAccuracies r = replicate folds NaN
                  /\ meanAccuracy r = NaN).
Proof.
  intros foldSize.
  assert (Hdiv : (folds ≠ 0 -> folds * foldSize <= length XX)%nat).
  { intros Hf. subst foldSize. by apply Nat.Div0.mul_div_le. }
  assert (Hblock : forall i, (i < folds)%nat -> ((i + 1) * foldSize <= length XX)%nat).
  { intros i Hi. etrans; [|apply Hdiv; lia]. apply Nat.mul_le_mono_r. lia. }
  assert (Hsplit : forall i, (i < folds)%nat ->
            foldTrain XX foldSize i = take (i * foldSize) XX ++ drop ((i + 1) * foldSize) XX
            /\ foldTest XX foldSize i = take foldSize (drop (i * foldSize) XX)
            /\ take (i * foldSize) XX ++ foldTest XX foldSize i
                 ++ drop ((i + 1) * foldSize) XX = XX
            /\ length (foldTest XX foldSize i) = foldSize
            /\ (length (foldTrain XX foldSize i) + foldSize = length XX)%nat).
  { intros i Hi. specialize (Hblock i Hi).
    rewrite foldTrain_take_drop, foldTest_take_drop.
    split; [done|]. split; [done|]. split.
    { rewrite <- (take_drop (i * foldSize) XX) at 4. f_equal.
      rewrite <- (take_drop foldSize (drop (i * foldSize) XX)) at 2. f_equal.
      rewrite drop_drop. f_equal. lia. }
    split.
    { rewrite length_take, length_drop. lia. }
    rewrite length_app, length_take, length_drop. lia. }
  split; [exact Hsplit|].
  assert (Hone : foldTrain XX (length XX) 0 = []).
  { rewrite foldTrain_take_drop. simpl. rewrite Nat.add_0_r.
    by rewrite drop_all. }
  split.
  { intros ->. unfold crossValidate. cbv zeta. rewrite Nat.div_1_r. simpl.
    by rewrite Hone. }
  split.
  { intros -> Hf. unfold crossValidate. cbv zeta.
    destruct folds as [|k]; [lia|]. cbn [seq fold_left]. unfold foldStep at 2.
    by rewrite foldStep_None. }
  assert (Hloop : XX ≠ [] -> folds ≠ 1%nat ->
            exists r,
              fold_left (foldStep random XX y foldSize options) (seq 0 folds) (Some [])
              = Some r
              /\ length r = folds
              /\ (forall k a, r !! k = Some a ->
                    exists model,
                      a = calculateAccuracy (foldTest XX foldSize k)
                            (foldTest y foldSize k) (ModelTrainer.weights model))).
  { intros Hne Hf.
    destruct (foldLoop_Some random XX y foldSize options (seq 0 folds)) with (acc := @nil number)
      as (r & Hr & Hlen & Hall).
    { intros i Hi%elem_of_seq Hnil.
      destruct (Hsplit i) as (_ & _ & _ & _ & Hsum); [lia|].
      rewrite Hnil in Hsum. simpl in Hsum.
      assert (length XX ≠ 0%nat) by by destruct XX.
      assert (folds * foldSize <= length XX)%nat by (apply Hdiv; lia).
      nia. }
    exists r. split; [done|]. split; [by rewrite Hlen, length_seq|].
    intros k a Hk. destruct (Hall k a Hk) as (i & model & Hi & _ & ->).
    apply lookup_seq in Hi as [-> _]. by exists model. }
  split.
  { intros Hne Hf. destruct (Hloop Hne Hf) as (r & Hr & Hlen & _).
    unfold crossValidate. cbv zeta. fold foldSize. rewrite Hr.
    eexists. split; [reflexivity|]. done. }
  intros Hne Hlt.
  assert (Hf : folds ≠ 1%nat).
  { assert (length XX ≠ 0%nat) by by destruct XX. lia. }
  destruct (Hloop Hne Hf) as (r & Hr & Hlen & Hall).
  assert (Hzero : foldSize = 0%nat) by (subst foldSize; by apply Nat.div_small).
  assert (HNaN : r = replicate folds NaN).
  { apply list_eq. intros k. destruct (r !! k) as [a|] eqn:Ek.
    - destruct (Hall k a Ek) as (model & ->).
      apply lookup_lt_Some in Ek as Hk.
      rewrite lookup_replicate_2 by lia. f_equal.
      rewrite Hzero, !foldTest_take_drop. simpl. apply calculateAccuracy_nil.
    - apply lookup_ge_None in Ek. symmetry. apply lookup_ge_None.
      rewrite length_replicate. lia. }
  unfold crossValidate. cbv zeta. fold foldSize. rewrite Hr.
  eexists. split; [reflexivity|]. split; [done|]. simpl.
  rewrite HNaN, fold_add_NaN; [done| |].
  - assert (length XX ≠ 0%nat) by by destruct XX.
    destruct folds; [lia|done].
  - apply Forall_forall. by intros x [-> _]%elem_of_replicate.
Qed.

Lemma crossValidate_folds_witness :
  let XX := [[ofQc 1%Qc]; [ofQc 2%Qc]] in
  let y := [ofQc 1%Qc; ofQc (-1)%Qc] in
  XX ≠ []
  /\ (length XX < 3)%nat
  /\ exists r,
       crossValidate (fun x => x) (fun _ _ => 0%Qc) XX y 3
         (mkTrainOptions None (Some 1%nat) None) = Some r
       /\ foldAccuracies r = replicate 3 NaN.
Proof.
  intros XX y.
  assert (H1 : XX ≠ []) by discriminate.
  assert (H2 : (length XX < 3)%nat) by (simpl; lia).
  split; [exact H1|]. split; [exact H2|].
  destruct (crossValidate_folds (fun x => x) (fun _ _ => 0%Qc) XX y 3
              (mkTrainOptions None (Some 1%nat) None)) as (_ & _ & _ & _ & H).
  destruct (H H1 H2) as (r & Hr & Hacc & _).
  exists r. by split.
Defined.

(** ** The ranking of the feature weights *)

Lemma StronglySorted_True {A} (l : list A) : StronglySorted (fun _ _ => True) l.
Proof.
  induction l as [|x l IH]; constructor; [done|]. by apply Forall_forall.
Qed.

Lemma nameOfFeature_not_empty featureNames i : nameOfFeature featureNames i ≠ "".
Proof.
  unfold nameOfFeature. destruct (featureNames !! i) as [name|]; [|done].
  by case_decide.
Qed.

Lemma js_abs_defined (x : number) : x ≠ NaN -> exists k, js_abs x = Some k.
Proof. destruct x as [[|q|]|]; intros H; try done; by eexists. Qed.

(** X20.  [analyzeFeatureImportance] leaves the bias out and returns one entry
    for each other weight, with the absolute value of the weight and its sign
    class, where the weight 0 (and a NaN) is classed as negative; an entry takes
    the name given for its position, or ["Feature k"] with the position counted
    from 1 when there is no name or the name is empty.  When no weight is NaN
    the entries are ranked by absolute weight, the largest first. *)
Theorem analyzeFeatureImportance_ranked (ws : list number) (featureNames : list string) :
  let r := analyzeFeatureImportance ws featureNames in
  map featureWeight r ≡ₚ drop 1 ws
  /\ length r = (length ws - 1)%nat
  /\ Forall (fun e =>
               absWeight e = js_abs (featureWeight e)
               /\ (impact e = positive <-> js_gtb (featureWeight e) (ofQc 0%Qc) = true)
               /\ featureName e ≠ "") r
  /\ (forall i w, drop 1 ws !! i = Some w ->
        exists e, e ∈ r /\ featureWeight e = w
                  /\ featureName e = nameOfFeature featureNames i)
  /\ (Forall (fun x => x ≠ NaN) (drop 1 ws) ->
        StronglySorted (fun a c => js_geb (absWeight a) (absWeight c) = true) r).
Proof.
  intros r. subst r. unfold analyzeFeatureImportance. cbv zeta.
  change 1 with (Z.of_nat 1). rewrite sliceFrom_drop.
  set (entry := fun (i : nat) (weight : number) =>
         {| featureName := nameOfFeature featureNames i;
            featureWeight := weight;
            absWeight := js_abs weight;
            impact := if js_gtb weight (ofQc 0%Qc) then positive else negative |}).
  set (L := imap entry (drop 1 ws)).
  set (cmp := fun a b : importance => js_sub (absWeight b) (absWeight a)).
  assert (Hperm : arraySort cmp L ≡ₚ L) by apply arraySort_perm.
  assert (HL : map featureWeight L = drop 1 ws).
  { subst L. apply list_eq. intros i.
    rewrite list_lookup_fmap, list_lookup_imap. by destruct (drop 1 ws !! i). }
  split; [by rewrite Hperm, HL|]. split.
  { rewrite Hperm. subst L. by rewrite length_imap, length_drop. }
  split.
  { rewrite Hperm. apply Forall_forall. intros e He.
    subst L. apply elem_of_lookup_imap in He as (i & w & -> & _). simpl.
    split; [done|]. split; [by destruct (js_gtb w _)|apply nameOfFeature_not_empty]. }
  split.
  { intros i w Hi. exists (entry i w). split; [|done].
    rewrite Hperm. subst L. apply elem_of_lookup_imap. by exists i, w. }
  intros Hnan.
  assert (Hkey : forall e, e ∈ L -> exists k, absWeight e = Some k).
  { intros e He. subst L. apply elem_of_lookup_imap in He as (i & w & -> & Hw). simpl.
    apply js_abs_defined. rewrite Forall_forall in Hnan. apply Hnan.
    by eapply list_elem_of_lookup_2. }
  pose proof (arraySort_sorted cmp (fun e => default (Num 0%Qc) (absWeight e))
                (fun _ _ => True) L) as Hs.
  assert (Hdef : Forall (fun e => exists k, absWeight e = Some k) (arraySort cmp L)).
  { rewrite Hperm. by apply Forall_forall. }
  eapply StronglySorted_weaken;
    [|apply StronglySorted_and_Forall; [apply Hs|exact Hdef]].
  - intros a c (Hr & [ka Ea] & [kc Ec]). unfold keyRanked in Hr.
    rewrite Ea, Ec in *. simpl in Hr. unfold js_geb.
    destruct Hr as [Hlt|[Heq _]]; [|subst; apply num_leb_refl].
    unfold num_lt in Hlt. destruct (num_leb_total kc ka); [done|congruence].
  - intros x y Hx Hy. destruct (Hkey x Hx) as [kx Ex], (Hkey y Hy) as [ky Ey].
    subst cmp. cbv beta. rewrite Ex, Ey. apply js_sub_positive.
  - apply StronglySorted_True.
Qed.

Lemma analyzeFeatureImportance_ranked_witness :
  let ws := [ofQc 1%Qc; ofQc 1%Qc; ofQc (-2)%Qc; ofQc 0%Qc] in
  Forall (fun x => x ≠ NaN) (drop 1 ws)
  /\ StronglySorted (fun a c => js_geb (absWeight a) (absWeight c) = true)
       (analyzeFeatureImportance ws ["x_count"; ""])
  /\ map featureName (analyzeFeatureImportance ws ["x_count"; ""])
     = ["Feature 2"; "x_count"; "Feature 3"]
  /\ map impact (analyzeFeatureImportance ws ["x_count"; ""])
     = [negative; positive; negative].
Proof.
  intros ws.
  assert (H : Forall (fun x => x ≠ NaN) (drop 1 ws)) by (repeat constructor; discriminate).
  split; [exact H|].
  destruct (analyzeFeatureImportance_ranked ws ["x_count"; ""]) as (_ & _ & _ & _ & Hs).
  split; [exact (Hs H)|]. split; vm_compute; reflexivity.
Defined.
(** ** The split of a dataset *)

Lemma insert_Permutation {A} (l : list A) i (x y : A) :
  l !! i = Some y -> <[i := x]> l ≡ₚ x :: delete i l.
Proof.
  revert i. induction l as [|z l IH]; intros i Hi; [done|].
  destruct i as [|i]; simpl in *; [done|].
  rewrite (IH i Hi). apply Permutation_swap.
Qed.

Lemma swapAt_perm {A} (l : list A) i j : swapAt l i j ≡ₚ l.
Proof.
  unfold swapAt. destruct (l !! i) as [a|] eqn:Ei; [|done].
  destruct (l !! j) as [b|] eqn:Ej; [|done].
  destruct (decide (i = j)) as [->|Hne].
  - rewrite Ei in Ej. injection Ej as ->.
    rewrite list_insert_insert_eq. by rewrite list_insert_id.
  - assert (E1 : <[i:=b]> l !! j = Some b) by by rewrite list_lookup_insert_ne.
    etrans; [apply (insert_Permutation _ j a b E1)|].
    etrans; [|symmetry; apply (delete_Permutation l i a Ei)].
    apply Permutation_skip.
    apply (Permutation_cons_inv (a := b)).
    etrans; [symmetry; apply (delete_Permutation _ j b E1)|].
    by apply insert_Permutation with a.
Qed.

Lemma swap_loop_perm {A} (g : nat -> nat) (steps : list nat) (l : list A) :
  fold_left (fun indices i => swapAt indices i (g i)) steps l ≡ₚ l.
Proof.
  revert l. induction steps as [|i steps IH]; intros l; [done|].
  cbn [fold_left]. etrans; [apply IH|apply swapAt_perm].
Qed.

Lemma shuffleIndices_perm times random n : shuffleIndices times random n ≡ₚ seq 0 n.
Proof.
  unfold shuffleIndices.
  apply (swap_loop_perm
           (fun i => Z.to_nat (Qfloor (times (random (n - 1 - i)%nat)
                                         (Qc_of_Z (Z.of_nat i + 1)))))).
Qed.

Lemma slice_split {A} (l : list A) (k : Z) : slice l 0 k ++ sliceFrom l k = l.
Proof.
  unfold slice, sliceFrom. cbv zeta.
  assert (H0 : sliceIndex (length l) 0 = 0%nat) by (unfold sliceIndex; case_decide; lia).
  rewrite H0, Nat.sub_0_r, drop_0. apply take_drop.
Qed.

Lemma length_slice_split {A} (l : list A) (k : Z) :
  length (slice l 0 k) = sliceIndex (length l) k
  /\ length (sliceFrom l k) = (length l - sliceIndex (length l) k)%nat.
Proof.
  unfold slice, sliceFrom. cbv zeta.
  assert (H0 : sliceIndex (length l) 0 = 0%nat) by (unfold sliceIndex; case_decide; lia).
  rewrite H0, Nat.sub_0_r, drop_0, length_take, length_drop.
  assert (sliceIndex (length l) k <= length l)%nat by (unfold sliceIndex; case_decide; lia).
  lia.
Qed.

Lemma rowAt_seq (fss : list (list number)) :
  map (fun i => rowAt fss i) (seq 0 (length fss)) = fss.
Proof.
  apply list_eq. intros i. rewrite list_lookup_fmap.
  destruct (decide (i < length fss)%nat) as [Hi|Hi].
  - rewrite lookup_seq_lt by done. simpl. unfold rowAt.
    destruct (lookup_lt_is_Some_2 fss i Hi) as [row ->]. done.
  - rewrite lookup_seq_ge by lia. by rewrite lookup_ge_None_2 by lia.
Qed.

Lemma numAt_seq (labels : list number) :
  map (fun i => numAt labels i) (seq 0 (length labels)) = labels.
Proof.
  apply list_eq. intros i. rewrite list_lookup_fmap.
  destruct (decide (i < length labels)%nat) as [Hi|Hi].
  - rewrite lookup_seq_lt by done. simpl. unfold numAt.
    destruct (lookup_lt_is_Some_2 labels i Hi) as [x ->]. done.
  - rewrite lookup_seq_ge by lia. by rewrite lookup_ge_None_2 by lia.
Qed.

Lemma Qfloor_within (x : Qc) (n : nat) :
  (0 ≤ x)%Qc -> (x ≤ Qc_of_Z (Z.of_nat n))%Qc -> 0 ≤ Qfloor x ≤ Z.of_nat n.
Proof.
  intros Hlo Hhi. split.
  - change 0 with (Qfloor 0). by apply Qfloor_resp_le.
  - apply Z.le_trans with (Qfloor (Qc_of_Z (Z.of_nat n))).
    + by apply Qfloor_resp_le.
    + apply Z.eq_le_incl.
      transitivity (Qfloor (inject_Z (Z.of_nat n))); [|apply Qfloor_Z].
      apply Qfloor_comp. simpl. reflexivity.
Qed.

Lemma Qfloor_below (x : Qc) (i : nat) :
  (x < Qc_of_Z (Z.of_nat i + 1))%Qc -> (Z.to_nat (Qfloor x) <= i)%nat.
Proof.
  intros Hlt.
  assert (Hf : Qfloor x < Z.of_nat i + 1).
  { rewrite Zlt_Qlt. eapply Qle_lt_trans; [apply Qfloor_le|].
    eapply Qlt_le_trans; [exact Hlt|]. simpl. apply Qle_refl. }
  lia.
Qed.

(** The exact products are in the ranges that the statement asks of the
    products of the code. *)
Lemma exact_size_product (n : nat) (r : Qc) :
  (0 ≤ r)%Qc -> (r ≤ 1)%Qc ->
  (0 ≤ Qc_of_Z (Z.of_nat n) * r)%Qc
  /\ (Qc_of_Z (Z.of_nat n) * r ≤ Qc_of_Z (Z.of_nat n))%Qc.
Proof.
  intros H0 H1.
  assert (Hn : (0 ≤ Qc_of_Z (Z.of_nat n))%Qc) by (apply (proj1 (Z2Qc_inj_le 0 _)); lia).
  split.
  - replace 0%Qc with (0 * r)%Qc by ring. by apply Qcmult_le_compat_r.
  - replace (Qc_of_Z (Z.of_nat n)) with (Qc_of_Z (Z.of_nat n) * 1)%Qc at 2 by ring.
    rewrite !(Qcmult_comm (Qc_of_Z (Z.of_nat n))). by apply Qcmult_le_compat_r.
Qed.

Lemma exact_shuffle_product (r : Qc) (i : nat) :
  (0 ≤ r)%Qc -> (r < 1)%Qc ->
  (r * Qc_of_Z (Z.of_nat i + 1) < Qc_of_Z (Z.of_nat i + 1))%Qc.
Proof.
  intros H0 H1.
  assert (Hi : (0 < Qc_of_Z (Z.of_nat i + 1))%Qc) by (apply (proj1 (Z2Qc_inj_lt 0 _)); lia).
  replace (Qc_of_Z (Z.of_nat i + 1)) with (1 * Qc_of_Z (Z.of_nat i + 1))%Qc at 2 by ring.
  by apply Qcmult_lt_compat_r.
Qed.

(** X21.  [splitDataset] deals the samples out.  The two products of which
    it takes the integer part are taken as the code computes them, [times]:
    the product of a random number of [0, 1) and [i + 1] is below [i + 1],
    and the product of the number of samples and a test ratio of [0, 1] is
    between 0 and the number of samples (so it is for the exact product).
    Then every swap of the shuffle stays inside the array, and the train and
    the test part together hold every sample exactly once, each with its own
    label (features and labels are taken through the same shuffled indices);
    the test part has [floor(times total testRatio)] samples and the train
    part has the others. *)
Theorem splitDataset_partition
    (times : Qc -> Qc -> Qc) (random : nat -> Qc)
    (fss : list (list number)) (labels : list number) (testRatio : Qc)
    (Hshuffle : forall k i,
        (times (random k) (Qc_of_Z (Z.of_nat i + 1)) < Qc_of_Z (Z.of_nat i + 1))%Qc)
    (Hsize : (0 ≤ times (Qc_of_Z (Z.of_nat (length fss))) testRatio)%Qc
             /\ (times (Qc_of_Z (Z.of_nat (length fss))) testRatio
                 ≤ Qc_of_Z (Z.of_nat (length fss)))%Qc) :
  let total := length fss in
  let testSize := Z.to_nat (Qfloor (times (Qc_of_Z (Z.of_nat total)) testRatio)) in
  let train := (splitDataset times random fss labels testRatio).1 in
  let test := (splitDataset times random fss labels testRatio).2 in
  (forall i,
     (Z.to_nat (Qfloor (times (random (total - 1 - i)%nat) (Qc_of_Z (Z.of_nat i + 1))))
      <= i)%nat)
  /\ sampleFeatures train ++ sampleFeatures test ≡ₚ fss
  /\ (length labels = total -> sampleLabels train ++ sampleLabels test ≡ₚ labels)
  /\ (exists indices,
        indices ≡ₚ seq 0 total
        /\ sampleFeatures train ++ sampleFeatures test
           = map (fun i => rowAt fss i) indices
        /\ sampleLabels train ++ sampleLabels test
           = map (fun i => numAt labels i) indices)
  /\ (testSize <= total)%nat
  /\ length (sampleFeatures test) = testSize
  /\ length (sampleFeatures train) = (total - testSize)%nat
  /\ length (sampleLabels train) = length (sampleFeatures train)
  /\ length (sampleLabels test) = length (sampleFeatures test)
  /\ (forall r i, (0 ≤ r)%Qc -> (r < 1)%Qc ->
        (r * Qc_of_Z (Z.of_nat i + 1) < Qc_of_Z (Z.of_nat i + 1))%Qc)
  /\ (forall r, (0 ≤ r)%Qc -> (r ≤ 1)%Qc ->
        (0 ≤ Qc_of_Z (Z.of_nat total) * r)%Qc
        /\ (Qc_of_Z (Z.of_nat total) * r ≤ Qc_of_Z (Z.of_nat total))%Qc).
Proof.
  intros total testSize train test. subst train test.
  unfold splitDataset. cbv zeta. fold total.
  cbn [fst snd sampleFeatures sampleLabels].
  set (t := Qfloor (times (Qc_of_Z (Z.of_nat total)) testRatio)).
  set (indices := shuffleIndices times random total).
  destruct Hsize as [Hs0 Hs1].
  pose proof (Qfloor_within _ total Hs0 Hs1) as Ht.
  change (0 ≤ t ≤ Z.of_nat total) in Ht.
  assert (Hperm : indices ≡ₚ seq 0 total) by apply shuffleIndices_perm.
  assert (Hlen : length indices = total).
  { by rewrite Hperm, length_seq. }
  assert (Hk : sliceIndex (length indices) (Z.of_nat total - t)
               = (total - Z.to_nat t)%nat).
  { rewrite Hlen. unfold sliceIndex. case_decide; lia. }
  destruct (length_slice_split indices (Z.of_nat total - t)) as [Hl1 Hl2].
  rewrite Hk in Hl1, Hl2. rewrite Hlen in Hl2.
  split.
  { intros i. apply Qfloor_below, Hshuffle. }
  split.
  { rewrite <- map_app, slice_split, Hperm. subst total. by rewrite rowAt_seq. }
  split.
  { intros Hlab. rewrite <- map_app, slice_split, Hperm, <- Hlab. by rewrite numAt_seq. }
  split.
  { exists indices. split; [done|]. by rewrite <- !map_app, slice_split. }
  subst testSize. fold t.
  split; [lia|]. rewrite !length_map, Hl1, Hl2.
  split; [lia|]. split; [lia|]. split; [done|]. split; [done|].
  split; [intros r i; apply exact_shuffle_product|intros r; apply exact_size_product].
Qed.

Lemma splitDataset_partition_witness :
  let fss := [[ofQc 1%Qc]; [ofQc 2%Qc]; [ofQc 0%Qc]] in
  let labels := [ofQc 1%Qc; ofQc (-1)%Qc; ofQc 1%Qc] in
  let random := fun _ : nat => Q2Qc (1 # 2) in
  (forall k i,
     (Qcmult (random k) (Qc_of_Z (Z.of_nat i + 1)) < Qc_of_Z (Z.of_nat i + 1))%Qc)
  /\ ((0 ≤ Qcmult (Qc_of_Z 3) (Q2Qc (1 # 2)))%Qc
      /\ (Qcmult (Qc_of_Z 3) (Q2Qc (1 # 2)) ≤ Qc_of_Z 3)%Qc)
  /\ sampleFeatures (splitDataset Qcmult random fss labels (Q2Qc (1 # 2))).1
       ++ sampleFeatures (splitDataset Qcmult random fss labels (Q2Qc (1 # 2))).2 ≡ₚ fss
  /\ length (sampleFeatures (splitDataset Qcmult random fss labels (Q2Qc (1 # 2))).2)
     = 1%nat.
Proof.
  intros fss labels random.
  assert (H1 : forall k i,
            (Qcmult (random k) (Qc_of_Z (Z.of_nat i + 1)) < Qc_of_Z (Z.of_nat i + 1))%Qc).
  { intros k i. by apply exact_shuffle_product. }
  assert (H2 : (0 ≤ Qcmult (Qc_of_Z 3) (Q2Qc (1 # 2)))%Qc
               /\ (Qcmult (Qc_of_Z 3) (Q2Qc (1 # 2)) ≤ Qc_of_Z 3)%Qc) by by split.
  split; [exact H1|]. split; [exact H2|].
  destruct (splitDataset_partition Qcmult random fss labels (Q2Qc (1 # 2)) H1 H2)
    as (_ & Hp & _ & _ & _ & Hl & _).
  split; [exact Hp|exact Hl].
Defined.

(** ** The range of the normalised values *)

Lemma normalizeValue_unit mins maxs j (lo hi v : Qc) :
  mins !! j = Some (ofQc lo) -> maxs !! j = Some (ofQc hi) ->
  (lo ≤ v)%Qc -> (v ≤ hi)%Qc ->
  exists nv,
    normalizeValue mins maxs j (ofQc v) = ofQc nv /\ (0 ≤ nv)%Qc /\ (nv ≤ 1)%Qc.
Proof.
  intros Hmin Hmax Hlo Hhi.
  unfold normalizeValue, numAt. rewrite Hmin, Hmax. simpl.
  case_bool_decide as Hrange.
  - exists 0%Qc. split; [done|]. by split.
  - assert (Hne : (hi + - lo)%Qc ≠ 0%Qc) by (intros E; apply Hrange; by rewrite E).
    rewrite decide_False by done.
    assert (Hd : (0 < hi + - lo)%Qc).
    { assert (Hle : (0 ≤ hi + - lo)%Qc).
      { apply (proj1 (Qcle_minus_iff lo hi)).
        eapply Qcle_trans; [exact Hlo|exact Hhi]. }
      apply Qcle_lt_or_eq in Hle as [?|E]; [done|]. by destruct Hne. }
    exists ((v + - lo) / (hi + - lo))%Qc. split; [done|].
    assert (Hmul : ((v + - lo) / (hi + - lo) * (hi + - lo) = v + - lo)%Qc) by by field.
    split.
    + apply (Qcmult_lt_0_le_reg_r _ _ (hi + - lo)%Qc); [done|].
      rewrite Hmul. replace (0 * (hi + - lo))%Qc with 0%Qc by ring.
      by apply (proj1 (Qcle_minus_iff lo v)).
    + apply (Qcmult_lt_0_le_reg_r _ _ (hi + - lo)%Qc); [done|].
      rewrite Hmul. replace (1 * (hi + - lo))%Qc with (hi + - lo)%Qc by ring.
      apply Qcplus_le_compat; [done|reflexivity].
Qed.

(** X22.  On a non-empty matrix of finite numbers whose rows are not longer
    than its first row, and whose values are of magnitude at most [bound]
    with twice [bound] not above the largest number, [normalizeFeatures]
    keeps the shape of the matrix, returns one minimum and one maximum for
    each column of the first row, each value lies between the minimum and the
    maximum of its column, the differences that are computed do not exceed
    the largest number, and each normalised value is a number of the interval
    [0, 1]. *)
Theorem normalizeFeatures_unit_interval
    (bound : Qc) (fss : list (list number)) (first : list number)
    (rest : list (list number))
    (Hnonempty : fss = first :: rest)
    (Hbound : (bound + bound ≤ MAX_VALUE)%Qc)
    (Hfinite : forall row x, row ∈ fss -> x ∈ row -> magnitudeAtMost bound x)
    (Hrows : forall row, row ∈ fss -> (length row <= length first)%nat) :
  exists normalized mins maxs,
    normalizeFeatures fss = Some (normalized, mins, maxs)
    /\ length mins = length first /\ length maxs = length first
    /\ map length normalized = map length fss
    /\ forall i j row v,
         fss !! i = Some row -> row !! j = Some (ofQc v) ->
         exists nrow nv lo hi,
           normalized !! i = Some nrow
           /\ nrow !! j = Some (ofQc nv)
           /\ (0 ≤ nv)%Qc /\ (nv ≤ 1)%Qc
           /\ mins !! j = Some (ofQc lo) /\ maxs !! j = Some (ofQc hi)
           /\ (lo ≤ v)%Qc /\ (v ≤ hi)%Qc
           /\ (v - lo ≤ MAX_VALUE)%Qc /\ (hi - lo ≤ MAX_VALUE)%Qc.
Proof.
  subst fss.
  assert (Hfin : forall row, row ∈ first :: rest ->
            (length row <= length first)%nat /\ forall x, x ∈ row -> finiteNumber x).
  { intros row Hin. split; [by apply Hrows|].
    intros x Hx. destruct (Hfinite row x Hin Hx) as (q & -> & _). by exists q. }
  assert (Hmag : forall row j q, row ∈ first :: rest -> row !! j = Some (ofQc q) ->
            (- bound ≤ q)%Qc /\ (q ≤ bound)%Qc).
  { intros row j q Hrow Hq.
    destruct (Hfinite row (ofQc q) Hrow) as (q' & E & H1 & H2);
      [by eapply list_elem_of_lookup_2|].
    apply ofQc_inj in E. by subst q'. }
  destruct (normalizeFeatures_bounds first rest Hfin)
    as (mins & maxs & Hrun & Hl1 & Hl2 & Hcols).
  eexists _, mins, maxs. split; [exact Hrun|]. split; [done|]. split; [done|]. split.
  { rewrite map_map. apply map_ext. intros row. by rewrite length_imap. }
  intros i j row v Hi Hj.
  assert (Hrow : row ∈ first :: rest) by by eapply list_elem_of_lookup_2.
  assert (Hjlt : (j < length first)%nat).
  { apply lookup_lt_Some in Hj. specialize (Hrows row Hrow). lia. }
  destruct (Hcols j Hjlt) as (lo & hi & Hmin & Hmax & Hlo & Hhi & Hb).
  destruct (Hb row v Hrow Hj) as [Hlov Hvhi].
  destruct (normalizeValue_unit mins maxs j lo hi v Hmin Hmax Hlov Hvhi)
    as (nv & Hnv & H0 & H1).
  destruct Hlo as (r1 & Hr1 & Hx1). destruct Hhi as (r2 & Hr2 & Hx2).
  destruct (Hmag r1 j lo Hr1 Hx1) as [Hlo1 _].
  destruct (Hmag r2 j hi Hr2 Hx2) as [_ Hhi2].
  destruct (Hmag row j v Hrow Hj) as [_ Hv2].
  exists (imap (normalizeValue mins maxs) row), nv, lo, hi.
  split; [by rewrite list_lookup_fmap, Hi|].
  split; [by rewrite list_lookup_imap, Hj; simpl; rewrite Hnv|].
  do 6 (split; [done|]).
  split; (eapply Qcle_trans; [|exact Hbound]); by apply magnitude_range.
Qed.

Lemma normalizeFeatures_unit_interval_witness :
  let fss := [[ofQc 1%Qc; ofQc (Qc_of_Z 5)]; [ofQc (Qc_of_Z 3); ofQc (Qc_of_Z 5)]] in
  (Qc_of_Z 5 + Qc_of_Z 5 ≤ MAX_VALUE)%Qc
  /\ (forall row x, row ∈ fss -> x ∈ row -> magnitudeAtMost (Qc_of_Z 5) x)
  /\ (forall row, row ∈ fss -> (length row <= 2)%nat)
  /\ exists normalized mins maxs,
       normalizeFeatures fss = Some (normalized, mins, maxs)
       /\ length mins = 2%nat.
Proof.
  intros fss.
  assert (Hbound : (Qc_of_Z 5 + Qc_of_Z 5 ≤ MAX_VALUE)%Qc) by by vm_compute.
  assert (Hrows : forall row, row ∈ fss -> (length row <= 2)%nat).
  { intros row Hin. repeat (apply elem_of_cons in Hin as [->|Hin]; [simpl; lia|]).
    by apply elem_of_nil in Hin. }
  assert (Hfinite : forall row x, row ∈ fss -> x ∈ row -> magnitudeAtMost (Qc_of_Z 5) x).
  { intros row x Hrow Hx.
    repeat (apply elem_of_cons in Hrow as [->|Hrow];
            [repeat (apply elem_of_cons in Hx as [->|Hx];
                     [eexists; split; [reflexivity|]; split; by vm_compute|]);
             by apply elem_of_nil in Hx|]).
    by apply elem_of_nil in Hrow. }
  split; [exact Hbound|]. split; [exact Hfinite|]. split; [exact Hrows|].
  destruct (normalizeFeatures_unit_interval (Qc_of_Z 5) fss
              [ofQc 1%Qc; ofQc (Qc_of_Z 5)]
              [[ofQc (Qc_of_Z 3); ofQc (Qc_of_Z 5)]] eq_refl Hbound Hfinite Hrows)
    as (normalized & mins & maxs & H1 & H2 & _).
  by exists normalized, mins, maxs.
Defined.

(** ** Columns beyond the first row *)

(** The slots of the running minima and maxima beyond the columns of the
    first row read as NaN. *)
Lemma arraySet_beyond (fc : nat) (l : list number) i v :
  (fc <= length l)%nat ->
  (forall j, (fc <= j)%nat -> numAt l j = NaN) ->
  ((fc <= i)%nat -> v = NaN) ->
  (fc <= length (arraySet l i v))%nat
  /\ (forall j, (fc <= j)%nat -> numAt (arraySet l i v) j = NaN).
Proof.
  intros Hlen Hnan Hv. unfold arraySet. case_decide as Hi.
  - split; [by rewrite length_insert|].
    intros j Hj. unfold numAt. destruct (decide (i = j)) as [->|Hne].
    + rewrite list_lookup_insert_eq by done. simpl. by apply Hv.
    + rewrite list_lookup_insert_ne by done. by apply Hnan.
  - split; [rewrite length_app; lia|].
    assert (Hvn : v = NaN) by (apply Hv; lia).
    intros j Hj. unfold numAt.
    destruct (decide (j < length l)%nat) as [Hjl|Hjl].
    + rewrite lookup_app_l by done. by apply Hnan.
    + rewrite lookup_app_r by lia.
      destruct (decide (j - length l < i - length l)%nat).
      * rewrite lookup_app_l by (rewrite length_replicate; lia).
        by rewrite lookup_replicate_2.
      * rewrite lookup_app_r by (rewrite length_replicate; lia).
        rewrite length_replicate.
        destruct (j - length l - (i - length l))%nat as [|k]; simpl; [by rewrite Hvn|done].
Qed.

Lemma trackMinMax_beyond fc st iv : beyondNaN fc st -> beyondNaN fc (trackMinMax st iv).
Proof.
  destruct st as [mins maxs], iv as [i v]. intros (H1 & H2 & Hn). simpl in *.
  destruct (arraySet_beyond fc mins i (js_min (numAt mins i) v)) as [Ha Hb];
    [done|intros j Hj; by apply Hn| |].
  { intros Hi. destruct (Hn i Hi) as [-> _]. done. }
  destruct (arraySet_beyond fc maxs i (js_max (numAt maxs i) v)) as [Hc Hd];
    [done|intros j Hj; by apply Hn| |].
  { intros Hi. destruct (Hn i Hi) as [_ ->]. done. }
  split; [done|]. split; [done|]. intros j Hj. split; [by apply Hb|by apply Hd].
Qed.

Lemma trackMinMax_beyond_fold fc items st :
  beyondNaN fc st -> beyondNaN fc (fold_left trackMinMax items st).
Proof.
  revert st. induction items as [|iv items IH]; intros st H; [done|].
  simpl. by apply IH, trackMinMax_beyond.
Qed.

Lemma trackMinMax_beyond_samples fc (rows : list (list number)) st :
  beyondNaN fc st ->
  beyondNaN fc
    (fold_left (fun st sample => fold_left trackMinMax (imap pair sample) st) rows st).
Proof.
  revert st. induction rows as [|row rows IH]; intros st H; [done|].
  simpl. by apply IH, trackMinMax_beyond_fold.
Qed.

(** X23.  [normalizeFeatures] sizes its minima and maxima by the first row.  An
    entry of a longer row in a column beyond the first row meets a slot that was
    never initialised: its minimum and maximum become NaN, and the entry is
    normalised to NaN, whatever its value. *)
Theorem normalizeFeatures_beyond_first_row
    (first : list number) (rest : list (list number)) :
  exists normalized mins maxs,
    normalizeFeatures (first :: rest) = Some (normalized, mins, maxs)
    /\ (forall j, (length first <= j)%nat -> numAt mins j = NaN /\ numAt maxs j = NaN)
    /\ (forall i j row v,
          (first :: rest) !! i = Some row -> row !! j = Some v ->
          (length first <= j)%nat ->
          exists nrow, normalized !! i = Some nrow /\ nrow !! j = Some NaN).
Proof.
  unfold normalizeFeatures.
  pose proof (trackMinMax_beyond_samples (length first) (first :: rest)
                (replicate (length first) (Some Infinity),
                 replicate (length first) (Some NegInfinity))) as H.
  destruct (fold_left _ (first :: rest) _) as [mins maxs].
  destruct H as (_ & _ & Hn).
  { unfold beyondNaN. simpl. rewrite !length_replicate.
    split; [done|]. split; [done|]. intros j Hj. unfold numAt.
    by rewrite !lookup_ge_None_2 by (rewrite length_replicate; lia). }
  simpl in Hn.
  eexists _, mins, maxs. split; [done|]. split; [done|].
  intros i j row v Hi Hj Hlen.
  exists (imap (normalizeValue mins maxs) row).
  split; [by rewrite list_lookup_fmap, Hi|].
  rewrite list_lookup_imap, Hj. simpl. f_equal.
  unfold normalizeValue. destruct (Hn j Hlen) as [-> ->]. simpl.
  by destruct v as [[| |]|].
Qed.

Lemma normalizeFeatures_beyond_first_row_witness :
  let fss := [[ofQc 1%Qc]; [ofQc 0%Qc; ofQc (Qc_of_Z 7)]] in
  exists normalized mins maxs,
    normalizeFeatures fss = Some (normalized, mins, maxs)
    /\ normalized = [[ofQc 1%Qc]; [ofQc 0%Qc; NaN]]
    /\ exists nrow, normalized !! 1%nat = Some nrow /\ nrow !! 1%nat = Some NaN.
Proof.
  intros fss.
  destruct (normalizeFeatures_beyond_first_row [ofQc 1%Qc] [[ofQc 0%Qc; ofQc (Qc_of_Z 7)]])
    as (normalized & mins & maxs & H1 & _ & H3).
  exists normalized, mins, maxs. split; [exact H1|]. split.
  - vm_compute in H1. injection H1 as Hn _ _. rewrite <- Hn. reflexivity.
  - apply (H3 1%nat 1%nat [ofQc 0%Qc; ofQc (Qc_of_Z 7)] (ofQc (Qc_of_Z 7)));
      [reflexivity|reflexivity|simpl; lia].
Defined.

(** ** The history of played games *)

Lemma saveGameToHistory_decisive stored now moveHistory w finalMove :
  last moveHistory = Some finalMove ->
  let sample :=
    {| GameHistory.features := extractDatasetFeatures (GameHistory.moveBoard finalMove) X;
       GameHistory.label := if decide (w = X) then 1 else -1;
       GameHistory.timestamp := now;
       GameHistory.moves := length moveHistory |} in
  let history := GameHistory.getGameHistory stored in
  GameHistory.saveGameToHistory stored now moveHistory (WinnerIs w)
  = Some (if bool_decide (500 <= length history)%nat
          then drop 1 history ++ [sample] else history ++ [sample]).
Proof.
  intros Hlast sample history. unfold GameHistory.saveGameToHistory.
  rewrite Hlast. cbv zeta. fold history. fold sample. f_equal.
  rewrite length_app. simpl.
  destruct (decide (500 <= length history)%nat) as [H|H].
  - rewrite bool_decide_eq_true_2 by lia. rewrite bool_decide_eq_true_2 by done.
    destruct history; [simpl in H; lia|done].
  - rewrite bool_decide_eq_false_2 by lia. by rewrite bool_decide_eq_false_2 by done.
Qed.

Lemma saveGameToHistory_invariant stored now moveHistory winner :
  (length (GameHistory.getGameHistory stored) <= 500)%nat ->
  Forall sampleOk (GameHistory.getGameHistory stored) ->
  (length (GameHistory.getGameHistory
             (GameHistory.saveGameToHistory stored now moveHistory winner)) <= 500)%nat
  /\ Forall sampleOk
       (GameHistory.getGameHistory
          (GameHistory.saveGameToHistory stored now moveHistory winner)).
Proof.
  intros Hlen Hok.
  destruct winner as [w|]; [|done].
  destruct (last moveHistory) as [finalMove|] eqn:Hlast.
  - rewrite (saveGameToHistory_decisive _ _ _ _ _ Hlast). cbv zeta.
    set (sample := GameHistory.mkGameSample _ _ _ _).
    assert (Hs : sampleOk sample).
    { split; [simpl; case_decide; auto|].
      subst sample. cbn [GameHistory.features]. apply extractDatasetFeatures_length. }
    simpl. case_bool_decide.
    + split.
      * rewrite length_app, length_drop. simpl. lia.
      * apply Forall_app. split; [by apply Forall_drop|by constructor].
    + split.
      * rewrite length_app. simpl. lia.
      * apply Forall_app. split; [done|by constructor].
  - unfold GameHistory.saveGameToHistory. by rewrite Hlast.
Qed.

(** X24.  [saveGameToHistory] stores nothing for a draw and for an empty move
    history.  For a game with a winner it appends one sample: the dataset-format
    features of the board of the last move, read for X, with the label 1 when X
    has won and -1 otherwise; the new sample is the last one of the history, and
    when the history already has 500 samples the oldest is dropped.  So over any
    sequence of saved games, starting with no history, the history never has
    more than 500 samples, and every sample has six features and the label 1 or
    -1. *)
Theorem saveGameToHistory_keeps_history_capped
    (stored : GameHistory.storage) (now : Z)
    (moveHistory : list GameHistory.moveRecord) (winner : winnerTag) :
  let history := GameHistory.getGameHistory stored in
  let stored' := GameHistory.saveGameToHistory stored now moveHistory winner in
  (winner = WinnerDraw \/ moveHistory = [] -> stored' = stored)
  /\ (forall w finalMove,
        winner = WinnerIs w -> last moveHistory = Some finalMove ->
        let sample :=
          {| GameHistory.features :=
               extractDatasetFeatures (GameHistory.moveBoard finalMove) X;
             GameHistory.label := if decide (w = X) then 1 else -1;
             GameHistory.timestamp := now;
             GameHistory.moves := length moveHistory |} in
        ((length history < 500)%nat -> stored' = Some (history ++ [sample]))
        /\ ((500 <= length history)%nat -> stored' = Some (drop 1 history ++ [sample]))
        /\ last (GameHistory.getGameHistory stored') = Some sample
        /\ ((length history <= 500)%nat ->
              (length (GameHistory.getGameHistory stored') <= 500)%nat))
  /\ (forall games,
        (length (GameHistory.getGameHistory (saveGames None games)) <= 500)%nat
        /\ Forall sampleOk (GameHistory.getGameHistory (saveGames None games))).
Proof.
  intros history stored'. subst stored' history. split; [|split].
  - intros [Hw|Hm]; subst; [done|]. by destruct winner.
  - intros w finalMove -> Hlast sample.
    rewrite (saveGameToHistory_decisive _ _ _ _ _ Hlast). cbv zeta. fold sample.
    split; [intros H; by rewrite bool_decide_eq_false_2 by lia|].
    split; [intros H; by rewrite bool_decide_eq_true_2 by lia|].
    split.
    + simpl. case_bool_decide; by rewrite last_snoc.
    + intros H. simpl. case_bool_decide.
      * rewrite length_app, length_drop. simpl. lia.
      * rewrite length_app. simpl. lia.
  - intros games. unfold saveGames.
    assert (Hgen : forall st,
              (length (GameHistory.getGameHistory st) <= 500)%nat ->
              Forall sampleOk (GameHistory.getGameHistory st) ->
              (length (GameHistory.getGameHistory
                         (fold_left
                            (fun st game =>
                               GameHistory.saveGameToHistory st game.1.1 game.1.2 game.2)
                            games st)) <= 500)%nat
              /\ Forall sampleOk
                   (GameHistory.getGameHistory
                      (fold_left
                         (fun st game =>
                            GameHistory.saveGameToHistory st game.1.1 game.1.2 game.2)
                         games st))).
    { induction games as [|g games IH]; intros st Hl Hf; [done|].
      cbn [fold_left].
      destruct (saveGameToHistory_invariant st g.1.1 g.1.2 g.2 Hl Hf) as [Hl' Hf'].
      by apply IH. }
    apply Hgen; simpl; [lia|constructor].
Qed.

Lemma saveGameToHistory_keeps_history_capped_witness :
  let moveHistory :=
    [ GameHistory.mkMoveRecord X 0
        [Mark X; Mark X; Mark X; Mark O; Mark O; Null; Null; Null; Null] ] in
  GameHistory.saveGameToHistory None 7 [] (WinnerIs X) = None
  /\ GameHistory.saveGameToHistory None 7 moveHistory (WinnerIs O)
     = Some [ GameHistory.mkGameSample [3; 2; 0; 1; 0; 2] (-1) 7 1 ].
Proof.
  intros moveHistory.
  destruct (saveGameToHistory_keeps_history_capped None 7 [] (WinnerIs X)) as (H1 & _).
  split; [apply H1; by right|].
  destruct (saveGameToHistory_keeps_history_capped None 7 moveHistory (WinnerIs O))
    as (_ & H2 & _).
  destruct (H2 O (GameHistory.mkMoveRecord X 0
                    [Mark X; Mark X; Mark X; Mark O; Mark O; Null; Null; Null; Null])
              eq_refl eq_refl) as (H3 & _).
  rewrite H3 by (simpl; lia). reflexivity.
Defined.

(** ** The active weights of the evaluator *)

Lemma trainLinearModel_featureWeights random XX y options model :
  trainLinearModel random XX y options = Some model ->
  length (featureWeights model) = length (rowAt XX 0)
  /\ ModelTrainer.bias model = numAt (ModelTrainer.weights model) 0
  /\ featureWeights model = drop 1 (ModelTrainer.weights model).
Proof.
  destruct XX as [|first rest]; [done|].
  unfold trainLinearModel. cbv zeta.
  pose proof (trainLoop_iterates (first :: rest) y
                (default (ofQc (Q2Qc (1 # 100))) (learningRate options))
                (default (ofQc (Q2Qc (1 # 1000))) (regularization options))
                (default 1000%nat (epochs options)) 0
                (initialWeights random (length first)) (mkTrainHistory [] [])
                (length_initialWeights random (length first))) as [H1 _].
  destruct (trainLoop _ _ _ _ _ _ _ _) as [ws h].
  intros [= <-]. cbn [featureWeights ModelTrainer.bias ModelTrainer.weights fst] in *.
  split; [|done].
  rewrite length_drop, H1, length_iter_gdEpoch, length_initialWeights.
  unfold rowAt. cbn [lookup list_lookup default from_option id]. lia.
Qed.

Lemma jsonNumber_finite (q : Qc) :
  MlEvalStore.jsonNumber (MlEvalStore.JNumber (ofQc q)) = MlEvalStore.JNumber (ofQc q).
Proof. reflexivity. Qed.

Lemma orZero_finite (x : number) :
  finiteNumber x -> finiteNumber (MlEvalStore.orZero x).
Proof.
  intros [q ->]. unfold MlEvalStore.orZero, ofQc. case_decide; by eexists.
Qed.

Lemma orZero_not_NaN (x : number) : MlEvalStore.orZero x ≠ NaN.
Proof.
  destruct x as [[|q|]|]; simpl; try done. by case_decide.
Qed.

Lemma map_jsonNumber_finite (ws : list number) :
  Forall finiteNumber ws ->
  map MlEvalStore.jsonNumber (map MlEvalStore.JNumber ws) = map MlEvalStore.JNumber ws.
Proof.
  induction 1 as [|x ws [q ->] _ IH]; [done|]. simpl. by rewrite IH.
Qed.

(** X25.  [updateMLWeights] ignores a missing model and a model with fewer than
    six feature weights: the active weights and the saved copy stay as they are.
    A model trained by [trainLinearModel] has one feature weight for each column
    of the first sample, so it is taken exactly when the data has six columns or
    more.  When a model is taken, its feature weights become the active weights
    and its bias the active bias, with 0 in place of a bias that is NaN or 0,
    and the copy that [JSON] keeps is saved.  If all its weights are finite,
    [loadSavedWeights] brings back exactly the active weights and they are
    finite weights for [mlEvaluate]; a weight that is NaN or infinite is kept
    as it is in the active weights and comes back from the saved copy as
    [null]. *)
Theorem updateMLWeights_guard
    (st : MlEvalStore.store) (model : option trainedModel) :
  (model = None -> MlEvalStore.updateMLWeights st model = st)
  /\ (forall m, model = Some m -> (length (featureWeights m) < 6)%nat ->
         MlEvalStore.updateMLWeights st model = st)
  /\ (forall random XX y options m,
         trainLinearModel random XX y options = Some m -> model = Some m ->
         ((length (rowAt XX 0) < 6)%nat -> MlEvalStore.updateMLWeights st model = st)
         /\ ((6 <= length (rowAt XX 0))%nat ->
               MlEvalStore.weights
                 (MlEvalStore.getCurrentWeights (MlEvalStore.updateMLWeights st model))
               = map MlEvalStore.JNumber (drop 1 (ModelTrainer.weights m))))
  /\ (forall m, model = Some m -> (6 <= length (featureWeights m))%nat ->
         let st' := MlEvalStore.updateMLWeights st model in
         let active := MlEvalStore.getCurrentWeights st' in
         MlEvalStore.weights active = map MlEvalStore.JNumber (featureWeights m)
         /\ MlEvalStore.bias active
            = MlEvalStore.JNumber (MlEvalStore.orZero (ModelTrainer.bias m))
         /\ MlEvalStore.bias active ≠ MlEvalStore.JNumber NaN
         /\ MlEvalStore.ml_model st' = Some (MlEvalStore.jsonWeights active)
         /\ MlEvalStore.loadSavedWeights st'
            = ({| MlEvalStore.MODEL_WEIGHTS := MlEvalStore.jsonWeights active;
                  MlEvalStore.ml_model := MlEvalStore.ml_model st' |}, true)
         /\ MlEval.weights (activeWeights active) = featureWeights m
         /\ MlEval.bias (activeWeights active)
            = MlEvalStore.orZero (ModelTrainer.bias m)
         /\ (finiteNumber (ModelTrainer.bias m) ->
               Forall finiteNumber (featureWeights m) ->
               MlEvalStore.loadSavedWeights st' = (st', true)
               /\ finiteNumber (MlEval.bias (activeWeights active))
               /\ Forall finiteNumber (MlEval.weights (activeWeights active))
               /\ exists qb qs,
                    MlEval.bias (activeWeights active) = ofQc qb
                    /\ MlEval.weights (activeWeights active) = map ofQc qs)).
Proof.
  split; [by intros ->|]. split.
  { intros m -> Hlt. unfold MlEvalStore.updateMLWeights.
    by rewrite bool_decide_eq_false_2 by lia. }
  split.
  { intros random XX y options m Htrain ->.
    destruct (trainLinearModel_featureWeights _ _ _ _ _ Htrain) as (Hlen & _ & Hfw).
    unfold MlEvalStore.updateMLWeights. split; intros H.
    - by rewrite bool_decide_eq_false_2 by lia.
    - rewrite bool_decide_eq_true_2 by lia. simpl. by rewrite Hfw. }
  intros m -> Hlen st' active. subst active st'.
  unfold MlEvalStore.updateMLWeights. rewrite bool_decide_eq_true_2 by done.
  cbv zeta. unfold MlEvalStore.getCurrentWeights, MlEvalStore.loadSavedWeights.
  cbn [MlEvalStore.MODEL_WEIGHTS MlEvalStore.ml_model MlEvalStore.weights MlEvalStore.bias].
  split; [done|]. split; [done|]. split.
  { intros [= H]. by apply orZero_not_NaN in H. }
  split; [done|]. split; [done|].
  assert (Hactive : forall ws, map toNumber (map MlEvalStore.JNumber ws) = ws).
  { intros ws. rewrite map_map. apply map_id. }
  unfold activeWeights. cbn [MlEvalStore.weights MlEvalStore.bias MlEval.weights
                              MlEval.bias toNumber].
  rewrite Hactive.
  split; [done|]. split; [done|].
  intros Hb Hws.
  destruct (orZero_finite _ Hb) as [qb Hqb].
  split.
  - f_equal. f_equal. unfold MlEvalStore.jsonWeights.
    cbn [MlEvalStore.weights MlEvalStore.bias].
    rewrite map_jsonNumber_finite by done. by rewrite Hqb.
  - split; [by exists qb|]. split; [done|].
    exists qb. rewrite Hqb.
    assert (Hqs : exists qs, featureWeights m = map ofQc qs).
    { clear -Hws. induction Hws as [|x ws [q ->] _ [qs ->]]; [by exists []|].
      by exists (q :: qs). }
    destruct Hqs as [qs ->]. by exists qs.
Qed.

Lemma updateMLWeights_guard_witness :
  let st := MlEvalStore.mkStore MlEvalStore.initialWeightsObject None in
  let short := mkTrainedModel [ofQc 1%Qc; ofQc 1%Qc] (ofQc 1%Qc) [ofQc 1%Qc]
                 (mkTrainHistory [] []) in
  (length (featureWeights short) < 6)%nat
  /\ MlEvalStore.updateMLWeights st (Some short) = st.
Proof.
  intros st short.
  assert (H : (length (featureWeights short) < 6)%nat) by (simpl; lia).
  split; [exact H|].
  destruct (updateMLWeights_guard st (Some short)) as (_ & H2 & _).
  exact (H2 short eq_refl H).
Defined.
(** ** Exhaustive checks over the boards of nine cells *)

Lemma allBoards_complete (b : board) :
  plainBoard b -> b ∈ allBoards (length b).
Proof.
  induction 1 as [|c b Hc _ IH]; simpl.
  - apply list_elem_of_here.
  - apply list_elem_of_In, in_concat. exists [Null :: b; Mark X :: b; Mark O :: b].
    split.
    + apply in_map_iff. exists b. split; [done|]. by apply list_elem_of_In.
    + destruct c as [|[|]|]; simpl; auto.
Qed.

Lemma forall_boards (P : board -> bool) (n : nat) :
  forallb P (allBoards n) = true ->
  forall b, length b = n -> plainBoard b -> P b = true.
Proof.
  intros H b Hlen Hp. rewrite forallb_forall in H. apply H.
  apply list_elem_of_In. rewrite <- Hlen. by apply allBoards_complete.
Qed.

Lemma humanScaleCheck_all : forallb humanScaleCheck (allBoards 9) = true.
Proof. vm_compute. reflexivity. Qed.

Lemma positionRangeCheck_all : forallb positionRangeCheck (allBoards 9) = true.
Proof. vm_compute. reflexivity. Qed.

(** ** The classical evaluators and the scores of the search *)

(** X26.  The evaluator by human strategy is not on the scale of the search.  On
    a board of nine cells that is not terminal, where the player has a line with
    two marks and an empty cell and the opponent has none, it returns at least
    421, more than the score [100 - depth] the search gives a win.  So a search
    that stops early can prefer a threat to a win: at the depth of the
    difficulty "easy", on the board below, [findBestMove] plays the center for
    X, valued 723, although the move 2 completes a column. *)
Theorem classicalEvaluate_human_outranks_win
    (b : board) (player : mark)
    (Hlen : length b = 9%nat) (Hplain : plainBoard b)
    (Hnt : terminal (isTerminal b) = false)
    (Hthreat : 1 ≤ playerTwoInRow (extractFeatures b player))
    (Hsafe : opponentTwoInRow (extractFeatures b player) = 0) :
  (Qc_of_Z 421 ≤ ClassicalEvalHuman.classicalEvaluate b player)%Qc
  /\ (forall depth, 0 ≤ depth ->
        (Qc_of_Z (100 - depth) < ClassicalEvalHuman.classicalEvaluate b player)%Qc)
  /\ (let b0 := [Null; Null; Null; Null; Null; Mark X; Mark O; Mark O; Mark X] in
      let r := findBestMove b0 X (finiteEvaluator ClassicalEvalHuman.classicalEvaluate)
                 (ClassicalEvalHuman.getClassicalDepth "easy") in
      winner (isTerminal (makeMove b0 2 X)) = Some (WinnerIs X)
      /\ bestMove r = Some 4%nat
      /\ bestValue r = ofQc (Qc_of_Z 723)
      /\ terminal (isTerminal (makeMove b0 4 X)) = false).
Proof.
  assert (H : (Qc_of_Z 421 ≤ ClassicalEvalHuman.classicalEvaluate b player)%Qc).
  { pose proof (forall_boards _ 9 humanScaleCheck_all b Hlen Hplain) as Hc.
    unfold humanScaleCheck in Hc. rewrite forallb_forall in Hc.
    specialize (Hc player). rewrite Hnt in Hc.
    rewrite bool_decide_eq_true_2 in Hc by done.
    apply (proj1 (bool_decide_eq_true _)). apply Hc. destruct player; simpl; auto. }
  split; [done|]. split.
  - intros depth Hd. eapply Qclt_le_trans; [|exact H].
    apply (proj1 (Z2Qc_inj_lt _ _)). lia.
  - vm_compute. repeat split; reflexivity.
Qed.

Lemma classicalEvaluate_human_outranks_win_witness :
  let b := [Mark X; Mark X; Null; Null; Mark O; Null; Null; Null; Null] in
  terminal (isTerminal b) = false
  /\ (Qc_of_Z 421 ≤ ClassicalEvalHuman.classicalEvaluate b X)%Qc.
Proof.
  intros b. split; [reflexivity|].
  destruct (classicalEvaluate_human_outranks_win b X) as (H & _).
  - reflexivity.
  - repeat constructor; discriminate.
  - reflexivity.
  - vm_compute. discriminate.
  - reflexivity.
  - exact H.
Defined.

(** X27.  The evaluator by positions on a board of nine cells that is not
    terminal returns a value between -186 and 146; when the numbers of marks are
    those of a game (X has as many marks as O, or one more) the value is between
    -105 and 85.  So in a game it stays below the score of a win of the search,
    which is at least 92, but it can fall below -100, the score of an immediate
    loss.  The bounds are attained. *)
Theorem classicalEvaluate_position_range
    (b : board) (player : mark)
    (Hlen : length b = 9%nat) (Hplain : plainBoard b)
    (Hnt : terminal (isTerminal b) = false) :
  (Qc_of_Z (-186) ≤ ClassicalEval.classicalEvaluate b player
   /\ ClassicalEval.classicalEvaluate b player ≤ Qc_of_Z 146)%Qc
  /\ (legalCounts b ->
        (Qc_of_Z (-105) ≤ ClassicalEval.classicalEvaluate b player
         /\ ClassicalEval.classicalEvaluate b player ≤ Qc_of_Z 85)%Qc)
  /\ (let b1 := [Null; Mark X; Mark X; Mark X; Null; Mark X; Mark X; Mark X; Null] in
      let b2 := [Null; Null; Null; Mark O; Mark X; Mark O; Mark X; Null; Mark X] in
      ClassicalEval.classicalEvaluate b1 X = Qc_of_Z 146
      /\ ClassicalEval.classicalEvaluate b1 O = Qc_of_Z (-186)
      /\ ClassicalEval.classicalEvaluate b2 X = Qc_of_Z 85
      /\ ClassicalEval.classicalEvaluate b2 O = Qc_of_Z (-105)
      /\ legalCounts b2).
Proof.
  pose proof (forall_boards _ 9 positionRangeCheck_all b Hlen Hplain) as Hc.
  unfold positionRangeCheck in Hc. rewrite forallb_forall in Hc.
  specialize (Hc player). rewrite Hnt in Hc.
  assert (Hin : In player [X; O]) by (destruct player; simpl; auto).
  apply Hc in Hin. apply andb_true_iff in Hin as [H1 H2].
  apply bool_decide_eq_true in H1.
  split; [done|]. split.
  - intros Hlegal. rewrite bool_decide_eq_true_2 in H2 by done.
    by apply bool_decide_eq_true in H2.
  - vm_compute. repeat split; try reflexivity. by right.
Qed.

Lemma classicalEvaluate_position_range_witness :
  terminal (isTerminal createEmptyBoard) = false
  /\ (Qc_of_Z (-105) ≤ ClassicalEval.classicalEvaluate createEmptyBoard X
      /\ ClassicalEval.classicalEvaluate createEmptyBoard X ≤ Qc_of_Z 85)%Qc.
Proof.
  split; [reflexivity|].
  destruct (classicalEvaluate_position_range createEmptyBoard X) as (_ & H & _).
  - reflexivity.
  - repeat constructor; discriminate.
  - reflexivity.
  - apply H. by left.
Defined.

(** ** The game component *)

Lemma getSearchDepth_hard (getClassicalDepth : string -> Z) W config :
  getClassicalDepth "hard" = 9 ->
  TicTacToe.difficulty config = "hard" ->
  TicTacToe.getSearchDepth getClassicalDepth W config = 9.
Proof.
  intros Hc Hd. unfold TicTacToe.getSearchDepth. rewrite Hd.
  by case_decide.
Qed.

(** X28.  At the difficulty "hard" the component searches with the depth limit
    9, for either evaluation type and with either version of the classical
    evaluator.  So the side the component plays for never loses: whichever mark
    it has, whoever moves first and whatever the opponent plays, no board
    reached from the empty board is a win of the opponent, and on every board
    reached that is not terminal [makeAIMove] sets a board with a legal move
    made. *)
Theorem hard_difficulty_never_loses
    (config : TicTacToe.gameConfig) (W : modelWeights)
    (Hhard : TicTacToe.difficulty config = "hard") :
  TicTacToe.getSearchDepth ClassicalEvalHuman.getClassicalDepth W config = 9
  /\ TicTacToe.getSearchDepth ClassicalEval.getClassicalDepth W config = 9
  /\ (forall (classicalEvaluate : evaluator) (getClassicalDepth : string -> Z)
             (aiFirst toMove : bool) (b : board),
        getClassicalDepth "hard" = 9 ->
        let ai := TicTacToe.aiPlayer config in
        rtc (playStep ai
               (TicTacToe.getEvaluationFunction classicalEvaluate W config)
               (TicTacToe.getSearchDepth getClassicalDepth W config))
          (aiFirst, createEmptyBoard) (toMove, b) ->
        winner (isTerminal b) ≠ Some (WinnerIs (getOpponent ai))
        /\ (terminal (isTerminal b) = false ->
              exists m,
                m ∈ getLegalMoves b
                /\ TicTacToe.makeAIMove classicalEvaluate getClassicalDepth W b ai config
                   = Some (makeMove b m ai))).
Proof.
  split; [by apply getSearchDepth_hard|]. split; [by apply getSearchDepth_hard|].
  intros cls clsDepth aiFirst toMove b Hc ai Hplay.
  rewrite (getSearchDepth_hard clsDepth W config Hc Hhard) in Hplay.
  assert (Hsafe : safePlay 9 ai aiFirst createEmptyBoard = true).
  { pose proof safePlay_from_empty_board as H.
    rewrite forallb_forall in H. specialize (H ai).
    rewrite forallb_forall in H. apply H; destruct ai, aiFirst; simpl; auto. }
  destruct (safePlay_sound ai _ _ _ Hplay 9%nat eq_refl Hsafe) as [Hnl Hlen].
  simpl in Hnl, Hlen. unfold notLost in Hnl.
  apply negb_true_iff, bool_decide_eq_false in Hnl.
  split; [done|].
  intros Ht. destruct (nonterminal_has_move _ Ht) as [i Hi].
  unfold TicTacToe.makeAIMove. cbv zeta.
  rewrite (getSearchDepth_hard clsDepth W config Hc Hhard).
  rewrite (findBestMove_ev_indep b ai _ zeroEval).
  2:{ pose proof (countNull_le_length b). lia. }
  destruct (findBestMove_first_best b ai zeroEval 9) as (m & Hm & Hin & _).
  { intros m _. apply rootValue_finite, zeroEval_finite. }
  { intros E. rewrite E in Hi. by apply elem_of_nil in Hi. }
  exists m. split; [done|]. by rewrite Hm.
Qed.

Lemma hard_difficulty_never_loses_witness :
  let config := TicTacToe.mkGameConfig X O "hard" "ml" in
  TicTacToe.difficulty config = "hard"
  /\ TicTacToe.getSearchDepth ClassicalEval.getClassicalDepth defaultWeights config = 9.
Proof.
  intros config. split; [reflexivity|].
  destruct (hard_difficulty_never_loses config defaultWeights eq_refl) as (_ & H & _).
  exact H.
Defined.

(** X29.  The component makes a move only on an empty cell.  A click is ignored
    unless the game is being played, the search is not running, it is the turn
    of the human player and the cell clicked holds [null] (a cell that holds a
    mark and an index outside the board are ignored); the move of the search is
    a legal move.  So every call of [makeMove] of the component is one on which
    the [applyMove] of the specification succeeds, and it fills one empty cell.
    [makeAIMove] leaves the board as it is when no move is legal, and exactly
    when every root value of the search is NaN or [-Infinity]; when the root
    values are finite that is exactly when no move is legal. *)
Theorem component_moves_are_legal
    (classicalEvaluate : evaluator) (getClassicalDepth : string -> Z)
    (W : modelWeights) (config : TicTacToe.gameConfig) :
  (forall st index nb,
     TicTacToe.handleCellClick st config index = Some nb ->
     index ∈ getLegalMoves (TicTacToe.stateBoard st)
     /\ TicTacToe.gameStatus st = TicTacToe.playing
     /\ TicTacToe.thinking st = false
     /\ TicTacToe.currentPlayer st = TicTacToe.humanPlayer config
     /\ nb = makeMove (TicTacToe.stateBoard st) index (TicTacToe.currentPlayer st)
     /\ applyMove_spec (TicTacToe.stateBoard st) index (TicTacToe.currentPlayer st)
        = MoveOk nb
     /\ S (countNull nb) = countNull (TicTacToe.stateBoard st))
  /\ (forall st index,
        index ∉ getLegalMoves (TicTacToe.stateBoard st) ->
        TicTacToe.handleCellClick st config index = None)
  /\ (forall b player nb,
        TicTacToe.makeAIMove classicalEvaluate getClassicalDepth W b player config
        = Some nb ->
        exists m,
          m ∈ getLegalMoves b /\ nb = makeMove b m player
          /\ applyMove_spec b m player = MoveOk nb
          /\ S (countNull nb) = countNull b)
  /\ (forall b player,
        getLegalMoves b = [] ->
        TicTacToe.makeAIMove classicalEvaluate getClassicalDepth W b player config = None)
  /\ (forall b player,
        let value :=
          rootValue b player
            (TicTacToe.getEvaluationFunction classicalEvaluate W config)
            (TicTacToe.getSearchDepth getClassicalDepth W config) in
        (TicTacToe.makeAIMove classicalEvaluate getClassicalDepth W b player config = None
         <-> forall m, m ∈ getLegalMoves b -> value m = NaN \/ value m = Some NegInfinity)
        /\ ((forall m, m ∈ getLegalMoves b -> finiteNumber (value m)) ->
              (TicTacToe.makeAIMove classicalEvaluate getClassicalDepth W b player config
               = None
               <-> getLegalMoves b = []))).
Proof.
  assert (Hspec : forall b m player, m ∈ getLegalMoves b ->
            applyMove_spec b m player = MoveOk (makeMove b m player)).
  { intros b m player Hin. pose proof (getLegalMoves_lt_length _ _ Hin).
    apply elem_of_getLegalMoves in Hin. unfold applyMove_spec.
    rewrite decide_True by done. unfold makeMove. by rewrite decide_True. }
  assert (Hcell : forall (b : board) i, cellAt b i = Null <-> i ∈ getLegalMoves b).
  { intros b i. rewrite elem_of_getLegalMoves. unfold cellAt.
    destruct (b !! i) as [c|]; simpl; [|done]. split; [by intros ->|by intros [= ->]]. }
  split; [|split; [|split; [|split]]].
  - intros st index nb. unfold TicTacToe.handleCellClick.
    destruct (bool_decide (TicTacToe.gameStatus st ≠ TicTacToe.playing)) eqn:Es;
      [done|].
    destruct (TicTacToe.thinking st) eqn:Eth; [done|]. simpl.
    destruct (decide (cellAt (TicTacToe.stateBoard st) index ≠ Null)) as [|Hc]; [done|].
    destruct (decide (TicTacToe.currentPlayer st ≠ TicTacToe.humanPlayer config))
      as [|Hp]; [done|].
    intros [= <-].
    assert (Hin : index ∈ getLegalMoves (TicTacToe.stateBoard st)).
    { apply Hcell. by destruct (decide (cellAt (TicTacToe.stateBoard st) index = Null)). }
    split; [done|]. split.
    { apply bool_decide_eq_false in Es.
      by destruct (decide (TicTacToe.gameStatus st = TicTacToe.playing)). }
    split; [done|]. split.
    { by destruct (decide (TicTacToe.currentPlayer st = TicTacToe.humanPlayer config)). }
    split; [done|]. split; [by apply Hspec|].
    symmetry. by apply countNull_makeMove.
  - intros st index Hnot. unfold TicTacToe.handleCellClick.
    destruct (_ || _); [done|].
    rewrite decide_True; [done|]. intros Hc. by apply Hnot, Hcell.
  - intros b player nb. unfold TicTacToe.makeAIMove. cbv zeta.
    destruct (bestMove _) as [m|] eqn:Em; [|done]. intros [= <-].
    apply findBestMove_legal in Em. exists m.
    split; [done|]. split; [done|]. split; [by apply Hspec|].
    symmetry. by apply countNull_makeMove.
  - intros b player El. unfold TicTacToe.makeAIMove. cbv zeta.
    unfold findBestMove. by rewrite El.
  - intros b player value. subst value.
    unfold TicTacToe.makeAIMove. cbv zeta.
    set (ev := TicTacToe.getEvaluationFunction classicalEvaluate W config).
    set (depth := TicTacToe.getSearchDepth getClassicalDepth W config).
    assert (Hnone : match bestMove (findBestMove b player ev depth) with
                    | Some bestMove => Some (makeMove b bestMove player)
                    | None => None
                    end = None
                    <-> bestMove (findBestMove b player ev depth) = None).
    { by destruct (bestMove (findBestMove b player ev depth)). }
    rewrite Hnone. split.
    + rewrite findBestMove_None.
      split; intros H m Hm; by apply js_gtb_least_cases, H.
    + intros Hfin. split.
      * intros Hbest. destruct (getLegalMoves b) as [|y l] eqn:El; [done|]. exfalso.
        destruct (findBestMove_first_best b player ev depth) as (m & Hm & _).
        -- by rewrite El.
        -- by rewrite El.
        -- congruence.
      * intros El. unfold findBestMove. by rewrite El.
Qed.

Lemma component_moves_are_legal_witness :
  let config := TicTacToe.mkGameConfig X O "normal" "classical" in
  let st := TicTacToe.mkGameState
              [Mark X; Null; Null; Null; Mark O; Null; Null; Null; Null]
              X TicTacToe.playing false in
  TicTacToe.handleCellClick st config 0 = None
  /\ TicTacToe.handleCellClick st config 9 = None
  /\ TicTacToe.handleCellClick st config 1
     = Some [Mark X; Mark X; Null; Null; Mark O; Null; Null; Null; Null].
Proof.
  intros config st.
  destruct (component_moves_are_legal (finiteEvaluator ClassicalEval.classicalEvaluate)
              ClassicalEval.getClassicalDepth defaultWeights config) as (_ & H & _).
  split; [|split].
  - apply H. rewrite elem_of_getLegalMoves. discriminate.
  - apply H. rewrite elem_of_getLegalMoves. discriminate.
  - reflexivity.
Defined.
